(** * A shallow embedding of the cache simulator [csim.c]

    The simulator replays a memory trace against a set-associative cache
    with LRU replacement and write-back accounting.  The embedding follows
    the C source function by function: [cache_init], [add_LRU_counter],
    [cache_sim] and the trace loop of [main]; [cache_free] and the calls
    of [malloc] and [free] follow, then the matrix transposes of [trans.c].

    Conventions.
    - [int] and [unsigned long] values are integers of [Z]; the wrap-around
      of [unsigned long] arithmetic is written out with [wrap_ulong].
    - An array of lines is a [list line_t], read with [!!] and written with
      [<[ i := x ]>].  A read outside the array is undefined in C; here it
      makes the enclosing function return [None].
    - The five global counters and the text written to standard output are
      the fields of [globals], threaded through every function that
      touches them. *)

From Stdlib Require Import ZArith Lia Ascii String.
From Stdlib Require PrimFloat.
From stdpp Require Import base tactics option numbers list strings gmap.

Local Open Scope Z_scope.

(** ** Machine arithmetic *)

(** Value of an integer expression stored in an [unsigned long] (64 bits). *)
Definition wrap_ulong (x : Z) : Z := x mod 2 ^ 64.

(** Value of an integer expression stored in an [int] (32 bits, two's
    complement). *)
Definition wrap_int (x : Z) : Z := (x + 2 ^ 31) mod 2 ^ 32 - 2 ^ 31.

(** [1 << n] computed in [int].  C defines it for [0 <= n <= 30]; outside
    that range the model keeps the wrapped mathematical value. *)
Definition shl1_int (n : Z) : Z := wrap_int (Z.shiftl 1 n).

(** ** Data model *)

(** Line structure of a set. *)
Record line_t := mk_line {
  valid : Z;        (* int: 1 if the line has data loaded *)
  dirty_bit : Z;    (* int: 1 if the payload is modified and not written back *)
  tag : Z;          (* unsigned long *)
  LRU_counter : Z   (* unsigned long *)
}.

(** Set structure of a cache: the array its [lines] pointer designates. *)
Record set_t := mk_set { lines : list line_t }.

(** Cache structure with parameters. *)
Record cache_t := mk_cache {
  s : Z;                (* number of set index bits *)
  E : Z;                (* associativity *)
  b : Z;                (* number of block bits *)
  sets : list set_t
}.

(** The statistics record of [cachelab.h], handed to [printSummary]. *)
Module Cachelab.
Record csim_stats_t := mk_stats {
  hits : Z;
  misses : Z;
  evictions : Z;
  dirty_bytes : Z;
  dirty_evictions : Z
}.
End Cachelab.

(** What the program writes to standard output. *)
Inductive output :=
| Printf (text : string)
    (* printf of a literal string, kept as the C literal *)
| PrintfAccess (access_type : ascii) (address : Z) (size : Z)
    (* printf("%c %lx,%d ", access_type, address, size) *)
| PrintSummary (stats : Cachelab.csim_stats_t).
    (* printSummary(&stats) *)

(** Global state of the process: the five counters of the source and the
    standard output written so far. *)
Record globals := mk_globals {
  hit : Z;
  miss : Z;
  eviction : Z;
  dirty_bytes : Z;
  dirty_evictions : Z;
  stdout : list output
}.

(** Static initialisation of the counters. *)
Definition globals_init : globals := mk_globals 0 0 0 0 0 [].

(** *** Field updates *)

Definition set_valid (l : line_t) (v : Z) : line_t :=
  mk_line v (dirty_bit l) (tag l) (LRU_counter l).
Definition set_dirty_bit (l : line_t) (v : Z) : line_t :=
  mk_line (valid l) v (tag l) (LRU_counter l).
Definition set_tag (l : line_t) (v : Z) : line_t :=
  mk_line (valid l) (dirty_bit l) v (LRU_counter l).
Definition set_LRU_counter (l : line_t) (v : Z) : line_t :=
  mk_line (valid l) (dirty_bit l) (tag l) v.

(** [line.LRU_counter++] *)
Definition incr_LRU_counter (l : line_t) : line_t :=
  set_LRU_counter l (wrap_ulong (LRU_counter l + 1)).

Definition printf (g : globals) (text : string) : globals :=
  mk_globals (hit g) (miss g) (eviction g) (dirty_bytes g) (dirty_evictions g)
             (stdout g ++ [Printf text]).
Definition put (g : globals) (o : output) : globals :=
  mk_globals (hit g) (miss g) (eviction g) (dirty_bytes g) (dirty_evictions g)
             (stdout g ++ [o]).
(** [hit++], [miss++], [eviction++] *)
Definition incr_hit (g : globals) : globals :=
  mk_globals (wrap_ulong (hit g + 1)) (miss g) (eviction g) (dirty_bytes g)
             (dirty_evictions g) (stdout g).
Definition incr_miss (g : globals) : globals :=
  mk_globals (hit g) (wrap_ulong (miss g + 1)) (eviction g) (dirty_bytes g)
             (dirty_evictions g) (stdout g).
Definition incr_eviction (g : globals) : globals :=
  mk_globals (hit g) (miss g) (wrap_ulong (eviction g + 1)) (dirty_bytes g)
             (dirty_evictions g) (stdout g).
(** [dirty_bytes += d] (with [d] negative for [-=]) and
    [dirty_evictions += d] *)
Definition add_dirty_bytes (g : globals) (d : Z) : globals :=
  mk_globals (hit g) (miss g) (eviction g) (wrap_ulong (dirty_bytes g + d))
             (dirty_evictions g) (stdout g).
Definition add_dirty_evictions (g : globals) (d : Z) : globals :=
  mk_globals (hit g) (miss g) (eviction g) (dirty_bytes g)
             (wrap_ulong (dirty_evictions g + d)) (stdout g).

(** ** [cache_init] *)

(** The state of a line after the inner loop of [cache_init]. *)
Definition line_init : line_t := mk_line 0 0 0 0.

(** The outer loop of [cache_init], from set [i], with [n] sets to go.
    [malloc_ok k] tells whether the [k]-th call of [malloc] succeeds
    (call 0 allocates the cache, call 1 the array of sets, call [2 + i]
    the lines of set [i]).  The inner loop stores the same four zeros in
    each of the [E] lines. *)
Fixpoint cache_init_sets (malloc_ok : nat → bool) (n i : nat) (E : Z)
  : option (list set_t) :=
  match n with
  | O => Some []
  | S n' =>
      if malloc_ok (2 + i)%nat then
        (mk_set (replicate (Z.to_nat E) line_init) ::.)
          <$> cache_init_sets malloc_ok n' (S i) E
      else None
  end.

(** [cache_init s E b]: the new cache, or the message printed before
    returning NULL. *)
Definition cache_init (malloc_ok : nat → bool) (s E b : Z)
  : cache_t + string :=
  if negb (malloc_ok 0%nat) then inr "Malloc for cache failed\n"%string
  else
    let S := shl1_int s in
    if negb (malloc_ok 1%nat) then inr "Malloc for set failed\n"%string
    else
      match cache_init_sets malloc_ok (Z.to_nat S) 0 E with
      | Some sets => inl (mk_cache s E b sets)
      | None => inr "Malloc for line failed\n"%string
      end.

(** ** [add_LRU_counter] *)

(** The loop [for (i = begin_index; i < end_index; i++)], at index [i] with
    [n] iterations to go. *)
Fixpoint add_LRU_loop (n i : nat) (ls : list line_t) : option (list line_t) :=
  match n with
  | O => Some ls
  | S n' =>
      l ← ls !! i;
      add_LRU_loop n' (S i) (<[i := incr_LRU_counter l]> ls)
  end.

Definition add_LRU_counter (set_access : set_t) (begin_index end_index : nat)
  : option set_t :=
  mk_set <$> add_LRU_loop (end_index - begin_index)%nat begin_index (lines set_access).

(** ** [cache_sim] *)

(** First loop of [cache_sim]: the hit scan.  Returns the lines, the
    globals, [hit_flag] and [hit_index]. *)
Fixpoint hit_scan (n i : nat) (tg : Z) (verbose : bool)
    (ls : list line_t) (g : globals)
  : option (list line_t * globals * Z * nat) :=
  match n with
  | O => Some (ls, g, 0, 0%nat)
  | S n' =>
      line_access ← ls !! i;
      if (tag line_access =? tg) && (valid line_access =? 1) then
        let g := if verbose then printf g "hit\n" else g in
        let g := incr_hit g in
        Some (<[i := set_LRU_counter line_access 0]> ls, g, 1, i)
      else
        hit_scan n' (S i) tg verbose (<[i := incr_LRU_counter line_access]> ls) g
  end.

(** Second loop of [cache_sim]: the scan for an invalid line.  Returns the
    lines, the globals, [flag] and [index]. *)
Fixpoint fill_scan (n i : nat) (tg : Z) (verbose : bool)
    (ls : list line_t) (g : globals)
  : option (list line_t * globals * Z * nat) :=
  match n with
  | O => Some (ls, g, 0, 0%nat)
  | S n' =>
      line_access ← ls !! i;
      if valid line_access =? 0 then
        let g := if verbose then printf g "\n" else g in
        let line_access := set_valid line_access 1 in
        let line_access := set_tag line_access tg in
        let line_access := set_LRU_counter line_access 0 in
        Some (<[i := line_access]> ls, g, 1, i)
      else
        fill_scan n' (S i) tg verbose (<[i := incr_LRU_counter line_access]> ls) g
  end.

(** Third loop of [cache_sim]: the choice of the line to evict.
    [max_counter] is read once before the loop and the loop body does not
    assign it. *)
Fixpoint evict_scan (n i : nat) (max_counter : Z) (evict_index : nat)
    (ls : list line_t) : option nat :=
  match n with
  | O => Some evict_index
  | S n' =>
      line_access ← ls !! i;
      evict_scan n' (S i) max_counter
        (if LRU_counter line_access >? max_counter then i else evict_index) ls
  end.

(** [int evict_index = 0; max_counter = lines[0].LRU_counter; for ...] *)
Definition select_victim (E : Z) (ls : list line_t) : option nat :=
  l0 ← ls !! 0%nat;
  evict_scan (Z.to_nat E - 1)%nat 1%nat (LRU_counter l0) 0%nat ls.

(** [c == d] on characters. *)
Definition is_char (c d : ascii) : bool := bool_decide (c = d).

(** A cache simulator to simulate the behavior of a cache memory with data
    load and store.  The parameter [tag] of the source is [tg] here, the
    name [tag] being the field of [line_t]. *)
Definition cache_sim (access_type : ascii) (set_access : set_t) (tg : Z)
    (E b : Z) (verbose : bool) (g : globals) : option (set_t * globals) :=
  let B := wrap_ulong (shl1_int b) in
  '(ls, g, hit_flag, hit_index) ←
    hit_scan (Z.to_nat E) 0 tg verbose (lines set_access) g;
  if hit_flag =? 1 then
    set_access ← add_LRU_counter (mk_set ls) (hit_index + 1) (Z.to_nat E);
    l ← lines set_access !! hit_index;
    if is_char access_type "S" && (dirty_bit l =? 0) then
      Some (mk_set (<[hit_index := set_dirty_bit l 1]> (lines set_access)),
            add_dirty_bytes g B)
    else Some (set_access, g)
  else
    let g := if verbose then printf g "miss" else g in
    let g := incr_miss g in
    '(ls, g, flag, index) ← fill_scan (Z.to_nat E) 0 tg verbose ls g;
    if flag =? 1 then
      set_access ← add_LRU_counter (mk_set ls) (index + 1) (Z.to_nat E);
      if is_char access_type "S" then
        l ← lines set_access !! index;
        Some (mk_set (<[index := set_dirty_bit l 1]> (lines set_access)),
              add_dirty_bytes g B)
      else Some (set_access, g)
    else
      let g := if verbose then printf g " eviction\n" else g in
      let g := incr_eviction g in
      evict_index ← select_victim E ls;
      l ← ls !! evict_index;
      let ls := <[evict_index := set_tag l tg]> ls in
      l ← ls !! evict_index;
      let ls := <[evict_index := set_LRU_counter l 0]> ls in
      set_access ← add_LRU_counter (mk_set ls) 0 evict_index;
      set_access ← add_LRU_counter set_access (evict_index + 1) (Z.to_nat E);
      let ls := lines set_access in
      l ← ls !! evict_index;
      if (dirty_bit l =? 0) && is_char access_type "S" then
        Some (mk_set (<[evict_index := set_dirty_bit l 1]> ls), add_dirty_bytes g B)
      else if dirty_bit l =? 1 then
        let '(ls, g) :=
          if is_char access_type "L" then
            (<[evict_index := set_dirty_bit l 0]> ls,
             add_dirty_evictions (add_dirty_bytes g (- B)) B)
          else (ls, g) in
        let '(ls, g) :=
          if is_char access_type "S" then
            (alter (λ l, set_dirty_bit l 1) evict_index ls,
             add_dirty_evictions g B)
          else (ls, g) in
        Some (mk_set ls, g)
      else Some (mk_set ls, g).

(** ** The trace loop of [main] *)

(** One record read by [fscanf(pFile, "%c %lx,%d\n", ...)], with its
    three fields converted. *)
Record access := mk_access {
  access_type : ascii;
  address : Z;      (* unsigned long *)
  size : Z          (* int *)
}.

(** How the trace loop ends: at the end of the file, or by the
    [return -1] of its error branch. *)
Inductive loop_result :=
| EndOfTrace (cache : cache_t) (g : globals)
| TraceError (g : globals).

Definition set_sets (c : cache_t) (v : list set_t) : cache_t :=
  mk_cache (s c) (E c) (b c) v.

(** [(address >> b) & ((1 << s) - 1)] and [address >> (s + b)] *)
Definition set_index_of (s b address : Z) : Z :=
  Z.land (Z.shiftr address b) (wrap_ulong (shl1_int s - 1)).
Definition tag_of (s b address : Z) : Z := Z.shiftr address (s + b).

(** The [while (fscanf(...) > 0)] loop over the records of the file.
    [set_access] points into the cache, so the set written by [cache_sim]
    is stored back at [set_index]. *)
Fixpoint trace_loop (s E b : Z) (verbose : bool) (trace : list access)
    (cache : cache_t) (g : globals) : option loop_result :=
  match trace with
  | [] => Some (EndOfTrace cache g)
  | r :: trace' =>
      let set_index := set_index_of s b (address r) in
      let tg := tag_of s b (address r) in
      let g :=
        if verbose then put g (PrintfAccess (access_type r) (address r) (size r))
        else g in
      if is_char (access_type r) "L" || is_char (access_type r) "S" then
        set_access ← sets cache !! Z.to_nat set_index;
        '(set_access, g) ← cache_sim (access_type r) set_access tg E b verbose g;
        trace_loop s E b verbose trace'
          (set_sets cache (<[Z.to_nat set_index := set_access]> (sets cache))) g
      else
        Some (TraceError (printf g "Tracefile error\n"))
  end.

(** [main] after the options are parsed (the [getopt] loop and
    [print_usage] belong to the command line and are left out):
    [tracefile] is the argument of [-t] if any, [fopen] gives the records
    of a file that can be read.  The result is the exit status with the
    output; [None] when the program dereferences the NULL returned by a
    failed [cache_init]. *)
Definition main (malloc_ok : nat → bool) (fopen : string → option (list access))
    (s E b : Z) (verbose : bool) (tracefile : option string)
  : option (Z * list output) :=
  match tracefile with
  | Some name =>
      if (s <? 0) || (E <=? 0) || (b <? 0) then
        Some (-1, [Printf "Invalid input!\n"])
      else
        let cache := cache_init malloc_ok s E b in
        let g :=
          match cache with
          | inl _ => globals_init
          | inr text => printf globals_init text
          end in
        match fopen name with
        | None => Some (-1, stdout (printf g "Open file error\n"))
        | Some trace =>
            match cache with
            | inr _ => None
            | inl cache =>
                match trace_loop s E b verbose trace cache g with
                | None => None
                | Some (TraceError g) => Some (-1, stdout g)
                | Some (EndOfTrace cache g) =>
                    let stats :=
                      Cachelab.mk_stats (hit g) (miss g) (eviction g)
                                        (dirty_bytes g) (dirty_evictions g) in
                    Some (0, stdout (put g (PrintSummary stats)))
                end
            end
        end
  | None => Some (-1, [Printf "Invalid input!\n"])
  end.

(** ** Records of a trace *)

(** A Load and a Store of one byte at address [a]. *)
Definition L (a : Z) : access := mk_access "L" a 1.
Definition St (a : Z) : access := mk_access "S" a 1.

(** ** The heap: [cache_init] and [cache_free] *)

(** The calls that change the heap.  A block is named by the number of the
    call of [malloc] that returned it, as in [cache_init]: 0 is the cache,
    1 the array of sets, [2 + i] the lines of set [i].  A call of [malloc]
    that fails changes nothing and leaves no event. *)
Inductive heap_event :=
| Malloc (k : nat)
| Free (k : nat).

(** The outer loop of [cache_init] seen from the heap: the events, and
    whether the loop reached its end. *)
Fixpoint cache_init_sets_heap (malloc_ok : nat → bool) (n i : nat)
  : list heap_event * bool :=
  match n with
  | O => ([], true)
  | S n' =>
      if malloc_ok (2 + i)%nat then
        let '(events, ok) := cache_init_sets_heap malloc_ok n' (S i) in
        (Malloc (2 + i) :: events, ok)
      else ([Free 1; Free 0], false)
  end.

(** The calls of [malloc] and [free] of [cache_init], in order. *)
Definition cache_init_heap (malloc_ok : nat → bool) (s : Z)
  : list heap_event :=
  if negb (malloc_ok 0%nat) then []
  else
    Malloc 0 ::
    if negb (malloc_ok 1%nat) then [Free 0]
    else
      Malloc 1 ::
      fst (cache_init_sets_heap malloc_ok (Z.to_nat (shl1_int s)) 0).

(** The loop of [cache_free]: [free(cache->sets[i].lines)] for each set. *)
Fixpoint cache_free_loop (n i : nat) (sets : list set_t)
  : option (list heap_event) :=
  match n with
  | O => Some []
  | S n' =>
      _ ← sets !! i;
      events ← cache_free_loop n' (S i) sets;
      Some (Free (2 + i) :: events)
  end.

(** Free all memory used by a cache. *)
Definition cache_free (cache : cache_t) : option (list heap_event) :=
  let S := shl1_int (s cache) in
  events ← cache_free_loop (Z.to_nat S) 0 (sets cache);
  Some (events ++ [Free 1; Free 0]).

(** The blocks that are live after the events, starting from the live
    blocks [live]; [None] when a block is freed that is not live. *)
Fixpoint heap_run (events : list heap_event) (live : gset nat)
  : option (gset nat) :=
  match events with
  | [] => Some live
  | Malloc k :: events => heap_run events ({[k]} ∪ live)
  | Free k :: events =>
      if decide (k ∈ live) then heap_run events (live ∖ {[k]}) else None
  end.

(** ** The matrix transposes of [trans.c] *)

(** A [double] is a binary64 floating-point number. *)
Definition double : Set := PrimFloat.float.

(** [x != y] on doubles: it holds also when [x] or [y] is a NaN. *)
Definition double_ne (x y : double) : bool := negb (PrimFloat.eqb x y).

(** How a run stops before its end: on a reference outside an array, which
    C leaves undefined, or on [abort] in a failed [assert].  [OutOfFuel] is
    the bound on the iterations of a loop of the embedding; no loop below
    reaches it. *)
Inductive fault := OutOfBounds | AssertionFailed | OutOfFuel.

Inductive result (T : Type) :=
| Ok (x : T)
| Stop (f : fault).
Arguments Ok {T} x.
Arguments Stop {T} f.

#[global] Instance result_ret : MRet result := λ T x, Ok x.
#[global] Instance result_bind : MBind result := λ T U k m,
  match m with Ok x => k x | Stop f => Stop f end.
#[global] Instance result_fmap : FMap result := λ T U k m,
  match m with Ok x => Ok (k x) | Stop f => Stop f end.

(** A matrix [double X[R][C]] is the list of its [R] rows of [C] doubles.
    The sizes and the indices are of type [size_t]; an array that fits the
    address space has fewer than [2^61] doubles, so that no index computed
    below (none exceeds a size by more than 7) wraps, and the indices are
    natural numbers. *)

(** The element [X[i][j]], if [i] is a row of [X] and [j] a column of it. *)
Definition at2 (X : list (list double)) (i j : nat) : option double :=
  row ← X !! i; row !! j.

(** Reading [X[i][j]] and writing [X[i][j] = x]; reading [tmp[k]] and
    writing [tmp[k] = x]. *)
Definition read2 (X : list (list double)) (i j : nat) : result double :=
  match at2 X i j with Some x => Ok x | None => Stop OutOfBounds end.
Definition write2 (X : list (list double)) (i j : nat) (x : double)
  : result (list (list double)) :=
  match X !! i with
  | Some row =>
      if (j <? length row)%nat then Ok (<[i := <[j := x]> row]> X)
      else Stop OutOfBounds
  | None => Stop OutOfBounds
  end.
Definition read1 (tmp : list double) (k : nat) : result double :=
  match tmp !! k with Some x => Ok x | None => Stop OutOfBounds end.
Definition write1 (tmp : list double) (k : nat) (x : double)
  : result (list double) :=
  if (k <? length tmp)%nat then Ok (<[k := x]> tmp) else Stop OutOfBounds.

(** [for (size_t i = a; i < bound; i += step) body], from index [i], with
    at most [fuel] iterations. *)
Fixpoint for_loop {St} (fuel i bound step : nat)
    (body : nat → St → result St) (st : St) : result St :=
  if (i <? bound)%nat then
    match fuel with
    | O => Stop OutOfFuel
    | S fuel =>
        st ← body i st;
        for_loop fuel (i + step) bound step body st
    end
  else Ok st.

(** The loop from [a]: [bound - a] iterations are enough for any positive
    step. *)
Definition for_ {St} (a bound step : nat) (body : nat → St → result St)
    (st : St) : result St :=
  for_loop (bound - a) a bound step body st.

(** [assert(e)]: nothing with [NDEBUG], where [e] is not evaluated. *)
Definition c_assert (NDEBUG : bool) (e : result bool) : result unit :=
  if NDEBUG then Ok tt
  else v ← e; if v : bool then Ok tt else Stop AssertionFailed.

(** *** [is_transpose] *)

(** The result of [is_transpose]: [true], or [false] with the arguments
    [j], [i], [B[j][i]], [A[i][j]] of the message written to [stderr]. *)
Inductive verdict :=
| Transposed
| Mismatch (j i : nat) (Bji Aij : double).

Definition holds (v : verdict) : bool :=
  match v with Transposed => true | Mismatch _ _ _ _ => false end.

(** The inner loop of [is_transpose] in row [i], from column [j], with [n]
    columns to go; [Transposed] when the loop comes to its end. *)
Fixpoint is_transpose_cols (n j i : nat) (A B : list (list double))
  : result verdict :=
  match n with
  | O => Ok Transposed
  | S n' =>
      a ← read2 A i j;
      b ← read2 B j i;
      if double_ne a b then Ok (Mismatch j i b a)
      else is_transpose_cols n' (S j) i A B
  end.

(** The outer loop, from row [i], with [n] rows to go. *)
Fixpoint is_transpose_rows (n i M : nat) (A B : list (list double))
  : result verdict :=
  match n with
  | O => Ok Transposed
  | S n' =>
      v ← is_transpose_cols M 0 i A B;
      match v with
      | Transposed => is_transpose_rows n' (S i) M A B
      | Mismatch _ _ _ _ => Ok v
      end
  end.

(** Checks if [B] is the transpose of [A]. *)
Definition is_transpose (M N : nat) (A B : list (list double))
  : result verdict :=
  is_transpose_rows N 0 M A B.

(** *** The transposes *)

(** Each takes the width [M] and the height [N] of [A], the matrices [A]
    and [B] and the array [tmp], and gives [B] and [tmp] as it leaves
    them; [A] is only read. *)
Definition trans_blocking (NDEBUG : bool) (M N : nat)
    (A B : list (list double)) (tmp : list double)
  : result (list (list double) * list double) :=
  _ ← c_assert NDEBUG (Ok (0 <? M)%nat);
  _ ← c_assert NDEBUG (Ok (0 <? N)%nat);
  '(B, tmp) ←
    for_ 0 N 8 (λ i,
      for_ 0 M 8 (λ j,
        for_ i (i + 8) 1 (λ m,
          for_ j (j + 8) 1 (λ n '(B, tmp),
            x ← read2 A m n;
            B ← write2 B n m x;
            Ok (B, tmp))))) (B, tmp);
  _ ← c_assert NDEBUG (holds <$> is_transpose M N A B);
  Ok (B, tmp).

Definition trans_blocking_diagonal (NDEBUG : bool) (M N : nat)
    (A B : list (list double)) (tmp : list double)
  : result (list (list double) * list double) :=
  _ ← c_assert NDEBUG (Ok (0 <? M)%nat);
  _ ← c_assert NDEBUG (Ok (0 <? N)%nat);
  '(B, tmp) ←
    for_ 0 N 8 (λ i,
      for_ 0 M 8 (λ j,
        for_ i (i + 8) 1 (λ m '(B, tmp),
          if (i =? j)%nat then
            x ← read2 A m j; tmp ← write1 tmp 0 x;
            x ← read2 A m (j + 1); tmp ← write1 tmp 1 x;
            x ← read2 A m (j + 2); tmp ← write1 tmp 2 x;
            x ← read2 A m (j + 3); tmp ← write1 tmp 3 x;
            x ← read2 A m (j + 4); tmp ← write1 tmp 4 x;
            x ← read2 A m (j + 5); tmp ← write1 tmp 5 x;
            x ← read2 A m (j + 6); tmp ← write1 tmp 6 x;
            x ← read2 A m (j + 7); tmp ← write1 tmp 7 x;
            x ← read1 tmp 0; B ← write2 B j m x;
            x ← read1 tmp 1; B ← write2 B (j + 1) m x;
            x ← read1 tmp 2; B ← write2 B (j + 2) m x;
            x ← read1 tmp 3; B ← write2 B (j + 3) m x;
            x ← read1 tmp 4; B ← write2 B (j + 4) m x;
            x ← read1 tmp 5; B ← write2 B (j + 5) m x;
            x ← read1 tmp 6; B ← write2 B (j + 6) m x;
            x ← read1 tmp 7; B ← write2 B (j + 7) m x;
            Ok (B, tmp)
          else
            for_ j (j + 8) 1 (λ n '(B, tmp),
              x ← read2 A m n;
              B ← write2 B n m x;
              Ok (B, tmp)) (B, tmp)))) (B, tmp);
  _ ← c_assert NDEBUG (holds <$> is_transpose M N A B);
  Ok (B, tmp).

(** A simple baseline transpose function. *)
Definition trans_basic (NDEBUG : bool) (M N : nat)
    (A B : list (list double)) (tmp : list double)
  : result (list (list double) * list double) :=
  _ ← c_assert NDEBUG (Ok (0 <? M)%nat);
  _ ← c_assert NDEBUG (Ok (0 <? N)%nat);
  '(B, tmp) ←
    for_ 0 N 1 (λ i,
      for_ 0 M 1 (λ j '(B, tmp),
        x ← read2 A i j;
        B ← write2 B j i x;
        Ok (B, tmp))) (B, tmp);
  _ ← c_assert NDEBUG (holds <$> is_transpose M N A B);
  Ok (B, tmp).

(** The transpose that goes through the first four elements of [tmp]. *)
Definition trans_tmp (NDEBUG : bool) (M N : nat)
    (A B : list (list double)) (tmp : list double)
  : result (list (list double) * list double) :=
  _ ← c_assert NDEBUG (Ok (0 <? M)%nat);
  _ ← c_assert NDEBUG (Ok (0 <? N)%nat);
  '(B, tmp) ←
    for_ 0 N 1 (λ i,
      for_ 0 M 1 (λ j '(B, tmp),
        let di := (i mod 2)%nat in
        let dj := (j mod 2)%nat in
        x ← read2 A i j;
        tmp ← write1 tmp (2 * di + dj) x;
        x ← read1 tmp (2 * di + dj);
        B ← write2 B j i x;
        Ok (B, tmp))) (B, tmp);
  _ ← c_assert NDEBUG (holds <$> is_transpose M N A B);
  Ok (B, tmp).

(** The solution transpose function. *)
Definition transpose_submit (NDEBUG : bool) (M N : nat)
    (A B : list (list double)) (tmp : list double)
  : result (list (list double) * list double) :=
  if (M =? N)%nat then
    if (M =? 32)%nat then trans_blocking_diagonal NDEBUG M N A B tmp
    else if (M =? 1024)%nat then trans_blocking NDEBUG M N A B tmp
    else trans_basic NDEBUG M N A B tmp
  else trans_tmp NDEBUG M N A B tmp.

(** * Specification-level definitions

    Nothing below is translated from the source.  These definitions state
    in closed form what the loops of the source compute, name the
    invariants of a run, and fix the concrete runs used as examples; the
    last part proves that the functions of the source agree with them. *)

(** ** List transformers *)

(** The lines of index [lo <= j < hi] aged once, the others untouched. *)
Definition age_range (lo hi : nat) (ls : list line_t) : list line_t :=
  imap (λ j l, if bool_decide (lo ≤ j < hi)%nat then incr_LRU_counter l else l) ls.

(** Line [h] rewritten by [f], every other line by [age]. *)
Definition touch (h : nat) (f age : line_t → line_t) (ls : list line_t)
  : list line_t :=
  imap (λ j l, if bool_decide (j = h) then f l else age l) ls.

(** The common shape of the hit scan and of the scan for an invalid line:
    walk the lines in index order, age each line that fails the test [Q],
    rewrite by [f] the first line that passes it and stop there. *)
Fixpoint scan (Q : line_t → Prop) `{∀ l, Decision (Q l)} (f : line_t → line_t)
    (n i : nat) (ls : list line_t) : option (list line_t * option nat) :=
  match n with
  | O => Some (ls, None)
  | S n' =>
      l ← ls !! i;
      if decide (Q l) then Some (<[i := f l]> ls, Some i)
      else scan Q f n' (S i) (<[i := incr_LRU_counter l]> ls)
  end.

(** A line is hit by [tg] when it is valid and holds [tg]. *)
Definition is_hit (tg : Z) (l : line_t) : Prop := tag l = tg ∧ valid l = 1.
Definition is_invalid (l : line_t) : Prop := valid l = 0.

(** ** The three paths of [cache_sim] in closed form *)

(** What the hit branch of the first loop does to the globals. *)
Definition hit_effect (verbose : bool) (g : globals) : globals :=
  incr_hit (if verbose then printf g "hit\n" else g).

(** What the fill branch of the second loop prints. *)
Definition fill_effect (verbose : bool) (g : globals) : globals :=
  if verbose then printf g "\n" else g.

(** A line aged by two loops, and by three. *)
Definition age2 (l : line_t) : line_t := incr_LRU_counter (incr_LRU_counter l).
Definition age3 (l : line_t) : line_t := incr_LRU_counter (age2 l).

(** The hit line after the access. *)
Definition hit_line (a : ascii) (l : line_t) : line_t :=
  mk_line (valid l)
          (if is_char a "S" && (dirty_bit l =? 0) then 1 else dirty_bit l)
          (tag l) 0.

(** The globals after a hit on line [l]. *)
Definition hit_globals (a : ascii) (b : Z) (verbose : bool) (l : line_t)
    (g : globals) : globals :=
  let g := hit_effect verbose g in
  if is_char a "S" && (dirty_bit l =? 0)
  then add_dirty_bytes g (wrap_ulong (shl1_int b)) else g.

(** The filled line after the access. *)
Definition fill_line (a : ascii) (tg : Z) (l : line_t) : line_t :=
  mk_line 1 (if is_char a "S" then 1 else dirty_bit l) tg 0.

(** [printf("miss"); miss++] *)
Definition miss_effect (verbose : bool) (g : globals) : globals :=
  incr_miss (if verbose then printf g "miss" else g).

(** The globals after a miss that fills an invalid line. *)
Definition fill_globals (a : ascii) (b : Z) (verbose : bool) (g : globals)
  : globals :=
  let g := fill_effect verbose (miss_effect verbose g) in
  if is_char a "S" then add_dirty_bytes g (wrap_ulong (shl1_int b)) else g.

(** The dirty bit of the line that replaces a victim of dirty bit [d]. *)
Definition evict_dirty (a : ascii) (d : Z) : Z :=
  if (d =? 0) && is_char a "S" then 1
  else if d =? 1 then
    if is_char a "S" then 1 else if is_char a "L" then 0 else d
  else d.

(** The line that replaces the victim [l]. *)
Definition evict_line (a : ascii) (tg : Z) (l : line_t) : line_t :=
  mk_line (valid l) (evict_dirty a (dirty_bit l)) tg 0.

(** [printf(" eviction\n"); eviction++] *)
Definition eviction_effect (verbose : bool) (g : globals) : globals :=
  incr_eviction (if verbose then printf g " eviction\n" else g).

(** The globals after the eviction of line [l]. *)
Definition evict_globals (a : ascii) (b : Z) (verbose : bool) (l : line_t)
    (g : globals) : globals :=
  let B := wrap_ulong (shl1_int b) in
  let g := eviction_effect verbose (miss_effect verbose g) in
  if (dirty_bit l =? 0) && is_char a "S" then add_dirty_bytes g B
  else if dirty_bit l =? 1 then
    if is_char a "L" then add_dirty_evictions (add_dirty_bytes g (- B)) B
    else if is_char a "S" then add_dirty_evictions g B else g
  else g.

(** The result of [cache_sim] on a set of [E] lines, by cases on the path
    taken.  The victim is chosen on the lines as the two scans left them,
    each aged twice. *)
Inductive cache_sim_spec (a : ascii) (ls : list line_t) (tg E b : Z)
    (verbose : bool) (g : globals) : option (set_t * globals) → Prop :=
| sim_hit h l :
    list_find (is_hit tg) ls = Some (h, l) →
    cache_sim_spec a ls tg E b verbose g
      (Some (mk_set (touch h (hit_line a) incr_LRU_counter ls),
             hit_globals a b verbose l g))
| sim_fill f l :
    list_find (is_hit tg) ls = None →
    list_find is_invalid ls = Some (f, l) →
    cache_sim_spec a ls tg E b verbose g
      (Some (mk_set (touch f (fill_line a tg) age2 ls),
             fill_globals a b verbose g))
| sim_evict v l :
    list_find (is_hit tg) ls = None →
    list_find is_invalid ls = None →
    select_victim E (age2 <$> ls) = Some v →
    ls !! v = Some l →
    cache_sim_spec a ls tg E b verbose g
      (Some (mk_set (touch v (evict_line a tg) age3 ls),
             evict_globals a b verbose l g)).

(** ** Runs *)

(** The records [main] passes to [cache_sim]. *)
Definition is_LS (r : access) : Prop :=
  access_type r = "L"%char ∨ access_type r = "S"%char.

(** One iteration of the loop on a Load or a Store. *)
Definition access_step (s E b : Z) (verbose : bool) (r : access)
    (cache : cache_t) (g : globals) : option (cache_t * globals) :=
  let set_index := set_index_of s b (address r) in
  let g :=
    if verbose then put g (PrintfAccess (access_type r) (address r) (size r))
    else g in
  set_access ← sets cache !! Z.to_nat set_index;
  '(set_access, g) ←
    cache_sim (access_type r) set_access (tag_of s b (address r)) E b verbose g;
  Some (set_sets cache (<[Z.to_nat set_index := set_access]> (sets cache)), g).

(** A cache of [2 ^ s] sets of [E] lines. *)
Definition wf_cache (s E : Z) (c : cache_t) : Prop :=
  length (sets c) = Z.to_nat (2 ^ s) ∧
  ∀ i st, sets c !! i = Some st → length (lines st) = Z.to_nat E.

(** What the cache built by a successful [cache_init] is. *)
Definition fresh_cache (s E b : Z) : cache_t :=
  mk_cache s E b
    (replicate (Z.to_nat (2 ^ s)) (mk_set (replicate (Z.to_nat E) line_init))).

(** ** Invariants of a run *)

(** The hit/miss partition as an invariant of the accesses: as long as
    fewer than [2 ^ 64] accesses were processed no counter has wrapped. *)
Definition partition_inv (n : nat) (c : cache_t) (g : globals) : Prop :=
  Z.of_nat n < 2 ^ 64 →
  0 ≤ hit g ∧ 0 ≤ eviction g ≤ miss g ∧ hit g + miss g = Z.of_nat n.

(** ** Concrete runs *)

(** The scenario of the specification. *)
Definition scenario_trace : list access := [L 0; L 1; L 2; L 0].

(** A run that reaches an eviction with three distinct counters. *)
Definition lru_trace : list access := [L 0; L 1; L 2; L 3].
Definition lru_set : list line_t :=
  [mk_line 1 0 3 0; mk_line 1 0 1 5; mk_line 1 0 2 3].

(** ** Standard output *)

(** An output without the summary of the statistics. *)
Definition no_summary (out : list output) : Prop :=
  ∀ stats, PrintSummary stats ∉ out.

(** No summary is printed during the trace loop. *)
Definition stdout_inv (n : nat) (c : cache_t) (g : globals) : Prop :=
  no_summary (stdout g).

(** ** Outcome of an access *)

(** The three results of an access, decided on the set before it. *)
Inductive outcome := Hit | MissNoEvict | MissEvict.

Definition outcome_of (tg : Z) (ls : list line_t) : outcome :=
  match list_find (is_hit tg) ls with
  | Some _ => Hit
  | None =>
      match list_find is_invalid ls with
      | Some _ => MissNoEvict
      | None => MissEvict
      end
  end.

(** By how much an access ages the lines it does not touch: once per loop
    that walks over them. *)
Definition aging (o : outcome) : Z :=
  match o with Hit => 1 | MissNoEvict => 2 | MissEvict => 3 end.

(** ** Lines of the cache and their bits *)

(** Line [j] of set [i]. *)
Definition line_at (c : cache_t) (i j : nat) : option line_t :=
  st ← sets c !! i; lines st !! j.

(** Every valid bit is 0 or 1. *)
Definition valid_bits_inv (n : nat) (c : cache_t) (g : globals) : Prop :=
  ∀ i j l, line_at c i j = Some l → valid l = 0 ∨ valid l = 1.

(** A line that is valid in [c0] is valid now. *)
Definition valid_kept_inv (c0 : cache_t) (n : nat) (c : cache_t)
    (g : globals) : Prop :=
  ∀ i j l0, line_at c0 i j = Some l0 →
    ∃ l, line_at c i j = Some l ∧ (valid l0 = 1 → valid l = 1).

(** ** Dirty bytes recomputed from the lines *)

Definition sumZ (xs : list Z) : Z := foldr Z.add 0 xs.

(** The bytes a line contributes: its block when it is valid and dirty. *)
Definition line_dirty_bytes (b : Z) (l : line_t) : Z :=
  if (valid l =? 1) && (dirty_bit l =? 1) then 2 ^ b else 0.

Definition set_dirty_bytes (b : Z) (ls : list line_t) : Z :=
  sumZ (line_dirty_bytes b <$> ls).

(** The dirty bytes resident in the cache, recomputed from its lines. *)
Definition cache_dirty_bytes (b : Z) (c : cache_t) : Z :=
  sumZ ((λ st, set_dirty_bytes b (lines st)) <$> sets c).

(** The two bits of a line: each is 0 or 1, and a dirty line is valid. *)
Definition line_bits_ok (l : line_t) : Prop :=
  (valid l = 0 ∨ valid l = 1) ∧
  (dirty_bit l = 0 ∨ (dirty_bit l = 1 ∧ valid l = 1)).

(** The invariant of the conservation: the bits of every line are in
    order and [dirty_bytes] is the sum recomputed from the lines. *)
Definition dirty_inv (b : Z) (n : nat) (c : cache_t) (g : globals) : Prop :=
  (∀ i j l, line_at c i j = Some l → line_bits_ok l) ∧
  dirty_bytes g = cache_dirty_bytes b c.

(** After [n] accesses no counter exceeds [3 * n]. *)
Definition LRU_bound_inv (n : nat) (c : cache_t) (g : globals) : Prop :=
  3 * Z.of_nat n < 2 ^ 64 →
  ∀ i j l, line_at c i j = Some l → 0 ≤ LRU_counter l ≤ 3 * Z.of_nat n.

(** ** Address decoding *)


(** ** Records that the simulator does not tell apart *)


(** ** Invariants of the sets *)

(** No two valid lines of the set hold the same tag. *)
Definition tags_unique (ls : list line_t) : Prop :=
  ∀ j1 j2 l1 l2,
    ls !! j1 = Some l1 → ls !! j2 = Some l2 →
    valid l1 = 1 → valid l2 = 1 → tag l1 = tag l2 → j1 = j2.

(** The invalid lines are the last lines of the set. *)
Definition valid_prefix (ls : list line_t) : Prop :=
  ∀ j1 j2 l1 l2,
    ls !! j1 = Some l1 → ls !! j2 = Some l2 →
    (j1 < j2)%nat → valid l1 = 0 → valid l2 = 0.

(** No two valid lines of the set have the same recency counter, and no
    counter exceeds [m]. *)
Definition counters_distinct (m : Z) (ls : list line_t) : Prop :=
  (∀ j l, ls !! j = Some l → 0 ≤ LRU_counter l ≤ m) ∧
  ∀ j1 j2 l1 l2,
    ls !! j1 = Some l1 → ls !! j2 = Some l2 →
    valid l1 = 1 → valid l2 = 1 → LRU_counter l1 = LRU_counter l2 → j1 = j2.

(** ** Sums over the lines of the cache *)

(** The sum of [w] over the lines of a set, and over all lines. *)
Definition set_weight (w : line_t → Z) (ls : list line_t) : Z :=
  sumZ (w <$> ls).
Definition cache_weight (w : line_t → Z) (c : cache_t) : Z :=
  sumZ ((λ st, set_weight w (lines st)) <$> sets c).

(** The number of valid lines of the cache. *)
Definition valid_lines (c : cache_t) : Z :=
  cache_weight (λ l, if valid l =? 1 then 1 else 0) c.

(** The misses that did not evict are the valid lines. *)
Definition valid_lines_inv (n : nat) (c : cache_t) (g : globals) : Prop :=
  Z.of_nat n < 2 ^ 64 →
  0 ≤ eviction g ≤ miss g ∧ miss g ≤ Z.of_nat n ∧
  miss g - eviction g = valid_lines c.

(** ** Loads never dirty the cache *)

Definition is_load (r : access) : Prop := access_type r = "L"%char.

Definition load_only_inv (done : list access) (c : cache_t) (g : globals)
  : Prop :=
  (∀ i st j l, sets c !! i = Some st → lines st !! j = Some l →
               dirty_bit l = 0) ∧
  dirty_bytes g = 0 ∧ dirty_evictions g = 0.

(** ** The verbose flag *)

(** The five counters of the globals. *)
Definition counters (g : globals) : Z * Z * Z * Z * Z :=
  (hit g, miss g, eviction g, dirty_bytes g, dirty_evictions g).

(** What a run leaves behind, its output apart: the cache if the loop
    reached the end of the trace, and the counters. *)
Definition result_state (r : loop_result)
  : option cache_t * (Z * Z * Z * Z * Z) :=
  match r with
  | EndOfTrace c g => (Some c, counters g)
  | TraceError g => (None, counters g)
  end.

(** ** Dirty bytes and the Stores of the trace *)

(** The number of Stores among the records. *)
Definition stores (t : list access) : Z :=
  Z.of_nat (length (filter (λ r, access_type r = "S"%char) t)).

(** The conservation of the dirty bytes, with the bound on the bytes
    written back: every block counted in [dirty_bytes] or in
    [dirty_evictions] was made dirty by a Store of its own. *)
Definition traffic_inv (b : Z) (done : list access) (c : cache_t)
    (g : globals) : Prop :=
  dirty_inv b 0 c g ∧
  (2 ^ b * stores done < 2 ^ 64 →
   0 ≤ dirty_evictions g ∧
   dirty_bytes g + dirty_evictions g ≤ 2 ^ b * stores done).

(** ** The exit status of [main] *)

(** The inputs on which the run reaches the end of the trace. *)
Definition runs_to_the_end (fopen : string → option (list access))
    (s E b : Z) (tracefile : option string) : Prop :=
  0 ≤ s ∧ 0 < E ∧ 0 ≤ b ∧
  ∃ name trace,
    tracefile = Some name ∧ fopen name = Some trace ∧ Forall is_LS trace.

(** ** The log of a verbose run *)

(** What [cache_sim] prints with [verbose] for each outcome. *)
Definition log_of (o : outcome) : list output :=
  match o with
  | Hit => [Printf "hit\n"]
  | MissNoEvict => [Printf "miss"; Printf "\n"]
  | MissEvict => [Printf "miss"; Printf " eviction\n"]
  end.

(** What a verbose run prints for a record: the record, then the outcome. *)
Definition log_line (r : access) (o : outcome) : list output :=
  PrintfAccess (access_type r) (address r) (size r) :: log_of o.

(** The number of outcomes that satisfy [P]. *)
Definition count_if (P : outcome → bool) (os : list outcome) : Z :=
  sumZ ((λ o, if P o then 1 else 0) <$> os).

Definition is_Hit (o : outcome) : bool :=
  match o with Hit => true | _ => false end.
Definition is_Miss (o : outcome) : bool := negb (is_Hit o).
Definition is_MissEvict (o : outcome) : bool :=
  match o with MissEvict => true | _ => false end.

(** The log and the counters after the records [done]. *)
Definition log_inv (done : list access) (c : cache_t) (g : globals) : Prop :=
  ∃ os,
    length os = length done ∧
    stdout g = concat (zip_with log_line done os) ∧
    (Z.of_nat (length done) < 2 ^ 64 →
     hit g = count_if is_Hit os ∧ miss g = count_if is_Miss os ∧
     eviction g = count_if is_MissEvict os).

(** ** What a transpose is to compute *)

(** [X] has [R] rows of [C] elements. *)
Definition shape (R C : nat) (X : list (list double)) : Prop :=
  length X = R ∧ ∀ i row, X !! i = Some row → length row = C.

(** [B] holds the transpose of [A] at the positions [P] of [A]. *)
Definition copied (P : nat → nat → Prop) (M N : nat)
    (A B : list (list double)) : Prop :=
  shape M N B ∧
  ∀ i j, (i < N)%nat → (j < M)%nat → P i j → at2 B j i = at2 A i j.

(** [B], of [M] rows and [N] columns, is the transpose of [A]. *)
Definition transposed (M N : nat) (A B : list (list double)) : Prop :=
  copied (λ _ _, True) M N A B.

(** No element of [A] is a NaN. *)
Definition no_nan (A : list (list double)) : Prop :=
  ∀ i j x, at2 A i j = Some x → PrimFloat.is_nan x = false.

(** What the three assertions of a transpose ask for, where they are
    compiled in. *)
Definition asserts_pass (NDEBUG : bool) (M N : nat)
    (A : list (list double)) : Prop :=
  NDEBUG = false → (0 < M)%nat ∧ (0 < N)%nat ∧ no_nan A.

(** A result that is not a failed assertion and not the end of the fuel. *)
Definition Ok_or_OutOfBounds {T} (r : result T) : Prop :=
  match r with
  | Ok _ | Stop OutOfBounds => True
  | Stop _ => False
  end.

(** ** [is_transpose] *)

(** [A[i][j]] and [B[j][i]] exist and [A[i][j] != B[j][i]] does not hold. *)
Definition agree (A B : list (list double)) (i j : nat) : Prop :=
  ∃ a b, at2 A i j = Some a ∧ at2 B j i = Some b ∧ double_ne a b = false.

(** What a verdict says of [A] and [B]: all elements agree, or the
    mismatch is the first one in the order of the loops. *)
Definition verdict_spec (M N : nat) (A B : list (list double))
    (v : verdict) : Prop :=
  match v with
  | Transposed => ∀ i j, (i < N)%nat → (j < M)%nat → agree A B i j
  | Mismatch j i b a =>
      (i < N)%nat ∧ (j < M)%nat ∧
      at2 A i j = Some a ∧ at2 B j i = Some b ∧ double_ne a b = true ∧
      ∀ i' j', (j' < M)%nat → (i' < i ∨ i' = i ∧ j' < j)%nat →
               agree A B i' j'
  end.

(** ** The loops of the transposes *)

(** A loop body that copies the element [A[i][j]] to [B[j][i]] and keeps
    the property [T] of [tmp]. *)
Definition cell_spec (M N : nat) (A : list (list double))
    (T : list double → Prop)
    (cell : nat → nat → list (list double) * list double →
            result (list (list double) * list double)) : Prop :=
  ∀ P i j B tmp,
    (i < N)%nat → (j < M)%nat → copied P M N A B → T tmp →
    ∃ B' tmp',
      cell i j (B, tmp) = Ok (B', tmp') ∧
      copied (λ i' j', P i' j' ∨ i' = i ∧ j' = j) M N A B' ∧ T tmp'.

(** A loop body that copies the columns from [j0] to [j1] of row [i]. *)
Definition row_spec (M N : nat) (A : list (list double))
    (T : list double → Prop) (j0 j1 : nat)
    (row : nat → list (list double) * list double →
           result (list (list double) * list double)) : Prop :=
  ∀ P i B tmp,
    (i < N)%nat → copied P M N A B → T tmp →
    ∃ B' tmp',
      row i (B, tmp) = Ok (B', tmp') ∧
      copied (λ i' j', P i' j' ∨ i' = i ∧ (j0 ≤ j' < j1)%nat) M N A B' ∧
      T tmp'.

(** A loop body that copies the block of 8 rows from [i] and 8 columns
    from [j]. *)
Definition block_spec (M N : nat) (A : list (list double))
    (T : list double → Prop)
    (blk : nat → nat → list (list double) * list double →
           result (list (list double) * list double)) : Prop :=
  ∀ P i j B tmp,
    (i + 8 ≤ N)%nat → (j + 8 ≤ M)%nat → copied P M N A B → T tmp →
    ∃ B' tmp',
      blk i j (B, tmp) = Ok (B', tmp') ∧
      copied (λ i' j', P i' j' ∨ (i ≤ i' < i + 8)%nat ∧ (j ≤ j' < j + 8)%nat)
        M N A B' ∧
      T tmp'.

(** What every transpose does around its loops: the two assertions on the
    sizes before them and the assertion of [is_transpose] after them. *)
Definition checked (NDEBUG : bool) (M N : nat) (A : list (list double))
    (loops : result (list (list double) * list double))
  : result (list (list double) * list double) :=
  _ ← c_assert NDEBUG (Ok (0 <? M)%nat);
  _ ← c_assert NDEBUG (Ok (0 <? N)%nat);
  '(B, tmp) ← loops;
  _ ← c_assert NDEBUG (holds <$> is_transpose M N A B);
  Ok (B, tmp).

(** [A] has a NaN. *)
Definition has_nan (A : list (list double)) : Prop :=
  ∃ i j x, at2 A i j = Some x ∧ PrimFloat.is_nan x = true.

(** ** The transposes *)

(** Matrices to run the transposes on. *)
Definition A_1x2 : list (list double) := [[PrimFloat.one; PrimFloat.two]].
Definition B_2x1 : list (list double) := [[PrimFloat.zero]; [PrimFloat.zero]].
Definition A_8x8 : list (list double) :=
  replicate 8 [PrimFloat.zero; PrimFloat.one; PrimFloat.two;
               PrimFloat.infinity; PrimFloat.neg_zero; PrimFloat.one;
               PrimFloat.two; PrimFloat.neg_infinity].
Definition B_8x8 : list (list double) :=
  replicate 8 (replicate 8 PrimFloat.zero).
Definition A_nan : list (list double) := [[PrimFloat.one; PrimFloat.nan]].

(** * Properties *)

(** ** Arithmetic of the block size *)

Lemma wrap_ulong_small x : 0 ≤ x < 2 ^ 64 → wrap_ulong x = x.
Proof. intros. unfold wrap_ulong. by apply Z.mod_small. Qed.

Lemma pow2_le_30 n : 0 ≤ n ≤ 30 → 1 ≤ 2 ^ n ≤ 2 ^ 30.
Proof.
  intros Hn. split.
  - pose proof (Z.pow_pos_nonneg 2 n). lia.
  - apply Z.pow_le_mono_r; lia.
Qed.

Lemma shl1_int_pow n : 0 ≤ n ≤ 30 → shl1_int n = 2 ^ n.
Proof.
  intros Hn. unfold shl1_int, wrap_int.
  rewrite Z.shiftl_1_l. pose proof (pow2_le_30 n Hn).
  rewrite Z.mod_small; lia.
Qed.

(** For a legal number of block bits, [B] is [2 ^ b]. *)
Lemma block_size_pow n : 0 ≤ n ≤ 30 → wrap_ulong (shl1_int n) = 2 ^ n.
Proof.
  intros Hn. rewrite shl1_int_pow by done.
  pose proof (pow2_le_30 n Hn). apply wrap_ulong_small. lia.
Qed.

(** ** The loops as list transformers *)

Lemma length_age_range lo hi ls : length (age_range lo hi ls) = length ls.
Proof. apply length_imap. Qed.

Lemma length_touch h f age ls : length (touch h f age ls) = length ls.
Proof. apply length_imap. Qed.

Lemma lookup_age_range lo hi ls j :
  age_range lo hi ls !! j =
  (λ l, if bool_decide (lo ≤ j < hi)%nat then incr_LRU_counter l else l) <$> ls !! j.
Proof. apply list_lookup_imap. Qed.

Lemma lookup_touch h f age ls j :
  touch h f age ls !! j =
  (λ l, if bool_decide (j = h) then f l else age l) <$> ls !! j.
Proof. apply list_lookup_imap. Qed.

(** Pointwise comparison of two lists built from [age_range], [touch] and
    single-cell writes. *)
Ltac list_pointwise :=
  apply list_eq; intros ?j;
  repeat first
    [ rewrite lookup_age_range | rewrite lookup_touch
    | rewrite list_lookup_insert | rewrite list_lookup_alter
    | rewrite length_age_range | rewrite length_touch
    | rewrite length_insert | rewrite length_fmap
    | rewrite list_lookup_fmap ];
  repeat (case_decide || case_bool_decide);
  destruct_and?; simplify_eq/=; try lia;
  repeat match goal with
  | H : ?l !! ?i = _ |- context [?l !! ?i] => rewrite H; simpl
  | |- context [?l !! ?i] => destruct (l !! i) eqn:?; simpl
  end;
  simplify_eq/=;
  repeat match goal with
  | H : ?c = true |- context [?c] => rewrite H
  | H : ?c = false |- context [?c] => rewrite H
  end;
  try done;
  repeat match goal with
  | H : _ !! _ = Some _ |- _ => apply lookup_lt_Some in H
  | H : _ !! _ = None |- _ => apply lookup_ge_None_1 in H
  end;
  try lia.

Lemma age_range_empty lo hi ls : (hi ≤ lo)%nat → age_range lo hi ls = ls.
Proof. intros. list_pointwise. Qed.

Lemma add_LRU_loop_spec n i ls :
  (i + n ≤ length ls)%nat →
  add_LRU_loop n i ls = Some (age_range i (i + n) ls).
Proof.
  revert i ls. induction n as [|n IH]; intros i ls Hlen; simpl.
  - rewrite age_range_empty by lia. done.
  - destruct (lookup_lt_is_Some_2 ls i) as [l Hl]; [lia|].
    rewrite Hl. simpl. rewrite IH by (rewrite length_insert; lia).
    f_equal. list_pointwise.
Qed.

Lemma add_LRU_counter_spec ls lo hi :
  (lo ≤ hi ≤ length ls)%nat →
  add_LRU_counter (mk_set ls) lo hi = Some (mk_set (age_range lo hi ls)).
Proof.
  intros. unfold add_LRU_counter. simpl.
  rewrite add_LRU_loop_spec by lia. simpl. do 3 f_equal. lia.
Qed.

(** *** The two scans

    The hit scan and the scan for an invalid line have one shape: walk the
    lines in index order, age each line that fails the test, rewrite the
    first line that passes it and stop there. *)

Lemma hit_test_decide tg l :
  (tag l =? tg) && (valid l =? 1) = bool_decide (is_hit tg l).
Proof.
  unfold is_hit. destruct (Z.eqb_spec (tag l) tg), (Z.eqb_spec (valid l) 1);
    simpl; symmetry; (apply bool_decide_eq_true_2 || apply bool_decide_eq_false_2);
    tauto.
Qed.

Lemma invalid_test_decide l : (valid l =? 0) = bool_decide (is_invalid l).
Proof.
  unfold is_invalid. destruct (Z.eqb_spec (valid l) 0); simpl; symmetry;
    (by apply bool_decide_eq_true_2) || (by apply bool_decide_eq_false_2).
Qed.

Lemma hit_scan_scan n i tg verbose ls g :
  hit_scan n i tg verbose ls g =
  '(ls', r) ← scan (is_hit tg) (λ l, set_LRU_counter l 0) n i ls;
  Some (match r with
        | Some h => (ls', hit_effect verbose g, 1, h)
        | None => (ls', g, 0, 0%nat)
        end).
Proof.
  revert i ls. induction n as [|n IH]; intros i ls; [done|].
  cbn -[decide]. destruct (ls !! i) as [l|]; cbn -[decide]; [|done].
  rewrite hit_test_decide. case_bool_decide.
  - by rewrite decide_True.
  - rewrite decide_False by done. apply IH.
Qed.

Lemma fill_scan_scan n i tg verbose ls g :
  fill_scan n i tg verbose ls g =
  '(ls', r) ← scan is_invalid (λ l, mk_line 1 (dirty_bit l) tg 0) n i ls;
  Some (match r with
        | Some h => (ls', fill_effect verbose g, 1, h)
        | None => (ls', g, 0, 0%nat)
        end).
Proof.
  revert i ls. induction n as [|n IH]; intros i ls; [done|].
  cbn -[decide]. destruct (ls !! i) as [l|]; cbn -[decide]; [|done].
  rewrite invalid_test_decide. case_bool_decide.
  - by rewrite decide_True.
  - rewrite decide_False by done. apply IH.
Qed.

Section scan.
Context (Q : line_t → Prop) `{∀ l, Decision (Q l)} (f : line_t → line_t).

Lemma scan_none n i ls :
  (i + n ≤ length ls)%nat →
  (∀ j l, (i ≤ j < i + n)%nat → ls !! j = Some l → ¬ Q l) →
  scan Q f n i ls = Some (age_range i (i + n) ls, None).
Proof.
  revert i ls. induction n as [|n IH]; intros i ls Hlen HQ; cbn -[decide].
  - rewrite age_range_empty by lia. done.
  - destruct (lookup_lt_is_Some_2 ls i) as [l Hl]; [lia|].
    rewrite Hl. cbn -[decide]. rewrite decide_False by (eapply HQ; [|done]; lia).
    rewrite IH.
    + do 2 f_equal. list_pointwise.
    + rewrite length_insert. lia.
    + intros j l' Hj. rewrite list_lookup_insert_ne by lia.
      apply HQ. lia.
Qed.

Lemma scan_some n i ls h l :
  (i ≤ h < i + n)%nat → (i + n ≤ length ls)%nat →
  ls !! h = Some l → Q l →
  (∀ j l', (i ≤ j < h)%nat → ls !! j = Some l' → ¬ Q l') →
  scan Q f n i ls = Some (<[h := f l]> (age_range i h ls), Some h).
Proof.
  revert i ls. induction n as [|n IH]; intros i ls Hh Hlen Hl HQl HQ; [lia|].
  cbn -[decide]. destruct (decide (i = h)) as [->|Hne].
  - rewrite Hl. cbn -[decide]. rewrite decide_True by done.
    rewrite age_range_empty by lia. done.
  - destruct (lookup_lt_is_Some_2 ls i) as [l' Hl']; [lia|].
    rewrite Hl'. cbn -[decide]. rewrite decide_False by (eapply HQ; [|done]; lia).
    rewrite (IH (S i) _); try done.
    + do 2 f_equal. list_pointwise.
    + lia.
    + rewrite length_insert. lia.
    + rewrite list_lookup_insert_ne by lia. done.
    + intros j l'' Hj. rewrite list_lookup_insert_ne by lia.
      apply HQ. lia.
Qed.

(** The scan of a whole set, in terms of the first line that passes the
    test. *)
Lemma scan_found ls h l :
  list_find Q ls = Some (h, l) →
  scan Q f (length ls) 0 ls = Some (<[h := f l]> (age_range 0 h ls), Some h).
Proof.
  intros (Hl & HQl & Hbefore)%list_find_Some.
  pose proof (lookup_lt_Some _ _ _ Hl).
  apply scan_some; try done; [lia|].
  intros j l' Hj Hl'. eapply Hbefore; [done|lia].
Qed.

Lemma scan_not_found ls :
  list_find Q ls = None →
  scan Q f (length ls) 0 ls = Some (age_range 0 (length ls) ls, None).
Proof.
  intros HQ%list_find_None. apply scan_none; [done|].
  intros j l _ Hl. by eapply Forall_lookup_1 in HQ.
Qed.
End scan.

(** *** The victim is a line of the set *)

Lemma evict_scan_lt n i max_counter e ls :
  (i + n ≤ length ls)%nat → (e < i + n)%nat →
  ∃ v, evict_scan n i max_counter e ls = Some v ∧ (v < i + n)%nat.
Proof.
  revert i e. induction n as [|n IH]; intros i e Hlen He; simpl.
  - exists e. split; [done|lia].
  - destruct (lookup_lt_is_Some_2 ls i) as [l Hl]; [lia|].
    rewrite Hl. simpl.
    destruct (IH (S i) (if LRU_counter l >? max_counter then i else e))
      as (v & Hv & Hlt); [lia|case_match; lia|].
    exists v. split; [done|lia].
Qed.

(** [select_victim] always designates a line of a set that has one. *)
Lemma select_victim_lt E ls :
  length ls = Z.to_nat E → (0 < length ls)%nat →
  ∃ v, select_victim E ls = Some v ∧ (v < length ls)%nat.
Proof.
  intros HE Hpos. unfold select_victim.
  destruct (lookup_lt_is_Some_2 ls 0) as [l0 Hl0]; [done|].
  rewrite Hl0. simpl.
  destruct (evict_scan_lt (Z.to_nat E - 1) 1 (LRU_counter l0) 0 ls)
    as (v & Hv & Hlt); [lia..|].
  exists v. split; [done|lia].
Qed.

(** ** The three paths of [cache_sim] in closed form *)

Lemma is_char_L_S a : is_char a "L" = true → is_char a "S" = false.
Proof.
  unfold is_char. intros ->%bool_decide_eq_true. by apply bool_decide_eq_false_2.
Qed.

Lemma age_range_all n ls :
  n = length ls → age_range 0 n ls = incr_LRU_counter <$> ls.
Proof.
  intros ->. apply list_eq. intros j.
  rewrite lookup_age_range, list_lookup_fmap.
  destruct (ls !! j) eqn:Hj; [|done]. simpl.
  apply lookup_lt_Some in Hj. rewrite bool_decide_eq_true_2; [done|lia].
Qed.

Section cache_sim_paths.
Context (a : ascii) (ls : list line_t) (tg E b : Z) (verbose : bool)
        (g : globals).
Hypothesis HE : length ls = Z.to_nat E.

Lemma cache_sim_hit h l :
  list_find (is_hit tg) ls = Some (h, l) →
  cache_sim a (mk_set ls) tg E b verbose g =
  Some (mk_set (touch h (hit_line a) incr_LRU_counter ls),
        hit_globals a b verbose l g).
Proof.
  intros Hfind. pose proof Hfind as (Hl & _ & _)%list_find_Some.
  pose proof (lookup_lt_Some _ _ _ Hl) as Hh.
  unfold cache_sim. rewrite hit_scan_scan. simpl lines. rewrite <- HE.
  rewrite (scan_found _ _ _ _ _ Hfind). cbn -[decide].
  rewrite add_LRU_counter_spec
    by (rewrite length_insert, length_age_range; lia).
  cbn -[decide].
  rewrite lookup_age_range, list_lookup_insert_eq
    by (rewrite length_age_range; lia).
  cbn -[decide]. rewrite bool_decide_eq_false_2 by lia.
  unfold hit_globals, hit_line. cbn -[decide].
  destruct (is_char a "S" && (dirty_bit l =? 0)) eqn:Hstore; cbn -[decide];
    do 3 f_equal; list_pointwise.
Qed.

Lemma cache_sim_fill f l :
  list_find (is_hit tg) ls = None →
  list_find is_invalid ls = Some (f, l) →
  cache_sim a (mk_set ls) tg E b verbose g =
  Some (mk_set (touch f (fill_line a tg) age2 ls),
        fill_globals a b verbose g).
Proof.
  intros Hmiss Hfind. pose proof Hfind as (Hl & _ & _)%list_find_Some.
  pose proof (lookup_lt_Some _ _ _ Hl) as Hf.
  unfold cache_sim. rewrite hit_scan_scan. simpl lines. rewrite <- HE.
  rewrite (scan_not_found _ _ _ Hmiss). cbn -[decide].
  rewrite age_range_all by done.
  rewrite fill_scan_scan.
  replace (length ls) with (length (incr_LRU_counter <$> ls))
    by apply length_fmap.
  rewrite (scan_found _ _ _ f (incr_LRU_counter l)); cycle 1.
  { rewrite list_find_fmap, (list_find_ext _ is_invalid) by done.
    by rewrite Hfind. }
  rewrite length_fmap. cbn -[decide].
  rewrite add_LRU_counter_spec
    by (rewrite length_insert, length_age_range, length_fmap; lia).
  cbn -[decide]. unfold fill_globals, fill_line, fill_effect, miss_effect.
  destruct (is_char a "S"); cbn -[decide].
  - rewrite lookup_age_range, list_lookup_insert_eq
      by (rewrite length_age_range, length_fmap; lia).
    cbn -[decide]. do 3 f_equal. list_pointwise.
  - do 3 f_equal. list_pointwise.
Qed.

Lemma cache_sim_evict v :
  list_find (is_hit tg) ls = None →
  list_find is_invalid ls = None →
  select_victim E (age2 <$> ls) = Some v → (v < length ls)%nat →
  ∃ l, ls !! v = Some l ∧
    cache_sim a (mk_set ls) tg E b verbose g =
    Some (mk_set (touch v (evict_line a tg) age3 ls),
          evict_globals a b verbose l g).
Proof.
  intros Hmiss Hfull Hv Hlt.
  destruct (lookup_lt_is_Some_2 ls v) as [l Hl]; [done|].
  exists l. split; [done|].
  unfold cache_sim. rewrite hit_scan_scan. simpl lines. rewrite <- HE.
  rewrite (scan_not_found _ _ _ Hmiss). cbn -[decide].
  rewrite age_range_all by done.
  rewrite fill_scan_scan.
  replace (length ls) with (length (incr_LRU_counter <$> ls)) at 1
    by apply length_fmap.
  rewrite scan_not_found; cycle 1.
  { rewrite list_find_fmap, (list_find_ext _ is_invalid) by done.
    by rewrite Hfull. }
  rewrite length_fmap. cbn -[decide].
  rewrite age_range_all by (by rewrite length_fmap).
  rewrite <- list_fmap_compose.
  change (incr_LRU_counter ∘ incr_LRU_counter) with age2.
  rewrite Hv. cbn -[decide].
  rewrite list_lookup_fmap, Hl. cbn -[decide].
  rewrite list_lookup_insert_eq by (rewrite length_fmap; lia).
  cbn -[decide].
  rewrite add_LRU_counter_spec
    by (rewrite !length_insert, length_fmap; lia).
  cbn -[decide].
  rewrite add_LRU_counter_spec
    by (rewrite length_age_range, !length_insert, length_fmap; lia).
  cbn -[decide].
  rewrite !lookup_age_range, list_lookup_insert_eq
    by (rewrite length_insert, length_fmap; lia).
  cbn -[decide].
  rewrite !bool_decide_eq_false_2 by lia.
  unfold evict_globals, evict_line, evict_dirty,
    eviction_effect, miss_effect.
  cbn -[decide].
  destruct (dirty_bit l =? 0) eqn:Hd0; cbn -[decide].
  - destruct (is_char a "S") eqn:HS; cbn -[decide].
    + do 3 f_equal. list_pointwise.
    + assert ((dirty_bit l =? 1) = false) as Hd1 by lia.
      rewrite Hd1. cbn -[decide]. do 3 f_equal. list_pointwise.
  - destruct (dirty_bit l =? 1) eqn:Hd1; cbn -[decide].
    + destruct (is_char a "L") eqn:HL; cbn -[decide].
      * rewrite (is_char_L_S a HL). cbn -[decide].
        do 3 f_equal. list_pointwise.
      * destruct (is_char a "S") eqn:HS; cbn -[decide];
          do 3 f_equal; list_pointwise.
    + do 3 f_equal. list_pointwise.
Qed.
End cache_sim_paths.

Lemma cache_sim_cases a ls tg E b verbose g :
  length ls = Z.to_nat E → (0 < length ls)%nat →
  cache_sim_spec a ls tg E b verbose g
    (cache_sim a (mk_set ls) tg E b verbose g).
Proof.
  intros HE Hpos.
  destruct (list_find (is_hit tg) ls) as [[h l]|] eqn:Hhit.
  { rewrite (cache_sim_hit _ _ _ _ _ _ _ HE h l Hhit). by constructor. }
  destruct (list_find is_invalid ls) as [[f l]|] eqn:Hinv.
  { rewrite (cache_sim_fill _ _ _ _ _ _ _ HE f l Hhit Hinv). by econstructor. }
  destruct (select_victim_lt E (age2 <$> ls)) as (v & Hv & Hlt).
  { by rewrite length_fmap. }
  { by rewrite length_fmap. }
  rewrite length_fmap in Hlt.
  destruct (cache_sim_evict a _ _ _ b verbose g HE v Hhit Hinv Hv Hlt)
    as (l & Hl & ->).
  by econstructor.
Qed.

(** ** The trace loop, one access at a time *)

Lemma is_LS_test r :
  is_char (access_type r) "L" || is_char (access_type r) "S"
  = bool_decide (is_LS r).
Proof.
  unfold is_LS, is_char.
  destruct (decide (access_type r = "L"%char)) as [HL|HL],
           (decide (access_type r = "S"%char)) as [HS|HS];
    rewrite ?(bool_decide_eq_true_2 _ HL), ?(bool_decide_eq_false_2 _ HL),
      ?(bool_decide_eq_true_2 _ HS), ?(bool_decide_eq_false_2 _ HS);
    simpl; symmetry;
    (apply bool_decide_eq_true_2 || apply bool_decide_eq_false_2); tauto.
Qed.

Lemma trace_loop_cons_LS s E b verbose r trace cache g :
  is_LS r →
  trace_loop s E b verbose (r :: trace) cache g =
  '(cache', g') ← access_step s E b verbose r cache g;
  trace_loop s E b verbose trace cache' g'.
Proof.
  intros HLS. cbn -[cache_sim is_char]. rewrite is_LS_test.
  rewrite bool_decide_eq_true_2 by done. unfold access_step.
  destruct (sets cache !! _) as [st|]; cbn -[cache_sim]; [|done].
  destruct (cache_sim _ _ _ _ _ _ _) as [[st' g']|]; done.
Qed.

Lemma trace_loop_cons_bad s E b verbose r trace cache g :
  ¬ is_LS r →
  trace_loop s E b verbose (r :: trace) cache g =
  Some (TraceError
          (printf (if verbose
                   then put g (PrintfAccess (access_type r) (address r) (size r))
                   else g)
                  "Tracefile error\n")).
Proof.
  intros HLS. cbn -[cache_sim is_char]. rewrite is_LS_test.
  by rewrite bool_decide_eq_false_2.
Qed.

Lemma set_index_of_range s b addr :
  0 ≤ s ≤ 30 → 0 ≤ set_index_of s b addr < 2 ^ s.
Proof.
  intros Hs. unfold set_index_of. rewrite shl1_int_pow by done.
  pose proof (pow2_le_30 s Hs).
  rewrite wrap_ulong_small by lia.
  replace (2 ^ s - 1) with (Z.ones s) by (rewrite Z.ones_equiv; lia).
  rewrite Z.land_ones by lia. apply Z.mod_pos_bound. lia.
Qed.

Lemma cache_init_sets_Some malloc_ok n i E sets :
  cache_init_sets malloc_ok n i E = Some sets →
  sets = replicate n (mk_set (replicate (Z.to_nat E) line_init)).
Proof.
  revert i sets. induction n as [|n IH]; intros i sets; simpl.
  - by intros [= <-].
  - destruct (malloc_ok _); [|done].
    destruct (cache_init_sets _ _ _ _) as [sets'|] eqn:Hs; [|done].
    intros [= <-]. f_equal. by eapply IH.
Qed.

Lemma cache_init_inl malloc_ok s E b c :
  0 ≤ s ≤ 30 → cache_init malloc_ok s E b = inl c → c = fresh_cache s E b.
Proof.
  intros Hs. unfold cache_init.
  destruct (malloc_ok 0%nat); [|done]. destruct (malloc_ok 1%nat); [|done].
  simpl. destruct (cache_init_sets _ _ _ _) as [sets|] eqn:Hsets; [|done].
  intros [= <-]. apply cache_init_sets_Some in Hsets.
  rewrite shl1_int_pow in Hsets by done. by subst.
Qed.

(** When every allocation succeeds, [cache_init] returns the cache. *)
Lemma cache_init_ok malloc_ok s E b :
  0 ≤ s ≤ 30 → (∀ k, malloc_ok k = true) →
  cache_init malloc_ok s E b = inl (fresh_cache s E b).
Proof.
  intros Hs Hok. unfold cache_init. rewrite !Hok. simpl.
  assert (∀ n i, cache_init_sets malloc_ok n i E
                 = Some (replicate n (mk_set (replicate (Z.to_nat E) line_init))))
    as ->; [|by rewrite shl1_int_pow].
  induction n as [|n IH]; intros i; simpl; [done|].
  by rewrite Hok, IH.
Qed.

Lemma fresh_cache_wf s E b : wf_cache s E (fresh_cache s E b).
Proof.
  split; simpl.
  - by rewrite length_replicate.
  - intros i st [-> _]%lookup_replicate. simpl. by rewrite length_replicate.
Qed.

(** One access on a well-formed cache: the accessed set, what [cache_sim]
    does to it, and the set stored back. *)
Lemma access_step_cases s E b (verbose : bool) r c g :
  0 ≤ s ≤ 30 → 0 < E → wf_cache s E c →
  let idx := Z.to_nat (set_index_of s b (address r)) in
  let g0 :=
    if verbose then put g (PrintfAccess (access_type r) (address r) (size r))
    else g in
  ∃ ls set' g',
    sets c !! idx = Some (mk_set ls) ∧ length ls = Z.to_nat E ∧
    cache_sim_spec (access_type r) ls (tag_of s b (address r)) E b verbose g0
      (Some (set', g')) ∧
    access_step s E b verbose r c g
    = Some (set_sets c (<[idx := set']> (sets c)), g').
Proof.
  intros Hs HE [Hlen Hsets] idx g0.
  pose proof (set_index_of_range s b (address r) Hs) as Hidx.
  destruct (lookup_lt_is_Some_2 (sets c) idx) as [[ls] Hset].
  { rewrite Hlen. subst idx. lia. }
  pose proof (Hsets _ _ Hset) as Hls. simpl in Hls.
  pose proof (cache_sim_cases (access_type r) ls (tag_of s b (address r))
                E b verbose g0 Hls ltac:(lia)) as Hspec.
  destruct (cache_sim _ _ _ _ _ _ _) as [[set' g']|] eqn:Hsim;
    [|inversion Hspec].
  exists ls, set', g'. split_and!; try done.
  unfold access_step. fold idx g0. rewrite Hset. cbn -[cache_sim].
  by rewrite Hsim.
Qed.

Lemma cache_sim_spec_length a ls tg E b verbose g set' g' :
  cache_sim_spec a ls tg E b verbose g (Some (set', g')) →
  length (lines set') = length ls.
Proof. inversion 1; simpl; apply length_touch. Qed.

(** An invariant of the accesses is an invariant of the loop: [I n c g]
    speaks of the state reached after [n] accesses. *)
Lemma trace_loop_invariant (I : nat → cache_t → globals → Prop)
    s E b verbose :
  (∀ n r c g, is_LS r → wf_cache s E c → I n c g →
     ∃ c' g', access_step s E b verbose r c g = Some (c', g') ∧
              wf_cache s E c' ∧ I (S n) c' g') →
  ∀ trace n c g,
    Forall is_LS trace → wf_cache s E c → I n c g →
    ∃ c' g', trace_loop s E b verbose trace c g = Some (EndOfTrace c' g') ∧
             wf_cache s E c' ∧ I (n + length trace)%nat c' g'.
Proof.
  intros Hstep trace.
  induction trace as [|r trace IH]; intros n c g HLS Hwf HI.
  - exists c, g. simpl. rewrite Nat.add_0_r. done.
  - apply Forall_cons in HLS as [Hr HLS].
    destruct (Hstep n r c g Hr Hwf HI) as (c1 & g1 & Hs1 & Hwf1 & HI1).
    destruct (IH (S n) c1 g1 HLS Hwf1 HI1) as (c' & g' & Hrun & Hwf' & HI').
    exists c', g'. rewrite trace_loop_cons_LS, Hs1 by done.
    simpl. replace (n + S (length trace))%nat with (S n + length trace)%nat by lia.
    done.
Qed.

(** [access_step] keeps the shape of the cache. *)
Lemma access_step_wf s E b verbose r c g :
  0 ≤ s ≤ 30 → 0 < E → wf_cache s E c →
  ∃ c' g', access_step s E b verbose r c g = Some (c', g') ∧ wf_cache s E c'.
Proof.
  intros Hs HE Hwf.
  destruct (access_step_cases s E b verbose r c g Hs HE Hwf)
    as (ls & set' & g' & Hset & Hls & Hspec & Hstep).
  eexists _, _. split; [done|].
  destruct Hwf as [Hlen Hsets]. split; simpl.
  - by rewrite length_insert.
  - intros i st. rewrite list_lookup_insert. case_decide.
    + intros [= <-]. rewrite (cache_sim_spec_length _ _ _ _ _ _ _ _ _ Hspec).
      done.
    + apply Hsets.
Qed.

(** ** The counters after one access *)

(** How each path of [cache_sim] moves the three event counters. *)
Lemma cache_sim_spec_counters a ls tg E b verbose g set' g' :
  cache_sim_spec a ls tg E b verbose g (Some (set', g')) →
  (hit g' = wrap_ulong (hit g + 1) ∧ miss g' = miss g ∧
   eviction g' = eviction g) ∨
  (hit g' = hit g ∧ miss g' = wrap_ulong (miss g + 1) ∧
   eviction g' = eviction g) ∨
  (hit g' = hit g ∧ miss g' = wrap_ulong (miss g + 1) ∧
   eviction g' = wrap_ulong (eviction g + 1)).
Proof.
  inversion 1; subst; [left|right; left|right; right];
    unfold hit_globals, fill_globals, evict_globals, hit_effect, fill_effect,
      eviction_effect, miss_effect;
    destruct verbose; repeat case_match; done.
Qed.

Lemma partition_inv_step s E b verbose n r c g :
  0 ≤ s ≤ 30 → 0 < E →
  is_LS r → wf_cache s E c → partition_inv n c g →
  ∃ c' g', access_step s E b verbose r c g = Some (c', g') ∧
           wf_cache s E c' ∧ partition_inv (S n) c' g'.
Proof.
  intros Hs HE _ Hwf Hinv.
  destruct (access_step_wf s E b verbose r c g Hs HE Hwf)
    as (c' & g' & Hstep & Hwf').
  exists c', g'. split_and!; try done.
  destruct (access_step_cases s E b verbose r c g Hs HE Hwf)
    as (ls & set' & g'' & _ & _ & Hspec & Hstep').
  rewrite Hstep in Hstep'. injection Hstep' as _ <-.
  apply cache_sim_spec_counters in Hspec.
  intros Hn. destruct Hinv as (Hh & He & Hsum); [lia|].
  assert (∀ x, 0 ≤ x ≤ Z.of_nat n → wrap_ulong (x + 1) = x + 1) as Hw.
  { intros x Hx. apply wrap_ulong_small. lia. }
  destruct verbose; simpl in Hspec;
    destruct Hspec as [(-> & -> & ->)|[(-> & -> & ->)|(-> & -> & ->)]];
    rewrite ?Hw by lia; lia.
Qed.

Lemma prefix_Forall_LS (p trace : list access) :
  p `prefix_of` trace → Forall is_LS trace → Forall is_LS p.
Proof. intros [k ->] [Hp _]%Forall_app. done. Qed.

(** C7.  After any prefix of a well-formed trace, run on a freshly
    constructed cache, [hit + miss] is the number of records processed and
    [eviction <= miss]. *)
Theorem C7_hit_miss_partition malloc_ok s E b verbose trace p cache :
  0 ≤ s ≤ 30 → 0 < E →
  cache_init malloc_ok s E b = inl cache →
  Forall is_LS trace → p `prefix_of` trace →
  Z.of_nat (length trace) < 2 ^ 64 →
  ∃ cache' g',
    trace_loop s E b verbose p cache globals_init
    = Some (EndOfTrace cache' g') ∧
    hit g' + miss g' = Z.of_nat (length p) ∧
    eviction g' ≤ miss g'.
Proof.
  intros Hs HE Hinit HLS Hp Hlen.
  apply cache_init_inl in Hinit as ->; [|done].
  destruct (trace_loop_invariant partition_inv s E b verbose
              (λ n r c g, partition_inv_step s E b verbose n r c g Hs HE)
              p 0%nat (fresh_cache s E b) globals_init)
    as (c' & g' & Hrun & _ & Hinv).
  - by eapply prefix_Forall_LS.
  - apply fresh_cache_wf.
  - intros _. simpl. lia.
  - exists c', g'. split; [done|].
    apply prefix_length in Hp. simpl in Hinv.
    destruct Hinv as (? & ? & ?); lia.
Qed.

Lemma C7_hit_miss_partition_witness :
  ∃ cache' g',
    trace_loop 1 2 3 false [St 0; L 0; L 64] (fresh_cache 1 2 3) globals_init
    = Some (EndOfTrace cache' g') ∧
    hit g' + miss g' = 3 ∧ eviction g' ≤ miss g'.
Proof.
  apply (C7_hit_miss_partition (λ _, true) 1 2 3 false
           [St 0; L 0; L 64; St 8] [St 0; L 0; L 64] (fresh_cache 1 2 3)).
  - lia.
  - lia.
  - reflexivity.
  - repeat constructor; (by left) || (by right).
  - by exists [St 8].
  - simpl. lia.
Defined.

(** ** The scenario of the specification *)

(** C3, as amended.  On a freshly constructed cache of geometry
    [(s, E, b) = (1, 1, 0)] the trace [Load 0x0, Load 0x1, Load 0x2,
    Load 0x0] ends with 0 hits, 4 misses and 2 evictions: the third access
    evicts block 0 from set 0 and the fourth evicts block 2 from it. *)
Theorem C3_scenario_statistics malloc_ok verbose cache :
  cache_init malloc_ok 1 1 0 = inl cache →
  ∃ cache' g',
    trace_loop 1 1 0 verbose scenario_trace cache globals_init
    = Some (EndOfTrace cache' g') ∧
    hit g' = 0 ∧ miss g' = 4 ∧ eviction g' = 2.
Proof.
  intros ->%cache_init_inl; [|lia].
  destruct verbose; eexists _, _; (split; [vm_compute; reflexivity|done]).
Qed.

Lemma C3_scenario_statistics_witness :
  ∃ cache' g',
    trace_loop 1 1 0 false scenario_trace (fresh_cache 1 1 0) globals_init
    = Some (EndOfTrace cache' g') ∧
    hit g' = 0 ∧ miss g' = 4 ∧ eviction g' = 2.
Proof.
  apply (C3_scenario_statistics (λ _, true) false (fresh_cache 1 1 0)).
  reflexivity.
Defined.

(** C3, as stated, fails: the run does not end with a single eviction. *)
Lemma C3_counterexample :
  ¬ (∀ malloc_ok verbose cache,
       cache_init malloc_ok 1 1 0 = inl cache →
       ∃ cache' g',
         trace_loop 1 1 0 verbose scenario_trace cache globals_init
         = Some (EndOfTrace cache' g') ∧
         hit g' = 0 ∧ miss g' = 4 ∧ eviction g' = 1).
Proof.
  intros Hclaim.
  destruct (Hclaim (λ _, true) false (fresh_cache 1 1 0) eq_refl)
    as (c' & g' & Hrun & _ & _ & He).
  vm_compute in Hrun. injection Hrun as _ <-. discriminate He.
Qed.

(** The same run through [main]: what is printed. *)
Lemma scenario_main :
  main (λ _, true) (λ _, Some scenario_trace) 1 1 0 false (Some "trace"%string)
  = Some (0, [PrintSummary (Cachelab.mk_stats 0 4 2 0 0)]).
Proof. reflexivity. Qed.

(** ** What the third loop chooses *)

(** What the third loop computes: the last line whose counter exceeds the
    counter of line 0, and line 0 when there is none. *)
Lemma evict_scan_spec n i max_counter e ls v :
  evict_scan n i max_counter e ls = Some v → (e < i)%nat →
  (v = e ∧
   ∀ j l, (i ≤ j < i + n)%nat → ls !! j = Some l →
          LRU_counter l ≤ max_counter) ∨
  ((i ≤ v < i + n)%nat ∧
   (∃ l, ls !! v = Some l ∧ LRU_counter l > max_counter) ∧
   ∀ j l, (v < j < i + n)%nat → ls !! j = Some l →
          LRU_counter l ≤ max_counter).
Proof.
  revert i e. induction n as [|n IH]; intros i e; simpl.
  - intros [= <-] _. left. split; [done|]. intros; lia.
  - destruct (ls !! i) as [li|] eqn:Hli; simpl; [|done].
    intros Hscan He.
    destruct (Z.gtb_spec (LRU_counter li) max_counter) as [Hgt|Hle];
      apply IH in Hscan as [[-> Hall]|(Hr & Habove & Hafter)]; try lia.
    + right. split; [lia|]. split; [exists li; split; [done|lia]|].
      intros j l Hj. apply Hall. lia.
    + right. split; [lia|]. split; [done|].
      intros j l Hj. apply Hafter. lia.
    + left. split; [done|]. intros j l Hj Hl.
      destruct (decide (j = i)) as [->|Hne]; [simplify_eq; lia|].
      apply (Hall j l); [lia|done].
    + right. split; [lia|]. split; [done|].
      intros j l Hj. apply Hafter. lia.
Qed.

(** [select_victim] returns the greatest index whose counter exceeds the
    counter of line 0, and 0 when no counter does. *)
Lemma select_victim_spec E ls v l0 :
  select_victim E ls = Some v → ls !! 0%nat = Some l0 →
  (v = 0%nat ∧
   ∀ j l, (j < Z.to_nat E)%nat → ls !! j = Some l →
          LRU_counter l ≤ LRU_counter l0) ∨
  ((0 < v < Z.to_nat E)%nat ∧
   (∃ l, ls !! v = Some l ∧ LRU_counter l > LRU_counter l0) ∧
   ∀ j l, (v < j < Z.to_nat E)%nat → ls !! j = Some l →
          LRU_counter l ≤ LRU_counter l0).
Proof.
  unfold select_victim. intros Hsel Hl0. rewrite Hl0 in Hsel. simpl in Hsel.
  apply evict_scan_spec in Hsel as [[-> Hall]|(Hr & Habove & Hafter)]; [| |lia].
  - left. split; [done|]. intros j l Hj Hl.
    destruct (decide (j = 0%nat)) as [->|Hne]; [simplify_eq; lia|].
    apply (Hall j l); [lia|done].
  - right. split; [lia|]. split; [done|].
    intros j l Hj. apply Hafter. lia.
Qed.

(** C1.  With [(s, E, b) = (0, 3, 0)], the trace [L 0, L 1, L 2, L 3]
    leaves the lines with counters 0, 5, 3 (blocks 3, 1, 2).  [L 4] then
    misses with no invalid line; the two scans have aged the lines to
    2, 7, 5, and the victim chosen is line 2, of counter 5, while line 1
    holds the maximum 7: block 2 is evicted although block 1 is the least
    recently used. *)
Theorem C1_victim_is_not_the_maximum :
  ∃ g g',
    trace_loop 0 3 0 false lru_trace (fresh_cache 0 3 0) globals_init
    = Some (EndOfTrace (mk_cache 0 3 0 [mk_set lru_set]) g) ∧
    list_find (is_hit 4) lru_set = None ∧
    list_find is_invalid lru_set = None ∧
    LRU_counter <$> (age2 <$> lru_set) = [2; 7; 5] ∧
    select_victim 3 (age2 <$> lru_set) = Some 2%nat ∧
    cache_sim "L" (mk_set lru_set) 4 3 0 false g
    = Some (mk_set [mk_line 1 0 3 3; mk_line 1 0 1 8; mk_line 1 0 4 0], g') ∧
    eviction g' = eviction g + 1.
Proof. eexists _, _. split_and!; reflexivity. Qed.

(** ** Standard output *)

Lemma no_summary_snoc_printf out text :
  no_summary out → no_summary (out ++ [Printf text]).
Proof.
  intros Hout stats [Hin|Hin%list_elem_of_singleton]%elem_of_app; [|done].
  by eapply Hout.
Qed.

Lemma no_summary_snoc_access out a addr sz :
  no_summary out → no_summary (out ++ [PrintfAccess a addr sz]).
Proof.
  intros Hout stats [Hin|Hin%list_elem_of_singleton]%elem_of_app; [|done].
  by eapply Hout.
Qed.

(** [cache_sim] prints no summary. *)
Lemma cache_sim_spec_stdout a ls tg E b verbose g set' g' :
  cache_sim_spec a ls tg E b verbose g (Some (set', g')) →
  no_summary (stdout g) → no_summary (stdout g').
Proof.
  inversion 1; subst; intros Hout;
    unfold hit_globals, fill_globals, evict_globals, hit_effect, fill_effect,
      eviction_effect, miss_effect;
    destruct verbose; repeat case_match; simpl;
    repeat apply no_summary_snoc_printf; done.
Qed.

Lemma stdout_inv_step s E b verbose n r c g :
  0 ≤ s ≤ 30 → 0 < E →
  is_LS r → wf_cache s E c → stdout_inv n c g →
  ∃ c' g', access_step s E b verbose r c g = Some (c', g') ∧
           wf_cache s E c' ∧ stdout_inv (S n) c' g'.
Proof.
  intros Hs HE _ Hwf Hinv.
  destruct (access_step_wf s E b verbose r c g Hs HE Hwf)
    as (c' & g' & Hstep & Hwf').
  exists c', g'. split_and!; try done.
  destruct (access_step_cases s E b verbose r c g Hs HE Hwf)
    as (ls & set' & g'' & _ & _ & Hspec & Hstep').
  rewrite Hstep in Hstep'. injection Hstep' as _ <-.
  apply cache_sim_spec_stdout in Hspec; [done|].
  destruct verbose; [|done]. by apply no_summary_snoc_access.
Qed.

(** The loop continues after a prefix that it processes to its end. *)
Lemma trace_loop_app s E b verbose p rest c g c' g' :
  trace_loop s E b verbose p c g = Some (EndOfTrace c' g') →
  trace_loop s E b verbose (p ++ rest) c g
  = trace_loop s E b verbose rest c' g'.
Proof.
  revert c g. induction p as [|r p IH]; intros c g.
  - by intros [= <- <-].
  - destruct (decide (is_LS r)) as [Hr|Hr].
    + rewrite <- app_comm_cons, !trace_loop_cons_LS by done.
      destruct (access_step s E b verbose r c g) as [[c1 g1]|]; [|done].
      simpl. apply IH.
    + by rewrite trace_loop_cons_bad.
Qed.

(** C8.  When the trace holds a record whose kind is neither ['L'] nor
    ['S'], [main] returns -1 right after printing the error message: the
    output is what the accesses before that record printed, followed by
    the message, it holds no summary of the statistics, and nothing after
    the record is processed. *)
Theorem C8_malformed_kind_halts malloc_ok fopen s E b (verbose : bool)
    name p r rest :
  0 ≤ s ≤ 30 → 0 < E → 0 ≤ b →
  (∀ k, malloc_ok k = true) →
  fopen name = Some (p ++ r :: rest) →
  Forall is_LS p → ¬ is_LS r →
  ∃ c g out,
    trace_loop s E b verbose p (fresh_cache s E b) globals_init
    = Some (EndOfTrace c g) ∧
    out = stdout g
          ++ (if verbose
              then [PrintfAccess (access_type r) (address r) (size r)]
              else [])
          ++ [Printf "Tracefile error\n"] ∧
    main malloc_ok fopen s E b verbose (Some name) = Some (-1, out) ∧
    no_summary out.
Proof.
  intros Hs HE Hb Hok Hopen Hp Hr.
  destruct (trace_loop_invariant stdout_inv s E b verbose
              (λ n r c g, stdout_inv_step s E b verbose n r c g Hs HE)
              p 0%nat (fresh_cache s E b) globals_init Hp
              (fresh_cache_wf s E b))
    as (c & g & Hrun & _ & Hout).
  { intros stats Hin. by apply elem_of_nil in Hin. }
  exists c, g. eexists. split_and!; [done|done| |].
  - unfold main. rewrite Hopen, cache_init_ok by done.
    replace ((s <? 0) || (E <=? 0) || (b <? 0)) with false by lia.
    rewrite (trace_loop_app _ _ _ _ _ _ _ _ _ _ Hrun).
    rewrite trace_loop_cons_bad by done.
    destruct verbose; simpl; by rewrite <- ?app_assoc.
  - intros stats [Hin|Hin]%elem_of_app; [by eapply Hout|].
    destruct verbose; simpl in Hin;
      repeat (apply elem_of_cons in Hin as [Hin|Hin]; [done|]);
      by apply elem_of_nil in Hin.
Qed.

Lemma C8_malformed_kind_halts_witness :
  ∃ c g out,
    trace_loop 1 1 0 true [St 0; L 1] (fresh_cache 1 1 0) globals_init
    = Some (EndOfTrace c g) ∧
    out = stdout g ++ [PrintfAccess "M" 2 1] ++ [Printf "Tracefile error\n"] ∧
    main (λ _, true) (λ _, Some ([St 0; L 1] ++ mk_access "M" 2 1 :: [L 0]))
         1 1 0 true (Some "trace"%string)
    = Some (-1, out) ∧
    no_summary out.
Proof.
  apply (C8_malformed_kind_halts (λ _, true)
           (λ _, Some ([St 0; L 1] ++ mk_access "M" 2 1 :: [L 0]))
           1 1 0 true "trace"%string [St 0; L 1] (mk_access "M" 2 1) [L 0]).
  - lia.
  - lia.
  - lia.
  - reflexivity.
  - reflexivity.
  - repeat constructor; (by left) || (by right).
  - intros [H|H]; discriminate H.
Defined.

(** ** Recency counters *)

Lemma wrap_ulong_succ x k :
  wrap_ulong (wrap_ulong (x + k) + 1) = wrap_ulong (x + (k + 1)).
Proof.
  unfold wrap_ulong. rewrite Z.add_mod_idemp_l by lia. f_equal. lia.
Qed.

Lemma LRU_counter_age2 l :
  LRU_counter (age2 l) = wrap_ulong (LRU_counter l + 2).
Proof. unfold age2. simpl. by rewrite wrap_ulong_succ. Qed.

Lemma LRU_counter_age3 l :
  LRU_counter (age3 l) = wrap_ulong (LRU_counter l + 3).
Proof.
  change (LRU_counter (age3 l)) with (wrap_ulong (LRU_counter (age2 l) + 1)).
  rewrite LRU_counter_age2. apply wrap_ulong_succ.
Qed.

(** The recency counters after an access: 0 for the touched line, and the
    old value plus [aging] for every other line of the set. *)
Lemma cache_sim_spec_recency a ls tg E b verbose g set' g' :
  cache_sim_spec a ls tg E b verbose g (Some (set', g')) →
  ∃ touched, (touched < length ls)%nat ∧
    (∃ lt, lines set' !! touched = Some lt ∧ tag lt = tg) ∧
    ∀ j l, ls !! j = Some l →
      ∃ l', lines set' !! j = Some l' ∧
        LRU_counter l' =
          if decide (j = touched) then 0
          else wrap_ulong (LRU_counter l + aging (outcome_of tg ls)).
Proof.
  unfold outcome_of.
  inversion 1 as [h l Hhit|f l Hhit Hinv|v l Hhit Hinv Hv Hl]; subst;
    rewrite Hhit, ?Hinv; simpl.
  - apply list_find_Some in Hhit as (Hl & [Htag _] & _).
    exists h. split_and!; [by eapply lookup_lt_Some| |].
    { exists (hit_line a l). rewrite lookup_touch, Hl. simpl.
      by rewrite bool_decide_eq_true_2. }
    intros j lj Hj. rewrite lookup_touch, Hj. simpl. eexists. split; [done|].
    case_bool_decide; case_decide; done.
  - apply list_find_Some in Hinv as (Hl & _).
    exists f. split_and!; [by eapply lookup_lt_Some| |].
    { exists (fill_line a tg l). rewrite lookup_touch, Hl. simpl.
      by rewrite bool_decide_eq_true_2. }
    intros j lj Hj. rewrite lookup_touch, Hj. simpl. eexists. split; [done|].
    case_bool_decide; case_decide; try done. apply LRU_counter_age2.
  - exists v. split_and!; [by eapply lookup_lt_Some| |].
    { exists (evict_line a tg l). rewrite lookup_touch, Hl. simpl.
      by rewrite bool_decide_eq_true_2. }
    intros j lj Hj. rewrite lookup_touch, Hj. simpl. eexists. split; [done|].
    case_bool_decide; case_decide; try done. apply LRU_counter_age3.
Qed.

(** One access through the loop of [main]. *)
Lemma trace_loop_single s E b verbose r c g :
  is_LS r →
  trace_loop s E b verbose [r] c g
  = (λ '(c', g'), EndOfTrace c' g') <$> access_step s E b verbose r c g.
Proof.
  intros Hr. rewrite trace_loop_cons_LS by done.
  by destruct (access_step _ _ _ _ _ _ _) as [[c' g']|].
Qed.

(** C2, as amended.  An access sets the recency counter of the touched
    line to 0 and adds to the counter of every other line of the accessed
    set 1 on a hit, 2 on a miss without eviction and 3 on a miss with
    eviction (modulo [2 ^ 64]); the other sets are unchanged. *)
Theorem C2_recency_update s E b (verbose : bool) r c g :
  0 ≤ s ≤ 30 → 0 < E → wf_cache s E c → is_LS r →
  ∃ c' g' ls ls' touched,
    trace_loop s E b verbose [r] c g = Some (EndOfTrace c' g') ∧
    sets c !! Z.to_nat (set_index_of s b (address r)) = Some (mk_set ls) ∧
    sets c' !! Z.to_nat (set_index_of s b (address r)) = Some (mk_set ls') ∧
    (touched < length ls)%nat ∧
    (∃ lt, ls' !! touched = Some lt ∧ tag lt = tag_of s b (address r)) ∧
    (∀ j l, ls !! j = Some l →
       ∃ l', ls' !! j = Some l' ∧
         LRU_counter l' =
           if decide (j = touched) then 0
           else wrap_ulong
                  (LRU_counter l
                   + aging (outcome_of (tag_of s b (address r)) ls))) ∧
    (∀ i, i ≠ Z.to_nat (set_index_of s b (address r)) →
          sets c' !! i = sets c !! i).
Proof.
  intros Hs HE Hwf Hr.
  destruct (access_step_cases s E b verbose r c g Hs HE Hwf)
    as (ls & [ls'] & g' & Hset & Hls & Hspec & Hstep).
  destruct (cache_sim_spec_recency _ _ _ _ _ _ _ _ _ Hspec)
    as (touched & Hlt & Htag & Hrec).
  eexists _, g', ls, ls', touched.
  rewrite trace_loop_single, Hstep by done. simpl.
  split_and!; try done.
  - apply list_lookup_insert_eq. by eapply lookup_lt_Some.
  - intros i Hi. by apply list_lookup_insert_ne.
Qed.

Lemma C2_recency_update_witness :
  ∃ c' g' ls ls' touched,
    trace_loop 0 2 0 false [L 0] (fresh_cache 0 2 0) globals_init
    = Some (EndOfTrace c' g') ∧
    sets (fresh_cache 0 2 0) !! Z.to_nat (set_index_of 0 0 (address (L 0)))
    = Some (mk_set ls) ∧
    sets c' !! Z.to_nat (set_index_of 0 0 (address (L 0)))
    = Some (mk_set ls') ∧
    (touched < length ls)%nat ∧
    (∃ lt, ls' !! touched = Some lt ∧ tag lt = tag_of 0 0 (address (L 0))) ∧
    (∀ j l, ls !! j = Some l →
       ∃ l', ls' !! j = Some l' ∧
         LRU_counter l' =
           if decide (j = touched) then 0
           else wrap_ulong
                  (LRU_counter l
                   + aging (outcome_of (tag_of 0 0 (address (L 0))) ls))) ∧
    (∀ i, i ≠ Z.to_nat (set_index_of 0 0 (address (L 0))) →
          sets c' !! i = sets (fresh_cache 0 2 0) !! i).
Proof.
  apply (C2_recency_update 0 2 0 false (L 0) (fresh_cache 0 2 0) globals_init).
  - lia.
  - lia.
  - apply fresh_cache_wf.
  - by left.
Defined.

(** C2, as stated, fails: a Load that misses in an empty set of two lines
    fills line 0 and leaves line 1 with counter 2, not 1. *)
Lemma C2_counterexample :
  ¬ (∀ s E b (verbose : bool) r c g,
       0 ≤ s ≤ 30 → 0 < E → wf_cache s E c → is_LS r →
       ∃ c' g' ls ls' touched,
         trace_loop s E b verbose [r] c g = Some (EndOfTrace c' g') ∧
         sets c !! Z.to_nat (set_index_of s b (address r)) = Some (mk_set ls) ∧
         sets c' !! Z.to_nat (set_index_of s b (address r))
         = Some (mk_set ls') ∧
         (touched < length ls)%nat ∧
         (∃ lt, ls' !! touched = Some lt ∧ tag lt = tag_of s b (address r)) ∧
         (∀ j l, ls !! j = Some l →
            ∃ l', ls' !! j = Some l' ∧
              LRU_counter l' =
                if decide (j = touched) then 0
                else wrap_ulong (LRU_counter l + 1)) ∧
         (∀ i, i ≠ Z.to_nat (set_index_of s b (address r)) →
               sets c' !! i = sets c !! i)).
Proof.
  intros Hclaim.
  destruct (Hclaim 0 2 0 false (L 0) (fresh_cache 0 2 0) globals_init)
    as (c' & g' & ls & ls' & touched & Hrun & Hset & Hset' & _ & _ & Hrec & _);
    [lia|lia|apply fresh_cache_wf|by left|].
  vm_compute in Hrun. injection Hrun as <- <-.
  vm_compute in Hset. injection Hset as <-.
  vm_compute in Hset'. injection Hset' as <-.
  destruct (Hrec 1%nat line_init eq_refl) as (l1 & [= <-] & H1).
  destruct (Hrec 0%nat line_init eq_refl) as (l0 & [= <-] & H0).
  destruct (decide (1%nat = touched)) as [<-|_]; [|discriminate H1].
  discriminate H0.
Qed.

Lemma aging_range o : 1 ≤ aging o ≤ 3.
Proof. destruct o; simpl; lia. Qed.

(** C9.  Within one access every line of the set other than the touched
    one has its counter increased by the same amount [k] (1, 2 or 3,
    modulo [2 ^ 64]); when no counter wraps around, the order of the
    counters of the non-touched lines is the same before and after. *)
Theorem C9_uniform_aging a ls tg E b verbose g :
  length ls = Z.to_nat E → (0 < length ls)%nat →
  ∃ set' g' touched k,
    cache_sim a (mk_set ls) tg E b verbose g = Some (set', g') ∧
    (touched < length ls)%nat ∧ 1 ≤ k ≤ 3 ∧
    (∃ lt, lines set' !! touched = Some lt ∧ tag lt = tg ∧
           LRU_counter lt = 0) ∧
    (∀ j l, j ≠ touched → ls !! j = Some l →
       ∃ l', lines set' !! j = Some l' ∧
             LRU_counter l' = wrap_ulong (LRU_counter l + k)) ∧
    ((∀ l, l ∈ ls → 0 ≤ LRU_counter l ∧ LRU_counter l + k < 2 ^ 64) →
     ∀ i j li lj li' lj',
       i ≠ touched → j ≠ touched →
       ls !! i = Some li → ls !! j = Some lj →
       lines set' !! i = Some li' → lines set' !! j = Some lj' →
       LRU_counter li' = LRU_counter li + k ∧
       LRU_counter lj' = LRU_counter lj + k ∧
       (LRU_counter li < LRU_counter lj ↔ LRU_counter li' < LRU_counter lj')).
Proof.
  intros HE Hpos.
  pose proof (cache_sim_cases a ls tg E b verbose g HE Hpos) as Hspec.
  destruct (cache_sim _ _ _ _ _ _ _) as [[set' g']|] eqn:Hsim;
    [|inversion Hspec].
  destruct (cache_sim_spec_recency _ _ _ _ _ _ _ _ _ Hspec)
    as (touched & Hlt & Htag & Hrec).
  exists set', g', touched, (aging (outcome_of tg ls)).
  assert (∀ j l, j ≠ touched → ls !! j = Some l →
            ∃ l', lines set' !! j = Some l' ∧
                  LRU_counter l' =
                    wrap_ulong (LRU_counter l + aging (outcome_of tg ls)))
    as Hother.
  { intros j l Hj Hl. destruct (Hrec j l Hl) as (l' & Hl' & Hc).
    exists l'. by rewrite decide_False in Hc. }
  split_and!; [done|done|apply aging_range..| |done|].
  { destruct Htag as (lt & Hlt' & Htg). exists lt. split_and!; [done..|].
    destruct (lookup_lt_is_Some_2 ls touched Hlt) as [l0 Hl0].
    destruct (Hrec touched l0 Hl0) as (l' & Hl' & Hc).
    rewrite decide_True in Hc by done. by simplify_eq. }
  intros Hbound i j li lj li' lj' Hi Hj Hli Hlj Hli' Hlj'.
  destruct (Hother i li Hi Hli) as (? & ? & Hci).
  destruct (Hother j lj Hj Hlj) as (? & ? & Hcj). simplify_eq.
  rewrite wrap_ulong_small in Hci
    by (apply list_elem_of_lookup_2, Hbound in Hli;
        pose proof (aging_range (outcome_of tg ls)); lia).
  rewrite wrap_ulong_small in Hcj
    by (apply list_elem_of_lookup_2, Hbound in Hlj;
        pose proof (aging_range (outcome_of tg ls)); lia).
  lia.
Qed.

Lemma C9_uniform_aging_witness :
  ∃ set' g' touched k,
    cache_sim "L" (mk_set lru_set) 4 3 0 false globals_init = Some (set', g') ∧
    (touched < length lru_set)%nat ∧ 1 ≤ k ≤ 3 ∧
    (∃ lt, lines set' !! touched = Some lt ∧ tag lt = 4 ∧
           LRU_counter lt = 0) ∧
    (∀ j l, j ≠ touched → lru_set !! j = Some l →
       ∃ l', lines set' !! j = Some l' ∧
             LRU_counter l' = wrap_ulong (LRU_counter l + k)) ∧
    ((∀ l, l ∈ lru_set → 0 ≤ LRU_counter l ∧ LRU_counter l + k < 2 ^ 64) →
     ∀ i j li lj li' lj',
       i ≠ touched → j ≠ touched →
       lru_set !! i = Some li → lru_set !! j = Some lj →
       lines set' !! i = Some li' → lines set' !! j = Some lj' →
       LRU_counter li' = LRU_counter li + k ∧
       LRU_counter lj' = LRU_counter lj + k ∧
       (LRU_counter li < LRU_counter lj ↔ LRU_counter li' < LRU_counter lj')).
Proof.
  apply (C9_uniform_aging "L" lru_set 4 3 0 false globals_init).
  - reflexivity.
  - simpl. lia.
Defined.

(** ** Valid bits *)

Lemma lookup_touch_Some h f age ls j l' :
  touch h f age ls !! j = Some l' ↔
  ∃ l, ls !! j = Some l ∧ l' = if bool_decide (j = h) then f l else age l.
Proof. apply list_lookup_imap_Some. Qed.

(** What an access does to the valid bit of a line of the accessed set:
    nothing, except for the invalid line that a miss fills. *)
Lemma cache_sim_spec_valid a ls tg E b verbose g set' g' j l :
  cache_sim_spec a ls tg E b verbose g (Some (set', g')) →
  ls !! j = Some l →
  ∃ l', lines set' !! j = Some l' ∧
    (valid l' = valid l ∨
     (valid l = 0 ∧ valid l' = 1 ∧ outcome_of tg ls = MissNoEvict)).
Proof.
  unfold outcome_of.
  inversion 1 as [h lh Hhit|f lf Hhit Hinv|v lv Hhit Hinv Hv Hlv]; subst;
    intros Hl; simpl; rewrite lookup_touch, Hl; simpl;
    (eexists; split; [done|]); case_bool_decide; subst; simpl; auto.
  right. rewrite Hhit, Hinv.
  apply list_find_Some in Hinv as (Hlf & Hinvalid & _).
  by simplify_eq.
Qed.

Lemma line_at_fresh s E b i j l :
  line_at (fresh_cache s E b) i j = Some l → valid l = 0.
Proof.
  unfold line_at. simpl.
  destruct (replicate _ _ !! i) as [st|] eqn:Hst; simpl; [|done].
  apply lookup_replicate in Hst as [-> _]. simpl.
  by intros [-> _]%lookup_replicate.
Qed.

(** The lines of the cache after one access, set by set. *)
Lemma access_step_line_at s E b (verbose : bool) r c g :
  0 ≤ s ≤ 30 → 0 < E → wf_cache s E c →
  ∃ c' g' ls ls',
    access_step s E b verbose r c g = Some (c', g') ∧ wf_cache s E c' ∧
    sets c !! Z.to_nat (set_index_of s b (address r)) = Some (mk_set ls) ∧
    cache_sim_spec (access_type r) ls (tag_of s b (address r)) E b verbose
      (if verbose
       then put g (PrintfAccess (access_type r) (address r) (size r))
       else g)
      (Some (mk_set ls', g')) ∧
    ∀ i j,
      line_at c' i j =
        if decide (i = Z.to_nat (set_index_of s b (address r)))
        then ls' !! j else line_at c i j.
Proof.
  intros Hs HE Hwf.
  destruct (access_step_wf s E b verbose r c g Hs HE Hwf)
    as (c' & g' & Hstep & Hwf').
  destruct (access_step_cases s E b verbose r c g Hs HE Hwf)
    as (ls & [ls'] & g'' & Hset & Hls & Hspec & Hstep').
  rewrite Hstep in Hstep'. injection Hstep' as -> <-.
  eexists _, g', ls, ls'. split_and!; try done.
  intros i j. unfold line_at. simpl. rewrite list_lookup_insert.
  apply lookup_lt_Some in Hset.
  repeat case_decide; destruct_and?; subst; try done; lia.
Qed.

Lemma valid_bits_inv_step s E b verbose n r c g :
  0 ≤ s ≤ 30 → 0 < E →
  is_LS r → wf_cache s E c → valid_bits_inv n c g →
  ∃ c' g', access_step s E b verbose r c g = Some (c', g') ∧
           wf_cache s E c' ∧ valid_bits_inv (S n) c' g'.
Proof.
  intros Hs HE _ Hwf Hinv.
  destruct (access_step_line_at s E b verbose r c g Hs HE Hwf)
    as (c' & g' & ls & ls' & Hstep & Hwf' & Hset & Hspec & Hat).
  exists c', g'. split_and!; try done.
  intros i j l'. rewrite Hat. case_decide as Hi; [|apply Hinv].
  intros Hl'. pose proof (lookup_lt_Some _ _ _ Hl') as Hj.
  pose proof (cache_sim_spec_length _ _ _ _ _ _ _ _ _ Hspec) as Hlen.
  simpl in Hlen. rewrite Hlen in Hj.
  destruct (lookup_lt_is_Some_2 ls j Hj) as [l Hl].
  destruct (cache_sim_spec_valid _ _ _ _ _ _ _ _ _ j l Hspec Hl)
    as (l'' & Hl'' & Hv).
  simpl in Hl''. simplify_eq.
  assert (valid l = 0 ∨ valid l = 1) as Hvl.
  { apply (Hinv (Z.to_nat (set_index_of s b (address r))) j).
    unfold line_at. by rewrite Hset. }
  destruct Hv as [->|(_ & -> & _)]; auto.
Qed.

Lemma valid_kept_inv_step c0 s E b verbose n r c g :
  0 ≤ s ≤ 30 → 0 < E →
  is_LS r → wf_cache s E c → valid_kept_inv c0 n c g →
  ∃ c' g', access_step s E b verbose r c g = Some (c', g') ∧
           wf_cache s E c' ∧ valid_kept_inv c0 (S n) c' g'.
Proof.
  intros Hs HE _ Hwf Hinv.
  destruct (access_step_line_at s E b verbose r c g Hs HE Hwf)
    as (c' & g' & ls & ls' & Hstep & Hwf' & Hset & Hspec & Hat).
  exists c', g'. split_and!; try done.
  intros i j l0 Hl0. destruct (Hinv i j l0 Hl0) as (l & Hl & Hv).
  rewrite Hat. case_decide as Hi; [|eauto].
  subst i. unfold line_at in Hl. rewrite Hset in Hl. simpl in Hl.
  destruct (cache_sim_spec_valid _ _ _ _ _ _ _ _ _ j l Hspec Hl)
    as (l' & Hl' & Hv').
  exists l'. split; [done|]. intros H0. destruct Hv' as [->|(_ & -> & _)]; auto.
Qed.

(** The event counters after an access, by its outcome. *)
Lemma cache_sim_spec_outcome a ls tg E b verbose g set' g' :
  cache_sim_spec a ls tg E b verbose g (Some (set', g')) →
  match outcome_of tg ls with
  | Hit =>
      hit g' = wrap_ulong (hit g + 1) ∧ miss g' = miss g ∧
      eviction g' = eviction g
  | MissNoEvict =>
      hit g' = hit g ∧ miss g' = wrap_ulong (miss g + 1) ∧
      eviction g' = eviction g
  | MissEvict =>
      hit g' = hit g ∧ miss g' = wrap_ulong (miss g + 1) ∧
      eviction g' = wrap_ulong (eviction g + 1)
  end.
Proof.
  unfold outcome_of.
  inversion 1 as [h l Hhit|f l Hhit Hinv|v l Hhit Hinv Hv Hl]; subst;
    rewrite Hhit, ?Hinv;
    unfold hit_globals, fill_globals, evict_globals, hit_effect, fill_effect,
      eviction_effect, miss_effect;
    destruct verbose; repeat case_match; done.
Qed.

(** C10.  The valid bits over a run on a freshly constructed cache: every
    line starts invalid; a line that is valid after a prefix [p] of the
    trace is valid after any longer prefix [p ++ q]; and the only change
    that one access makes to a valid bit is from 0 to 1, on a miss that
    does not evict. *)
Theorem C10_valid_bit_monotone malloc_ok s E b verbose p q cache :
  0 ≤ s ≤ 30 → 0 < E →
  cache_init malloc_ok s E b = inl cache →
  Forall is_LS (p ++ q) →
  (∀ i j l, line_at cache i j = Some l → valid l = 0) ∧
  ∃ c1 g1 c2 g2,
    trace_loop s E b verbose p cache globals_init
    = Some (EndOfTrace c1 g1) ∧
    trace_loop s E b verbose (p ++ q) cache globals_init
    = Some (EndOfTrace c2 g2) ∧
    ∀ i j l1, line_at c1 i j = Some l1 →
      ∃ l2, line_at c2 i j = Some l2 ∧
        (valid l1 = 0 ∨ valid l1 = 1) ∧
        (valid l1 = 1 → valid l2 = 1) ∧
        (length q = 1%nat → valid l2 ≠ valid l1 →
         valid l1 = 0 ∧ valid l2 = 1 ∧
         hit g2 = hit g1 ∧ miss g2 = wrap_ulong (miss g1 + 1) ∧
         eviction g2 = eviction g1).
Proof.
  intros Hs HE Hinit [Hp Hq]%Forall_app.
  apply cache_init_inl in Hinit as ->; [|done].
  split; [apply line_at_fresh|].
  destruct (trace_loop_invariant valid_bits_inv s E b verbose
              (λ n r c g, valid_bits_inv_step s E b verbose n r c g Hs HE)
              p 0%nat (fresh_cache s E b) globals_init Hp
              (fresh_cache_wf s E b))
    as (c1 & g1 & Hrun1 & Hwf1 & Hbits).
  { intros i j l Hl. left. by eapply line_at_fresh. }
  destruct (trace_loop_invariant (valid_kept_inv c1) s E b verbose
              (λ n r c g, valid_kept_inv_step c1 s E b verbose n r c g Hs HE)
              q 0%nat c1 g1 Hq Hwf1)
    as (c2 & g2 & Hrun2 & Hwf2 & Hkept).
  { intros i j l Hl. eauto. }
  exists c1, g1, c2, g2. split_and!; [done| |].
  { by rewrite (trace_loop_app _ _ _ _ _ _ _ _ _ _ Hrun1). }
  intros i j l1 Hl1. destruct (Hkept i j l1 Hl1) as (l2 & Hl2 & Hv).
  exists l2. split_and!; [done|by eapply Hbits|done|].
  intros Hlen Hchange.
  destruct q as [|r [|]]; try discriminate Hlen.
  apply Forall_cons in Hq as [Hr _].
  rewrite trace_loop_single in Hrun2 by done.
  destruct (access_step_line_at s E b verbose r c1 g1 Hs HE Hwf1)
    as (c' & g' & ls & ls' & Hstep & _ & Hset & Hspec & Hat).
  rewrite Hstep in Hrun2. injection Hrun2 as <- <-.
  rewrite Hat in Hl2. case_decide as Hi; [|congruence].
  subst i. unfold line_at in Hl1. rewrite Hset in Hl1. simpl in Hl1.
  destruct (cache_sim_spec_valid _ _ _ _ _ _ _ _ _ j l1 Hspec Hl1)
    as (l' & Hl' & Hv').
  simpl in Hl'. simplify_eq.
  destruct Hv' as [?|(H0 & H1 & Hout)]; [done|].
  apply cache_sim_spec_outcome in Hspec. rewrite Hout in Hspec.
  destruct verbose; simpl in Hspec; destruct Hspec as (-> & -> & ->); done.
Qed.

Lemma C10_valid_bit_monotone_witness :
  (∀ i j l, line_at (fresh_cache 1 2 0) i j = Some l → valid l = 0) ∧
  ∃ c1 g1 c2 g2,
    trace_loop 1 2 0 false [L 0; St 1] (fresh_cache 1 2 0) globals_init
    = Some (EndOfTrace c1 g1) ∧
    trace_loop 1 2 0 false ([L 0; St 1] ++ [L 2]) (fresh_cache 1 2 0)
      globals_init
    = Some (EndOfTrace c2 g2) ∧
    ∀ i j l1, line_at c1 i j = Some l1 →
      ∃ l2, line_at c2 i j = Some l2 ∧
        (valid l1 = 0 ∨ valid l1 = 1) ∧
        (valid l1 = 1 → valid l2 = 1) ∧
        (length [L 2] = 1%nat → valid l2 ≠ valid l1 →
         valid l1 = 0 ∧ valid l2 = 1 ∧
         hit g2 = hit g1 ∧ miss g2 = wrap_ulong (miss g1 + 1) ∧
         eviction g2 = eviction g1).
Proof.
  apply (C10_valid_bit_monotone (λ _, true) 1 2 0 false [L 0; St 1] [L 2]
           (fresh_cache 1 2 0)).
  - lia.
  - lia.
  - reflexivity.
  - repeat constructor; (by left) || (by right).
Defined.

(** ** Write-back accounting *)

(** C6.  When the victim of an eviction is dirty, [dirty_evictions] grows
    by [2 ^ b] and the victim's [2 ^ b] bytes leave [dirty_bytes], to
    which a Store adds the [2 ^ b] bytes of the block it installs; the
    new line is dirty exactly for a Store.  The victim [v] is the line
    that the third loop chooses on the lines as the two scans left them,
    and the line that receives the new tag. *)
Theorem C6_dirty_victim_eviction a ls tg E b verbose g v l :
  length ls = Z.to_nat E → 0 ≤ b ≤ 30 →
  a = "L"%char ∨ a = "S"%char →
  0 ≤ dirty_bytes g < 2 ^ 64 →
  list_find (is_hit tg) ls = None →
  list_find is_invalid ls = None →
  select_victim E (age2 <$> ls) = Some v →
  ls !! v = Some l → dirty_bit l = 1 →
  ∃ set' g' l',
    cache_sim a (mk_set ls) tg E b verbose g = Some (set', g') ∧
    eviction g' = wrap_ulong (eviction g + 1) ∧
    lines set' !! v = Some l' ∧ tag l' = tg ∧
    dirty_bit l' = (if is_char a "S" then 1 else 0) ∧
    dirty_evictions g' = wrap_ulong (dirty_evictions g + 2 ^ b) ∧
    dirty_bytes g' =
      wrap_ulong (dirty_bytes g - 2 ^ b + (if is_char a "S" then 2 ^ b else 0)).
Proof.
  intros HE Hb Ha Hdb Hhit Hinv Hv Hl Hd.
  destruct (cache_sim_evict a ls tg E b verbose g HE v Hhit Hinv Hv)
    as (l0 & Hl0 & Hsim); [by eapply lookup_lt_Some|].
  simplify_eq.
  exists (mk_set (touch v (evict_line a tg) age3 ls)),
    (evict_globals a b verbose l g), (evict_line a tg l).
  split; [done|]. simpl lines.
  rewrite lookup_touch, Hl. simpl. rewrite bool_decide_eq_true_2 by done.
  unfold evict_globals, evict_line, evict_dirty, eviction_effect, miss_effect.
  rewrite Hd, block_size_pow by done. simpl.
  destruct Ha as [-> | ->]; simpl; destruct verbose; simpl;
    (split_and!; try done).
  - f_equal. lia.
  - f_equal. lia.
  - replace (dirty_bytes g - 2 ^ b + 2 ^ b) with (dirty_bytes g) by lia.
    by rewrite wrap_ulong_small.
  - replace (dirty_bytes g - 2 ^ b + 2 ^ b) with (dirty_bytes g) by lia.
    by rewrite wrap_ulong_small.
Qed.

Lemma C6_dirty_victim_eviction_witness :
  ∃ set' g' l',
    cache_sim "S" (mk_set [mk_line 1 1 7 0]) 9 1 2 false
      (mk_globals 0 1 0 4 0 [])
    = Some (set', g') ∧
    eviction g' = wrap_ulong (0 + 1) ∧
    lines set' !! 0%nat = Some l' ∧ tag l' = 9 ∧
    dirty_bit l' = (if is_char "S" "S" then 1 else 0) ∧
    dirty_evictions g' = wrap_ulong (0 + 2 ^ 2) ∧
    dirty_bytes g' =
      wrap_ulong (4 - 2 ^ 2 + (if is_char "S" "S" then 2 ^ 2 else 0)).
Proof.
  apply (C6_dirty_victim_eviction "S" [mk_line 1 1 7 0] 9 1 2 false
           (mk_globals 0 1 0 4 0 []) 0%nat (mk_line 1 1 7 0)).
  - reflexivity.
  - lia.
  - by right.
  - simpl. lia.
  - reflexivity.
  - reflexivity.
  - reflexivity.
  - reflexivity.
  - reflexivity.
Defined.

Lemma is_hit_incr tg l : is_hit tg (incr_LRU_counter l) ↔ is_hit tg l.
Proof. done. Qed.

(** After a hit the same tag hits the same line again. *)
Lemma list_find_hit_again a tg ls h l :
  list_find (is_hit tg) ls = Some (h, l) →
  list_find (is_hit tg) (touch h (hit_line a) incr_LRU_counter ls)
  = Some (h, hit_line a l).
Proof.
  intros (Hl & Hhit & Hbefore)%list_find_Some. apply list_find_Some.
  split_and!.
  - rewrite lookup_touch, Hl. simpl. by rewrite bool_decide_eq_true_2.
  - done.
  - intros j y [lj [Hlj ->]]%lookup_touch_Some Hj.
    rewrite bool_decide_eq_false_2 by lia. rewrite is_hit_incr. eauto.
Qed.

(** C5, as amended.  A Store that hits a clean line marks it dirty and adds
    [2 ^ b] to [dirty_bytes]; a second Store to the same block hits the
    same line, now dirty, and changes no dirty bit, neither [dirty_bytes]
    nor [dirty_evictions], nor [miss] nor [eviction]: it only counts as one
    more hit.  When later a Load evicts that line while it is dirty,
    [dirty_evictions] grows by [2 ^ b] and [dirty_bytes] decreases by
    [2 ^ b]. *)
Theorem C5_write_back ls tg E b verbose g h l ls3 tg3 g3 l3 :
  0 ≤ b ≤ 30 →
  length ls = Z.to_nat E →
  list_find (is_hit tg) ls = Some (h, l) → dirty_bit l = 0 →
  length ls3 = Z.to_nat E →
  list_find (is_hit tg3) ls3 = None →
  list_find is_invalid ls3 = None →
  select_victim E (age2 <$> ls3) = Some h →
  ls3 !! h = Some l3 → dirty_bit l3 = 1 →
  ∃ set1 g1 l1 set2 g2 set4 g4 l4,
    (* the Store that hits the clean line *)
    cache_sim "S" (mk_set ls) tg E b verbose g = Some (set1, g1) ∧
    lines set1 !! h = Some l1 ∧ dirty_bit l1 = 1 ∧
    dirty_bytes g1 = wrap_ulong (dirty_bytes g + 2 ^ b) ∧
    (* the next Store to the same block *)
    list_find (is_hit tg) (lines set1) = Some (h, l1) ∧
    cache_sim "S" set1 tg E b verbose g1 = Some (set2, g2) ∧
    dirty_bit <$> lines set2 = dirty_bit <$> lines set1 ∧
    hit g2 = wrap_ulong (hit g1 + 1) ∧
    miss g2 = miss g1 ∧ eviction g2 = eviction g1 ∧
    dirty_bytes g2 = dirty_bytes g1 ∧
    dirty_evictions g2 = dirty_evictions g1 ∧
    (* the Load that evicts the line while it is dirty *)
    cache_sim "L" (mk_set ls3) tg3 E b verbose g3 = Some (set4, g4) ∧
    lines set4 !! h = Some l4 ∧ dirty_bit l4 = 0 ∧
    dirty_evictions g4 = wrap_ulong (dirty_evictions g3 + 2 ^ b) ∧
    dirty_bytes g4 = wrap_ulong (dirty_bytes g3 - 2 ^ b).
Proof.
  intros Hb HE Hhit Hclean HE3 Hmiss3 Hfull3 Hv3 Hl3 Hdirty3.
  pose proof Hhit as (Hl & _ & _)%list_find_Some.
  pose proof (list_find_hit_again "S" tg ls h l Hhit) as Hagain.
  assert (length (touch h (hit_line "S") incr_LRU_counter ls) = Z.to_nat E)
    as HE1 by (by rewrite length_touch).
  destruct (cache_sim_evict "L" ls3 tg3 E b verbose g3 HE3 h Hmiss3 Hfull3 Hv3)
    as (l3' & Hl3' & Hsim3); [by eapply lookup_lt_Some|].
  simplify_eq.
  exists (mk_set (touch h (hit_line "S") incr_LRU_counter ls)),
    (hit_globals "S" b verbose l g), (hit_line "S" l),
    (mk_set (touch h (hit_line "S") incr_LRU_counter
               (touch h (hit_line "S") incr_LRU_counter ls))),
    (hit_globals "S" b verbose (hit_line "S" l)
       (hit_globals "S" b verbose l g)),
    (mk_set (touch h (evict_line "L" tg3) age3 ls3)),
    (evict_globals "L" b verbose l3 g3), (evict_line "L" tg3 l3).
  assert (dirty_bit (hit_line "S" l) = 1) as Hd1.
  { unfold hit_line. simpl. by rewrite Hclean. }
  split_and!.
  - by apply cache_sim_hit.
  - simpl. rewrite lookup_touch, Hl. simpl.
    by rewrite bool_decide_eq_true_2.
  - done.
  - unfold hit_globals. rewrite Hclean, block_size_pow by done.
    by destruct verbose.
  - done.
  - by apply cache_sim_hit.
  - simpl. apply list_eq. intros j.
    rewrite !list_lookup_fmap, !lookup_touch.
    destruct (decide (j = h)) as [->|Hne].
    + rewrite Hl. simpl. rewrite bool_decide_eq_true_2 by done.
      simpl. by rewrite Hclean.
    + destruct (ls !! j) as [lj|]; simpl; [|done].
      by rewrite bool_decide_eq_false_2.
  - unfold hit_globals. rewrite Hd1, Hclean. by destruct verbose.
  - unfold hit_globals. rewrite Hd1, Hclean. by destruct verbose.
  - unfold hit_globals. rewrite Hd1, Hclean. by destruct verbose.
  - unfold hit_globals. rewrite Hd1, Hclean. by destruct verbose.
  - unfold hit_globals. rewrite Hd1, Hclean. by destruct verbose.
  - done.
  - simpl. rewrite lookup_touch, Hl3. simpl.
    by rewrite bool_decide_eq_true_2.
  - unfold evict_line, evict_dirty. simpl. by rewrite Hdirty3.
  - unfold evict_globals. rewrite Hdirty3, block_size_pow by done.
    by destruct verbose.
  - unfold evict_globals. rewrite Hdirty3, block_size_pow by done.
    destruct verbose; simpl; f_equal; lia.
Qed.

Lemma C5_write_back_witness :
  ∃ set1 g1 l1 set2 g2 set4 g4 l4,
    cache_sim "S" (mk_set [mk_line 1 0 7 0]) 7 1 2 false globals_init
    = Some (set1, g1) ∧
    lines set1 !! 0%nat = Some l1 ∧ dirty_bit l1 = 1 ∧
    dirty_bytes g1 = wrap_ulong (dirty_bytes globals_init + 2 ^ 2) ∧
    list_find (is_hit 7) (lines set1) = Some (0%nat, l1) ∧
    cache_sim "S" set1 7 1 2 false g1 = Some (set2, g2) ∧
    dirty_bit <$> lines set2 = dirty_bit <$> lines set1 ∧
    hit g2 = wrap_ulong (hit g1 + 1) ∧
    miss g2 = miss g1 ∧ eviction g2 = eviction g1 ∧
    dirty_bytes g2 = dirty_bytes g1 ∧
    dirty_evictions g2 = dirty_evictions g1 ∧
    cache_sim "L" (mk_set [mk_line 1 1 7 0]) 9 1 2 false
      (mk_globals 2 0 0 4 0 [])
    = Some (set4, g4) ∧
    lines set4 !! 0%nat = Some l4 ∧ dirty_bit l4 = 0 ∧
    dirty_evictions g4 = wrap_ulong (0 + 2 ^ 2) ∧
    dirty_bytes g4 = wrap_ulong (4 - 2 ^ 2).
Proof.
  apply (C5_write_back [mk_line 1 0 7 0] 7 1 2 false globals_init 0%nat
           (mk_line 1 0 7 0) [mk_line 1 1 7 0] 9 (mk_globals 2 0 0 4 0 [])
           (mk_line 1 1 7 0)).
  - lia.
  - reflexivity.
  - reflexivity.
  - reflexivity.
  - reflexivity.
  - reflexivity.
  - reflexivity.
  - reflexivity.
  - reflexivity.
  - reflexivity.
Defined.

(** C5, as stated, fails: the second Store changes a counter, since it is
    counted as a hit. *)
Lemma C5_counterexample :
  ¬ (∀ ls tg E b verbose g h l,
       0 ≤ b ≤ 30 → length ls = Z.to_nat E →
       list_find (is_hit tg) ls = Some (h, l) → dirty_bit l = 1 →
       ∃ set' g',
         cache_sim "S" (mk_set ls) tg E b verbose g = Some (set', g') ∧
         dirty_bit <$> lines set' = dirty_bit <$> ls ∧
         hit g' = hit g ∧ miss g' = miss g ∧ eviction g' = eviction g ∧
         dirty_bytes g' = dirty_bytes g ∧
         dirty_evictions g' = dirty_evictions g).
Proof.
  intros Hclaim.
  destruct (Hclaim [mk_line 1 1 7 0] 7 1 2 false (mk_globals 1 0 0 4 0 [])
              0%nat (mk_line 1 1 7 0))
    as (set' & g' & Hsim & _ & Hhit & _); [lia|done..|].
  vm_compute in Hsim. injection Hsim as _ <-. discriminate Hhit.
Qed.

(** ** Conservation of the dirty bytes *)

Lemma sumZ_insert xs i x y :
  xs !! i = Some x → sumZ (<[i := y]> xs) = sumZ xs - x + y.
Proof.
  revert i. induction xs as [|z xs IH]; intros [|i]; simpl; try done.
  - intros [= ->]. lia.
  - intros Hi. rewrite (IH i Hi). lia.
Qed.

Lemma sumZ_bound m xs :
  Forall (λ x, 0 ≤ x ≤ m) xs → 0 ≤ sumZ xs ≤ Z.of_nat (length xs) * m.
Proof.
  induction 1 as [|x xs Hx _ IH]; [simpl; lia|].
  cbn [length sumZ foldr]. rewrite Nat2Z.inj_succ, Z.mul_succ_l.
  unfold sumZ in IH. lia.
Qed.

Lemma line_dirty_bytes_range b l : 0 ≤ b → 0 ≤ line_dirty_bytes b l ≤ 2 ^ b.
Proof.
  intros Hb. unfold line_dirty_bytes.
  pose proof (Z.pow_pos_nonneg 2 b). case_match; lia.
Qed.

Lemma set_dirty_bytes_range b ls :
  0 ≤ b → 0 ≤ set_dirty_bytes b ls ≤ Z.of_nat (length ls) * 2 ^ b.
Proof.
  intros Hb. unfold set_dirty_bytes.
  rewrite <- (length_fmap (line_dirty_bytes b) ls).
  apply sumZ_bound, Forall_fmap, Forall_forall. intros l _.
  by apply line_dirty_bytes_range.
Qed.

(** The resident dirty bytes never exceed the capacity of the cache. *)
Lemma cache_dirty_bytes_range s E b c :
  0 ≤ s → 0 < E → 0 ≤ b → wf_cache s E c →
  0 ≤ cache_dirty_bytes b c ≤ 2 ^ s * E * 2 ^ b.
Proof.
  intros Hs HE Hb [Hlen Hsets]. unfold cache_dirty_bytes.
  pose proof (Z.pow_pos_nonneg 2 s ltac:(lia) Hs).
  pose proof (sumZ_bound (E * 2 ^ b)
                ((λ st, set_dirty_bytes b (lines st)) <$> sets c)) as Hsum.
  rewrite length_fmap, Hlen in Hsum. rewrite Z2Nat.id in Hsum by lia.
  rewrite Z.mul_assoc in Hsum. apply Hsum.
  apply Forall_fmap, Forall_lookup. intros i st Hst. simpl.
  pose proof (set_dirty_bytes_range b (lines st) Hb) as Hr.
  rewrite (Hsets _ _ Hst), Z2Nat.id in Hr by lia. done.
Qed.

Lemma set_dirty_bytes_touch b h f age ls l :
  (∀ x, line_dirty_bytes b (age x) = line_dirty_bytes b x) →
  ls !! h = Some l →
  set_dirty_bytes b (touch h f age ls)
  = set_dirty_bytes b ls - line_dirty_bytes b l + line_dirty_bytes b (f l).
Proof.
  intros Hage Hl. unfold set_dirty_bytes.
  rewrite <- (sumZ_insert _ h) by (by rewrite list_lookup_fmap, Hl).
  f_equal. apply list_eq. intros j.
  rewrite list_lookup_insert, !list_lookup_fmap, lookup_touch, length_fmap.
  apply lookup_lt_Some in Hl as Hh.
  destruct (decide (j = h)) as [->|Hne].
  - rewrite Hl. simpl. rewrite bool_decide_eq_true_2 by done.
    by rewrite decide_True.
  - rewrite decide_False by (intros [? _]; done).
    destruct (ls !! j); simpl; [|done].
    by rewrite bool_decide_eq_false_2, Hage.
Qed.

Lemma cache_dirty_bytes_insert b c idx ls ls' :
  sets c !! idx = Some (mk_set ls) →
  cache_dirty_bytes b (set_sets c (<[idx := mk_set ls']> (sets c)))
  = cache_dirty_bytes b c - set_dirty_bytes b ls + set_dirty_bytes b ls'.
Proof.
  intros Hset. unfold cache_dirty_bytes. simpl.
  rewrite list_fmap_insert. simpl.
  apply sumZ_insert. by rewrite list_lookup_fmap, Hset.
Qed.

Ltac bits_solver :=
  unfold line_bits_ok in *; simpl in *; repeat case_match; intuition lia.

(** Equations between values of [dirty_bytes]: both sides wrap the same
    sum, or the left side is the unchanged counter. *)
Ltac wrap_eq :=
  first
    [ f_equal; lia
    | match goal with
      | H : wrap_ulong ?x = ?x |- ?x = wrap_ulong _ =>
          etransitivity; [symmetry; exact H|f_equal; lia]
      end ].

(** One access moves [dirty_bytes] exactly as it moves the dirty bytes of
    the accessed set, and keeps the bits of its lines in order. *)
Lemma cache_sim_spec_dirty a ls tg E b verbose g set' g' :
  0 ≤ b ≤ 30 → a = "L"%char ∨ a = "S"%char →
  0 ≤ dirty_bytes g < 2 ^ 64 →
  (∀ j l, ls !! j = Some l → line_bits_ok l) →
  cache_sim_spec a ls tg E b verbose g (Some (set', g')) →
  (∀ j l, lines set' !! j = Some l → line_bits_ok l) ∧
  dirty_bytes g' =
    wrap_ulong (dirty_bytes g
                + (set_dirty_bytes b (lines set') - set_dirty_bytes b ls)).
Proof.
  intros Hb Ha Hg Hbits.
  pose proof (wrap_ulong_small _ Hg) as Hsame.
  inversion 1 as [h l Hhit|f l Hhit Hinv|v l Hhit Hinv Hv Hl]; subst; simpl.
  - apply list_find_Some in Hhit as (Hl & [_ Hvalid] & _).
    destruct (Hbits _ _ Hl) as [_ Hd]. split.
    + intros j l' [lj [Hlj ->]]%lookup_touch_Some.
      pose proof (Hbits _ _ Hlj) as Hok. case_bool_decide; [|done].
      simplify_eq. unfold hit_line. bits_solver.
    + rewrite (set_dirty_bytes_touch b h _ _ ls l) by done.
      unfold hit_globals, hit_line, line_dirty_bytes, hit_effect. simpl.
      rewrite block_size_pow, Hvalid by done. simpl.
      destruct Ha as [-> | ->], Hd as [Hd|[Hd _]]; rewrite Hd; simpl;
        destruct verbose; simpl; wrap_eq.
  - apply list_find_Some in Hinv as (Hl & Hinvalid & _).
    red in Hinvalid. destruct (Hbits _ _ Hl) as [_ Hd].
    assert (dirty_bit l = 0) as Hd0 by (destruct Hd as [|[_ ?]]; [done|lia]).
    split.
    + intros j l' [lj [Hlj ->]]%lookup_touch_Some.
      pose proof (Hbits _ _ Hlj) as Hok. case_bool_decide; [|done].
      simplify_eq. unfold fill_line. bits_solver.
    + rewrite (set_dirty_bytes_touch b f _ _ ls l) by done.
      unfold fill_globals, fill_line, line_dirty_bytes, fill_effect,
        miss_effect. simpl.
      rewrite block_size_pow, Hinvalid, Hd0 by done. simpl.
      destruct Ha as [-> | ->]; simpl;
        destruct verbose; simpl; wrap_eq.
  - destruct (Hbits _ _ Hl) as [Hvl Hd].
    assert (valid l = 1) as Hvalid.
    { destruct Hvl as [Hv0|]; [|done].
      apply list_find_None in Hinv.
      by eapply Forall_lookup_1 in Hinv. }
    split.
    + intros j l' [lj [Hlj ->]]%lookup_touch_Some.
      pose proof (Hbits _ _ Hlj) as Hok. case_bool_decide; [|done].
      simplify_eq. unfold evict_line, evict_dirty. bits_solver.
    + rewrite (set_dirty_bytes_touch b v _ _ ls l) by done.
      unfold evict_globals, evict_line, evict_dirty, line_dirty_bytes,
        eviction_effect, miss_effect. simpl.
      rewrite block_size_pow, Hvalid by done. simpl.
      destruct Ha as [-> | ->], Hd as [Hd|[Hd _]]; rewrite Hd; simpl;
        destruct verbose; simpl; wrap_eq.
Qed.

Lemma dirty_inv_step s E b verbose n r c g :
  0 ≤ s ≤ 30 → 0 < E → 0 ≤ b ≤ 30 → 2 ^ s * E * 2 ^ b < 2 ^ 64 →
  is_LS r → wf_cache s E c → dirty_inv b n c g →
  ∃ c' g', access_step s E b verbose r c g = Some (c', g') ∧
           wf_cache s E c' ∧ dirty_inv b (S n) c' g'.
Proof.
  intros Hs HE Hb Hcap Hr Hwf [Hbits Hsum].
  destruct (access_step_line_at s E b verbose r c g Hs HE Hwf)
    as (c' & g' & ls & ls' & Hstep & Hwf' & Hset & Hspec & Hat).
  destruct (access_step_cases s E b verbose r c g Hs HE Hwf)
    as (ls0 & set0 & g0 & Hset0 & _ & _ & Hstep0).
  rewrite Hstep in Hstep0. injection Hstep0 as Hc' _.
  rewrite Hset in Hset0. injection Hset0 as <-.
  exists c', g'. split_and!; try done.
  pose proof (cache_dirty_bytes_range s E b c ltac:(lia) HE ltac:(lia) Hwf)
    as Hrange.
  pose proof (cache_dirty_bytes_range s E b c' ltac:(lia) HE ltac:(lia) Hwf')
    as Hrange'.
  apply cache_sim_spec_dirty in Hspec as [Hbits' Hg']; try done; cycle 1.
  { destruct verbose; simpl; lia. }
  { intros j l Hl.
    apply (Hbits (Z.to_nat (set_index_of s b (address r))) j).
    unfold line_at. by rewrite Hset. }
  split.
  - intros i j l. rewrite Hat. case_decide; [apply Hbits'|apply Hbits].
  - assert (set0 = mk_set ls') as ->.
    { assert (sets c' !! Z.to_nat (set_index_of s b (address r))
              = Some set0) as Hset0.
      { rewrite Hc'. simpl. apply list_lookup_insert_eq.
        by eapply lookup_lt_Some. }
      destruct set0 as [ls0]. f_equal. apply list_eq. intros j.
      specialize (Hat (Z.to_nat (set_index_of s b (address r))) j).
      rewrite decide_True in Hat by done.
      unfold line_at in Hat. by rewrite Hset0 in Hat. }
    rewrite Hc', (cache_dirty_bytes_insert b c _ ls ls' Hset).
    rewrite Hc', (cache_dirty_bytes_insert b c _ ls ls' Hset) in Hrange'.
    rewrite Hg'. simpl in Hg' |- *.
    replace (dirty_bytes (if verbose
                          then put g (PrintfAccess (access_type r)
                                        (address r) (size r))
                          else g))
      with (dirty_bytes g) by (by destruct verbose).
    rewrite Hsum. rewrite wrap_ulong_small by lia. lia.
Qed.

Lemma line_bits_ok_init : line_bits_ok line_init.
Proof. split; by left. Qed.

Lemma cache_dirty_bytes_fresh s E b :
  cache_dirty_bytes b (fresh_cache s E b) = 0.
Proof.
  unfold cache_dirty_bytes, fresh_cache, set_dirty_bytes. simpl.
  rewrite !fmap_replicate. simpl. rewrite fmap_replicate.
  assert (∀ n, sumZ (replicate n 0) = 0) as Hzero.
  { induction n as [|n IH]; [done|]. cbn [replicate sumZ foldr].
    unfold sumZ in IH. lia. }
  change (line_dirty_bytes b line_init) with 0. by rewrite !Hzero.
Qed.

(** C4.  On a freshly constructed cache whose capacity fits in an
    [unsigned long], after every prefix of a well-formed trace
    [dirty_bytes] is the sum of [2 ^ b] over the lines that are valid and
    dirty; it is not negative and does not exceed the capacity
    [2 ^ s * E * 2 ^ b]. *)
Theorem C4_dirty_bytes_conservation malloc_ok s E b verbose trace p cache :
  0 ≤ s ≤ 30 → 0 < E → 0 ≤ b ≤ 30 →
  2 ^ s * E * 2 ^ b < 2 ^ 64 →
  cache_init malloc_ok s E b = inl cache →
  Forall is_LS trace → p `prefix_of` trace →
  ∃ cache' g',
    trace_loop s E b verbose p cache globals_init
    = Some (EndOfTrace cache' g') ∧
    dirty_bytes g' = cache_dirty_bytes b cache' ∧
    0 ≤ dirty_bytes g' ≤ 2 ^ s * E * 2 ^ b.
Proof.
  intros Hs HE Hb Hcap Hinit HLS Hp.
  apply cache_init_inl in Hinit as ->; [|done].
  destruct (trace_loop_invariant (dirty_inv b) s E b verbose
              (λ n r c g, dirty_inv_step s E b verbose n r c g Hs HE Hb Hcap)
              p 0%nat (fresh_cache s E b) globals_init)
    as (c' & g' & Hrun & Hwf & _ & Hsum).
  - by eapply prefix_Forall_LS.
  - apply fresh_cache_wf.
  - split.
    + intros i j l Hl. unfold line_at in Hl. simpl in Hl.
      destruct (replicate _ _ !! i) as [st|] eqn:Hst; simpl in Hl; [|done].
      apply lookup_replicate in Hst as [-> _]. simpl in Hl.
      apply lookup_replicate in Hl as [-> _]. apply line_bits_ok_init.
    + by rewrite cache_dirty_bytes_fresh.
  - exists c', g'. split_and!; [done|done|rewrite Hsum..];
      apply (cache_dirty_bytes_range s E b c'); try done; lia.
Qed.

Lemma C4_dirty_bytes_conservation_witness :
  ∃ cache' g',
    trace_loop 1 2 3 false [St 0; L 0; St 64] (fresh_cache 1 2 3) globals_init
    = Some (EndOfTrace cache' g') ∧
    dirty_bytes g' = cache_dirty_bytes 3 cache' ∧
    0 ≤ dirty_bytes g' ≤ 2 ^ 1 * 2 * 2 ^ 3.
Proof.
  apply (C4_dirty_bytes_conservation (λ _, true) 1 2 3 false
           [St 0; L 0; St 64; St 8] [St 0; L 0; St 64] (fresh_cache 1 2 3)).
  - lia.
  - lia.
  - lia.
  - reflexivity.
  - reflexivity.
  - repeat constructor; (by left) || (by right).
  - by exists [St 8].
Defined.

(** ** The recency counters do not wrap in a run *)

Lemma LRU_bound_inv_step s E b verbose n r c g :
  0 ≤ s ≤ 30 → 0 < E →
  is_LS r → wf_cache s E c → LRU_bound_inv n c g →
  ∃ c' g', access_step s E b verbose r c g = Some (c', g') ∧
           wf_cache s E c' ∧ LRU_bound_inv (S n) c' g'.
Proof.
  intros Hs HE _ Hwf Hinv.
  destruct (access_step_line_at s E b verbose r c g Hs HE Hwf)
    as (c' & g' & ls & ls' & Hstep & Hwf' & Hset & Hspec & Hat).
  exists c', g'. split_and!; try done.
  intros Hn i j l'. rewrite Hat. case_decide as Hi.
  - intros Hl'. pose proof (lookup_lt_Some _ _ _ Hl') as Hj.
    pose proof (cache_sim_spec_length _ _ _ _ _ _ _ _ _ Hspec) as Hlen.
    simpl in Hlen. rewrite Hlen in Hj.
    destruct (lookup_lt_is_Some_2 ls j Hj) as [l Hl].
    destruct (cache_sim_spec_recency _ _ _ _ _ _ _ _ _ Hspec)
      as (touched & _ & _ & Hrec).
    destruct (Hrec j l Hl) as (l'' & Hl'' & Hc). simpl in Hl''. simplify_eq.
    assert (0 ≤ LRU_counter l ≤ 3 * Z.of_nat n) as Hold.
    { apply (Hinv ltac:(lia) (Z.to_nat (set_index_of s b (address r))) j).
      unfold line_at. by rewrite Hset. }
    pose proof (aging_range (outcome_of (tag_of s b (address r)) ls)).
    case_decide; [lia|]. rewrite wrap_ulong_small in Hc by lia. lia.
  - intros Hl'. pose proof (Hinv ltac:(lia) i j l' Hl'). lia.
Qed.

(** In a run of [n] accesses on a freshly constructed cache, with
    [3 * n < 2 ^ 64], every recency counter lies between 0 and [3 * n]. *)
Lemma run_LRU_counter_bound s E b verbose trace :
  0 ≤ s ≤ 30 → 0 < E → Forall is_LS trace →
  3 * Z.of_nat (length trace) < 2 ^ 64 →
  ∃ c' g',
    trace_loop s E b verbose trace (fresh_cache s E b) globals_init
    = Some (EndOfTrace c' g') ∧
    ∀ i j l, line_at c' i j = Some l →
             0 ≤ LRU_counter l ≤ 3 * Z.of_nat (length trace).
Proof.
  intros Hs HE HLS Hlen.
  destruct (trace_loop_invariant LRU_bound_inv s E b verbose
              (λ n r c g, LRU_bound_inv_step s E b verbose n r c g Hs HE)
              trace 0%nat (fresh_cache s E b) globals_init HLS
              (fresh_cache_wf s E b))
    as (c' & g' & Hrun & _ & Hinv).
  - intros _ i j l Hl. unfold line_at in Hl. simpl in Hl.
    destruct (replicate _ _ !! i) as [st|] eqn:Hst; simpl in Hl; [|done].
    apply lookup_replicate in Hst as [-> _]. simpl in Hl.
    apply lookup_replicate in Hl as [-> _]. simpl. lia.
  - exists c', g'. split; [done|]. apply Hinv. simpl. lia.
Qed.

(** * Further properties *)

(** ** Address decoding *)





(** ** Records that the simulator does not tell apart *)




(** ** Invariants that speak of the records processed *)

(** As [trace_loop_invariant], for records that satisfy [R] and an
    invariant [I done c g] of the state reached after the records [done]. *)
Lemma trace_loop_invariant_prefix (R : access → Prop)
    (I : list access → cache_t → globals → Prop) s E b verbose :
  (∀ r, R r → is_LS r) →
  (∀ done r c g, R r → wf_cache s E c → I done c g →
     ∃ c' g', access_step s E b verbose r c g = Some (c', g') ∧
              wf_cache s E c' ∧ I (done ++ [r]) c' g') →
  ∀ trace done c g,
    Forall R trace → wf_cache s E c → I done c g →
    ∃ c' g', trace_loop s E b verbose trace c g = Some (EndOfTrace c' g') ∧
             wf_cache s E c' ∧ I (done ++ trace) c' g'.
Proof.
  intros HR Hstep trace.
  induction trace as [|r trace IH]; intros done c g Htr Hwf HI.
  - exists c, g. simpl. by rewrite app_nil_r.
  - apply Forall_cons in Htr as [Hr Htr].
    destruct (Hstep done r c g Hr Hwf HI) as (c1 & g1 & Hs1 & Hwf1 & HI1).
    destruct (IH (done ++ [r]) c1 g1 Htr Hwf1 HI1)
      as (c' & g' & Hrun & Hwf' & HI').
    exists c', g'. rewrite trace_loop_cons_LS, Hs1 by auto.
    simpl. by rewrite <- app_assoc in HI'.
Qed.

(** A property of the sets that every access carries from the accessed set
    before to the accessed set after holds of every set after the access. *)
Lemma access_step_sets (P P' : list line_t → Prop) s E b (verbose : bool)
    r c g :
  0 ≤ s ≤ 30 → 0 < E → wf_cache s E c →
  (∀ ls, P ls → P' ls) →
  (∀ ls set' g0 g',
     cache_sim_spec (access_type r) ls (tag_of s b (address r)) E b verbose
       g0 (Some (set', g')) →
     P ls → P' (lines set')) →
  (∀ i st, sets c !! i = Some st → P (lines st)) →
  ∃ c' g', access_step s E b verbose r c g = Some (c', g') ∧
           wf_cache s E c' ∧
           ∀ i st, sets c' !! i = Some st → P' (lines st).
Proof.
  intros Hs HE Hwf Hmono Hsim HP.
  destruct (access_step_wf s E b verbose r c g Hs HE Hwf)
    as (c' & g' & Hstep & Hwf').
  destruct (access_step_cases s E b verbose r c g Hs HE Hwf)
    as (ls & set' & g'' & Hset & _ & Hspec & Hstep').
  rewrite Hstep in Hstep'. injection Hstep' as -> <-.
  eexists _, _. split_and!; [done..|].
  intros i st. simpl. rewrite list_lookup_insert. case_decide.
  - intros [= <-]. eapply Hsim; [done|]. by apply (HP _ _ Hset).
  - intros Hst. apply Hmono. by eapply HP.
Qed.

(** ** Invariants of the sets *)

Lemma list_find_None_lookup {A} (P : A → Prop) `{∀ x, Decision (P x)}
    (l : list A) j x :
  list_find P l = None → l !! j = Some x → ¬ P x.
Proof. intros HP%list_find_None Hx. by eapply Forall_lookup_1 in HP. Qed.

Lemma cache_sim_spec_tags_unique a ls tg E b verbose g set' g' :
  cache_sim_spec a ls tg E b verbose g (Some (set', g')) →
  tags_unique ls → tags_unique (lines set').
Proof.
  inversion 1 as [h l Hhit|f l Hhit Hinv|v l Hhit Hinv Hv Hl]; subst; simpl;
    intros Huniq j1 j2 l1' l2'
      [l1 [Hl1 ->]]%lookup_touch_Some [l2 [Hl2 ->]]%lookup_touch_Some.
  - intros Hv1 Hv2 Ht.
    apply (Huniq j1 j2 l1 l2); try done; repeat case_bool_decide; done.
  - pose proof (list_find_None_lookup _ _ _ _ Hhit Hl1) as Hn1.
    pose proof (list_find_None_lookup _ _ _ _ Hhit Hl2) as Hn2.
    unfold is_hit in Hn1, Hn2.
    repeat case_bool_decide; simpl; intros Hv1 Hv2 Ht; subst; try done.
    + destruct Hn2. done.
    + destruct Hn1. done.
    + by apply (Huniq j1 j2 l1 l2).
  - pose proof (list_find_None_lookup _ _ _ _ Hhit Hl1) as Hn1.
    pose proof (list_find_None_lookup _ _ _ _ Hhit Hl2) as Hn2.
    unfold is_hit in Hn1, Hn2.
    repeat case_bool_decide; simpl; intros Hv1 Hv2 Ht; subst; try done.
    + destruct Hn2. done.
    + destruct Hn1. done.
    + by apply (Huniq j1 j2 l1 l2).
Qed.

Lemma cache_sim_spec_valid_prefix a ls tg E b verbose g set' g' :
  cache_sim_spec a ls tg E b verbose g (Some (set', g')) →
  valid_prefix ls → valid_prefix (lines set').
Proof.
  inversion 1 as [h l Hhit|f l Hhit Hinv|v l Hhit Hinv Hv Hl]; subst; simpl;
    intros Hpre j1 j2 l1' l2'
      [l1 [Hl1 ->]]%lookup_touch_Some [l2 [Hl2 ->]]%lookup_touch_Some Hlt.
  - assert (∀ (c : bool) x,
              valid (if c then hit_line a x else incr_LRU_counter x) = valid x)
      as Hsame by (by intros []).
    rewrite !Hsame. exact (Hpre j1 j2 l1 l2 Hl1 Hl2 Hlt).
  - apply list_find_Some in Hinv as (Hlf & _ & Hfirst).
    repeat case_bool_decide; simpl; intros Hv1; subst; try done.
    + destruct (Hfirst j1 l1 Hl1 Hlt). done.
    + by apply (Hpre j1 j2 l1 l2).
  - assert (∀ (c : bool) x,
              valid (if c then evict_line a tg x else age3 x) = valid x)
      as Hsame by (by intros []).
    rewrite !Hsame. exact (Hpre j1 j2 l1 l2 Hl1 Hl2 Hlt).
Qed.

Lemma cache_sim_spec_counters_distinct a ls tg E b verbose g set' g' m :
  m + 3 < 2 ^ 64 →
  cache_sim_spec a ls tg E b verbose g (Some (set', g')) →
  counters_distinct m ls → counters_distinct (m + 3) (lines set').
Proof.
  intros Hm Hspec [Hbound Hdist].
  assert (∀ x, 0 ≤ LRU_counter x ≤ m →
            LRU_counter (incr_LRU_counter x) = LRU_counter x + 1 ∧
            LRU_counter (age2 x) = LRU_counter x + 2 ∧
            LRU_counter (age3 x) = LRU_counter x + 3) as Hage.
  { intros x Hx. split_and!.
    - change (LRU_counter (incr_LRU_counter x))
        with (wrap_ulong (LRU_counter x + 1)).
      apply wrap_ulong_small. lia.
    - rewrite LRU_counter_age2. apply wrap_ulong_small. lia.
    - rewrite LRU_counter_age3. apply wrap_ulong_small. lia. }
  inversion Hspec as [h l Hhit|f l Hhit Hinv|v l Hhit Hinv Hv Hl]; subst;
    simpl lines.
  all: split;
    [ intros j l' [l0 [Hl0 ->]]%lookup_touch_Some;
      pose proof (Hbound _ _ Hl0) as Hb0;
      destruct (Hage l0 Hb0) as (H1 & H2 & H3);
      case_bool_decide; rewrite ?H1, ?H2, ?H3; simpl; lia
    | intros j1 j2 l1' l2'
        [l1 [Hl1 ->]]%lookup_touch_Some [l2 [Hl2 ->]]%lookup_touch_Some;
      pose proof (Hbound _ _ Hl1) as Hb1; pose proof (Hbound _ _ Hl2) as Hb2;
      destruct (Hage l1 Hb1) as (H11 & H12 & H13);
      destruct (Hage l2 Hb2) as (H21 & H22 & H23);
      repeat case_bool_decide; subst; try done;
      rewrite ?H11, ?H12, ?H13, ?H21, ?H22, ?H23;
      intros Hv1 Hv2 Hc; simpl in Hc; try lia;
      apply (Hdist j1 j2 l1 l2); try done; lia ].
Qed.

(** A property of a set after [n] accesses to the cache that holds of the
    sets of a new cache and that every access preserves holds of every set
    after a run. *)
Lemma run_sets_invariant (P : nat → list line_t → Prop) malloc_ok s E b
    verbose trace cache :
  0 ≤ s ≤ 30 → 0 < E →
  P 0%nat (replicate (Z.to_nat E) line_init) →
  (∀ n ls, P n ls → P (S n) ls) →
  (∀ n a ls tg g0 set' g',
     cache_sim_spec a ls tg E b verbose g0 (Some (set', g')) →
     P n ls → P (S n) (lines set')) →
  cache_init malloc_ok s E b = inl cache →
  Forall is_LS trace →
  ∃ c' g',
    trace_loop s E b verbose trace cache globals_init
    = Some (EndOfTrace c' g') ∧
    ∀ i st, sets c' !! i = Some st → P (length trace) (lines st).
Proof.
  intros Hs HE H0 Hmono Hsim Hinit HLS.
  apply cache_init_inl in Hinit as ->; [|done].
  destruct (trace_loop_invariant
              (λ n c g, ∀ i st, sets c !! i = Some st → P n (lines st))
              s E b verbose) with (trace := trace) (n := 0%nat)
              (c := fresh_cache s E b) (g := globals_init)
    as (c' & g' & Hrun & _ & HP); try done.
  - intros n r c g _ Hwf HP.
    apply (access_step_sets (P n) (P (S n))); eauto.
  - apply fresh_cache_wf.
  - intros i st [-> _]%lookup_replicate. done.
  - eauto.
Qed.

(** X4.  After any run of Loads and Stores from a fresh cache, no two valid
    lines of a set hold the same tag: a block is cached at most once. *)
Theorem run_tags_unique malloc_ok s E b verbose trace cache :
  0 ≤ s ≤ 30 → 0 < E →
  cache_init malloc_ok s E b = inl cache →
  Forall is_LS trace →
  ∃ c' g',
    trace_loop s E b verbose trace cache globals_init
    = Some (EndOfTrace c' g') ∧
    ∀ i st j1 j2 l1 l2,
      sets c' !! i = Some st →
      lines st !! j1 = Some l1 → lines st !! j2 = Some l2 →
      valid l1 = 1 → valid l2 = 1 → tag l1 = tag l2 → j1 = j2.
Proof.
  intros Hs HE Hinit HLS.
  destruct (run_sets_invariant (λ _, tags_unique) malloc_ok s E b verbose
              trace cache Hs HE) as (c' & g' & Hrun & HP); try done.
  - intros j1 j2 l1 l2 [-> _]%lookup_replicate _ Hv. discriminate Hv.
  - intros n a ls tg g0 set' g'. apply cache_sim_spec_tags_unique.
  - exists c', g'. split; [done|]. intros i st j1 j2 l1 l2 Hst.
    apply (HP i st Hst).
Qed.

Lemma run_tags_unique_witness :
  ∃ c' g',
    trace_loop 1 2 0 false [L 0; St 2; L 4; L 1] (fresh_cache 1 2 0)
      globals_init
    = Some (EndOfTrace c' g') ∧
    ∀ i st j1 j2 l1 l2,
      sets c' !! i = Some st →
      lines st !! j1 = Some l1 → lines st !! j2 = Some l2 →
      valid l1 = 1 → valid l2 = 1 → tag l1 = tag l2 → j1 = j2.
Proof.
  apply (run_tags_unique (λ _, true) 1 2 0 false [L 0; St 2; L 4; L 1]
           (fresh_cache 1 2 0)).
  - lia.
  - lia.
  - reflexivity.
  - repeat constructor; (by left) || (by right).
Defined.

(** X5.  After any run of Loads and Stores from a fresh cache, the valid
    lines of a set come before its invalid lines: every line that follows
    an invalid line is invalid (a set fills from index 0 on). *)
Theorem run_valid_prefix malloc_ok s E b verbose trace cache :
  0 ≤ s ≤ 30 → 0 < E →
  cache_init malloc_ok s E b = inl cache →
  Forall is_LS trace →
  ∃ c' g',
    trace_loop s E b verbose trace cache globals_init
    = Some (EndOfTrace c' g') ∧
    ∀ i st j1 j2 l1 l2,
      sets c' !! i = Some st →
      lines st !! j1 = Some l1 → lines st !! j2 = Some l2 →
      (j1 < j2)%nat → valid l1 = 0 → valid l2 = 0.
Proof.
  intros Hs HE Hinit HLS.
  destruct (run_sets_invariant (λ _, valid_prefix) malloc_ok s E b verbose
              trace cache Hs HE) as (c' & g' & Hrun & HP); try done.
  - by intros j1 j2 l1 l2 _ [-> _]%lookup_replicate.
  - intros n a ls tg g0 set' g'. apply cache_sim_spec_valid_prefix.
  - exists c', g'. split; [done|]. intros i st j1 j2 l1 l2 Hst.
    apply (HP i st Hst).
Qed.

Lemma run_valid_prefix_witness :
  ∃ c' g',
    trace_loop 1 2 0 false [L 0; St 2; L 4; L 1] (fresh_cache 1 2 0)
      globals_init
    = Some (EndOfTrace c' g') ∧
    ∀ i st j1 j2 l1 l2,
      sets c' !! i = Some st →
      lines st !! j1 = Some l1 → lines st !! j2 = Some l2 →
      (j1 < j2)%nat → valid l1 = 0 → valid l2 = 0.
Proof.
  apply (run_valid_prefix (λ _, true) 1 2 0 false [L 0; St 2; L 4; L 1]
           (fresh_cache 1 2 0)).
  - lia.
  - lia.
  - reflexivity.
  - repeat constructor; (by left) || (by right).
Defined.

Lemma counters_distinct_mono m m' ls :
  m ≤ m' → counters_distinct m ls → counters_distinct m' ls.
Proof.
  intros Hm [Hbound Hdist]. split; [|done].
  intros j l Hl. pose proof (Hbound j l Hl). lia.
Qed.

(** X16.  After any run of [n] Loads and Stores from a fresh cache with
    [3 * n < 2^64], the valid lines of a set have pairwise distinct recency
    counters: the recency order of the cached blocks of a set is strict. *)
Theorem run_counters_distinct malloc_ok s E b verbose trace cache :
  0 ≤ s ≤ 30 → 0 < E →
  cache_init malloc_ok s E b = inl cache →
  Forall is_LS trace →
  3 * Z.of_nat (length trace) < 2 ^ 64 →
  ∃ c' g',
    trace_loop s E b verbose trace cache globals_init
    = Some (EndOfTrace c' g') ∧
    ∀ i st j1 j2 l1 l2,
      sets c' !! i = Some st →
      lines st !! j1 = Some l1 → lines st !! j2 = Some l2 →
      valid l1 = 1 → valid l2 = 1 →
      LRU_counter l1 = LRU_counter l2 → j1 = j2.
Proof.
  intros Hs HE Hinit HLS Hlen.
  destruct (run_sets_invariant
              (λ n ls, 3 * Z.of_nat n < 2 ^ 64 →
                       counters_distinct (3 * Z.of_nat n) ls)
              malloc_ok s E b verbose trace cache Hs HE)
    as (c' & g' & Hrun & HP); try done.
  - intros _. split.
    + intros j l [-> _]%lookup_replicate. simpl. lia.
    + intros j1 j2 l1 l2 [-> _]%lookup_replicate _ Hv. discriminate Hv.
  - intros n ls HP Hn.
    apply (counters_distinct_mono (3 * Z.of_nat n)); [lia|]. apply HP. lia.
  - intros n a ls tg g0 set' g' Hspec HP Hn.
    replace (3 * Z.of_nat (S n)) with (3 * Z.of_nat n + 3) by lia.
    eapply cache_sim_spec_counters_distinct; [lia|done|]. apply HP. lia.
  - exists c', g'. split; [done|]. intros i st j1 j2 l1 l2 Hst.
    apply (HP i st Hst Hlen).
Qed.

Lemma run_counters_distinct_witness :
  ∃ c' g',
    trace_loop 0 3 0 false [L 0; L 1; L 2; L 3; L 1] (fresh_cache 0 3 0)
      globals_init
    = Some (EndOfTrace c' g') ∧
    ∀ i st j1 j2 l1 l2,
      sets c' !! i = Some st →
      lines st !! j1 = Some l1 → lines st !! j2 = Some l2 →
      valid l1 = 1 → valid l2 = 1 →
      LRU_counter l1 = LRU_counter l2 → j1 = j2.
Proof.
  apply (run_counters_distinct (λ _, true) 0 3 0 false
           [L 0; L 1; L 2; L 3; L 1] (fresh_cache 0 3 0)).
  - lia.
  - lia.
  - reflexivity.
  - repeat constructor; (by left) || (by right).
  - simpl. lia.
Defined.

(** ** Sums over the lines of the cache *)

Lemma set_weight_touch w h f age ls l :
  (∀ x, w (age x) = w x) →
  ls !! h = Some l →
  set_weight w (touch h f age ls) = set_weight w ls - w l + w (f l).
Proof.
  intros Hage Hl. unfold set_weight.
  rewrite <- (sumZ_insert _ h) by (by rewrite list_lookup_fmap, Hl).
  f_equal. apply list_eq. intros j.
  rewrite list_lookup_insert, !list_lookup_fmap, lookup_touch, length_fmap.
  apply lookup_lt_Some in Hl as Hh.
  destruct (decide (j = h)) as [->|Hne].
  - rewrite Hl. simpl. rewrite bool_decide_eq_true_2 by done.
    by rewrite decide_True.
  - rewrite decide_False by (intros [? _]; done).
    destruct (ls !! j); simpl; [|done].
    by rewrite bool_decide_eq_false_2, Hage.
Qed.

Lemma cache_weight_insert w c idx ls set' :
  sets c !! idx = Some (mk_set ls) →
  cache_weight w (set_sets c (<[idx := set']> (sets c)))
  = cache_weight w c - set_weight w ls + set_weight w (lines set').
Proof.
  intros Hset. unfold cache_weight. simpl.
  rewrite list_fmap_insert.
  apply sumZ_insert. by rewrite list_lookup_fmap, Hset.
Qed.

Lemma cache_weight_range w m s E c :
  0 ≤ s → 0 < E → 0 ≤ m → (∀ l, 0 ≤ w l ≤ m) → wf_cache s E c →
  0 ≤ cache_weight w c ≤ 2 ^ s * E * m.
Proof.
  intros Hs HE Hm Hw [Hlen Hsets]. unfold cache_weight.
  pose proof (Z.pow_pos_nonneg 2 s ltac:(lia) Hs).
  pose proof (sumZ_bound (E * m)
                ((λ st, set_weight w (lines st)) <$> sets c)) as Hsum.
  rewrite length_fmap, Hlen in Hsum. rewrite Z2Nat.id in Hsum by lia.
  rewrite Z.mul_assoc in Hsum. apply Hsum.
  apply Forall_fmap, Forall_lookup. intros i st Hst. simpl.
  pose proof (sumZ_bound m (w <$> lines st)) as Hr.
  rewrite length_fmap, (Hsets _ _ Hst), Z2Nat.id in Hr by lia.
  apply Hr, Forall_fmap, Forall_forall. intros l _. apply Hw.
Qed.

Lemma cache_weight_fresh w s E b :
  w line_init = 0 → cache_weight w (fresh_cache s E b) = 0.
Proof.
  intros Hw. unfold cache_weight, fresh_cache, set_weight. simpl.
  rewrite !fmap_replicate. simpl. rewrite fmap_replicate, Hw.
  assert (∀ n, sumZ (replicate n 0) = 0) as Hzero.
  { induction n as [|n IH]; [done|]. cbn [replicate sumZ foldr].
    unfold sumZ in IH. lia. }
  by rewrite !Hzero.
Qed.

(** Only a miss that fills an invalid line changes the number of valid
    lines of the set. *)
Lemma cache_sim_spec_valid_lines a ls tg E b verbose g set' g' :
  cache_sim_spec a ls tg E b verbose g (Some (set', g')) →
  set_weight (λ l, if valid l =? 1 then 1 else 0) (lines set')
  = set_weight (λ l, if valid l =? 1 then 1 else 0) ls
    + match outcome_of tg ls with MissNoEvict => 1 | _ => 0 end.
Proof.
  unfold outcome_of.
  inversion 1 as [h l Hhit|f l Hhit Hinv|v l Hhit Hinv Hv Hl]; subst;
    rewrite Hhit, ?Hinv; simpl.
  - apply list_find_Some in Hhit as (Hl & _).
    rewrite (set_weight_touch _ h _ _ ls l) by done. simpl. lia.
  - apply list_find_Some in Hinv as (Hl & Hinvalid & _). red in Hinvalid.
    rewrite (set_weight_touch _ f _ _ ls l) by done. simpl.
    rewrite Hinvalid. simpl. lia.
  - rewrite (set_weight_touch _ v _ _ ls l) by done. simpl. lia.
Qed.

Lemma valid_lines_inv_step s E b verbose n r c g :
  0 ≤ s ≤ 30 → 0 < E →
  is_LS r → wf_cache s E c → valid_lines_inv n c g →
  ∃ c' g', access_step s E b verbose r c g = Some (c', g') ∧
           wf_cache s E c' ∧ valid_lines_inv (S n) c' g'.
Proof.
  intros Hs HE _ Hwf Hinv.
  destruct (access_step_wf s E b verbose r c g Hs HE Hwf)
    as (c' & g' & Hstep & Hwf').
  exists c', g'. split_and!; try done.
  destruct (access_step_cases s E b verbose r c g Hs HE Hwf)
    as (ls & set' & g'' & Hset & _ & Hspec & Hstep').
  rewrite Hstep in Hstep'. injection Hstep' as -> <-.
  intros Hn. destruct Hinv as (He & Hm & Hval); [lia|].
  unfold valid_lines in *.
  rewrite (cache_weight_insert _ c _ ls set' Hset).
  rewrite (cache_sim_spec_valid_lines _ _ _ _ _ _ _ _ _ Hspec).
  apply cache_sim_spec_outcome in Hspec.
  assert (∀ x, 0 ≤ x ≤ Z.of_nat n → wrap_ulong (x + 1) = x + 1) as Hw.
  { intros x Hx. apply wrap_ulong_small. lia. }
  destruct (outcome_of _ _); destruct verbose; simpl in Hspec;
    destruct Hspec as (_ & -> & ->); rewrite ?Hw by lia; lia.
Qed.

(** X6.  After any run of Loads and Stores from a fresh cache (of fewer
    than [2^64] records), [miss - eviction] is the number of valid lines of
    the cache; it lies between 0 and the number [2^s * E] of lines. *)
Theorem run_valid_lines malloc_ok s E b verbose trace cache :
  0 ≤ s ≤ 30 → 0 < E →
  cache_init malloc_ok s E b = inl cache →
  Forall is_LS trace →
  Z.of_nat (length trace) < 2 ^ 64 →
  ∃ c' g',
    trace_loop s E b verbose trace cache globals_init
    = Some (EndOfTrace c' g') ∧
    miss g' - eviction g' = valid_lines c' ∧
    0 ≤ miss g' - eviction g' ≤ 2 ^ s * E.
Proof.
  intros Hs HE Hinit HLS Hlen.
  apply cache_init_inl in Hinit as ->; [|done].
  destruct (trace_loop_invariant valid_lines_inv s E b verbose
              (λ n r c g, valid_lines_inv_step s E b verbose n r c g Hs HE)
              trace 0%nat (fresh_cache s E b) globals_init HLS
              (fresh_cache_wf s E b))
    as (c' & g' & Hrun & Hwf & Hinv).
  - intros _. unfold valid_lines. rewrite cache_weight_fresh by done.
    simpl. lia.
  - exists c', g'. split; [done|].
    destruct Hinv as (_ & _ & ->); [simpl; lia|]. split; [done|].
    pose proof (cache_weight_range (λ l, if valid l =? 1 then 1 else 0) 1
                  s E c' ltac:(lia) HE ltac:(lia)) as Hr.
    unfold valid_lines. rewrite Z.mul_1_r in Hr. apply Hr; [|done].
    intros l. case_match; lia.
Qed.

Lemma run_valid_lines_witness :
  ∃ c' g',
    trace_loop 1 2 0 false [L 0; St 2; L 4; L 1] (fresh_cache 1 2 0)
      globals_init
    = Some (EndOfTrace c' g') ∧
    miss g' - eviction g' = valid_lines c' ∧
    0 ≤ miss g' - eviction g' ≤ 2 ^ 1 * 2.
Proof.
  apply (run_valid_lines (λ _, true) 1 2 0 false [L 0; St 2; L 4; L 1]
           (fresh_cache 1 2 0)).
  - lia.
  - lia.
  - reflexivity.
  - repeat constructor; (by left) || (by right).
  - simpl. lia.
Defined.

(** ** Loads never dirty the cache *)

Lemma cache_sim_spec_load ls tg E b verbose g set' g' :
  cache_sim_spec "L" ls tg E b verbose g (Some (set', g')) →
  (∀ j l, ls !! j = Some l → dirty_bit l = 0) →
  (∀ j l, lines set' !! j = Some l → dirty_bit l = 0) ∧
  dirty_bytes g' = dirty_bytes g ∧ dirty_evictions g' = dirty_evictions g.
Proof.
  inversion 1 as [h l Hhit|f l Hhit Hinv|v l Hhit Hinv Hv Hl]; subst; simpl;
    intros Hclean.
  - split.
    + intros j l' [l0 [Hl0 ->]]%lookup_touch_Some.
      pose proof (Hclean _ _ Hl0). by case_bool_decide.
    + by destruct verbose.
  - split.
    + intros j l' [l0 [Hl0 ->]]%lookup_touch_Some.
      pose proof (Hclean _ _ Hl0). by case_bool_decide.
    + by destruct verbose.
  - pose proof (Hclean _ _ Hl) as Hd. split.
    + intros j l' [l0 [Hl0 ->]]%lookup_touch_Some.
      pose proof (Hclean _ _ Hl0) as Hd0. case_bool_decide; [|done].
      unfold evict_line, evict_dirty. simpl. by rewrite Hd0.
    + unfold evict_globals. rewrite Hd. by destruct verbose.
Qed.

Lemma load_only_inv_step s E b verbose done r c g :
  0 ≤ s ≤ 30 → 0 < E →
  is_load r → wf_cache s E c → load_only_inv done c g →
  ∃ c' g', access_step s E b verbose r c g = Some (c', g') ∧
           wf_cache s E c' ∧ load_only_inv (done ++ [r]) c' g'.
Proof.
  intros Hs HE Hr Hwf (Hclean & Hdb & Hde).
  destruct (access_step_wf s E b verbose r c g Hs HE Hwf)
    as (c' & g' & Hstep & Hwf').
  exists c', g'. split_and!; try done.
  destruct (access_step_cases s E b verbose r c g Hs HE Hwf)
    as (ls & set' & g'' & Hset & _ & Hspec & Hstep').
  rewrite Hstep in Hstep'. injection Hstep' as -> <-.
  red in Hr. rewrite Hr in Hspec.
  apply cache_sim_spec_load in Hspec as (Hclean' & Hdb' & Hde');
    [|intros j l Hl; by apply (Hclean _ _ j l Hset)].
  split_and!.
  - intros i st j l. simpl. rewrite list_lookup_insert. case_decide.
    + intros [= <-]. apply Hclean'.
    + apply Hclean.
  - rewrite Hdb'. by destruct verbose.
  - rewrite Hde'. by destruct verbose.
Qed.

(** X8.  Loads never make the cache dirty: after any run of Loads from a
    fresh cache, [dirty_bytes] and [dirty_evictions] are 0 and the dirty
    bit of every line is 0. *)
Theorem load_only_run_is_clean malloc_ok s E b verbose trace cache :
  0 ≤ s ≤ 30 → 0 < E →
  cache_init malloc_ok s E b = inl cache →
  Forall is_load trace →
  ∃ c' g',
    trace_loop s E b verbose trace cache globals_init
    = Some (EndOfTrace c' g') ∧
    dirty_bytes g' = 0 ∧ dirty_evictions g' = 0 ∧
    ∀ i st j l, sets c' !! i = Some st → lines st !! j = Some l →
                dirty_bit l = 0.
Proof.
  intros Hs HE Hinit Hloads.
  apply cache_init_inl in Hinit as ->; [|done].
  destruct (trace_loop_invariant_prefix is_load load_only_inv s E b verbose)
    with (trace := trace) (done := @nil access) (c := fresh_cache s E b)
         (g := globals_init)
    as (c' & g' & Hrun & _ & Hclean & Hdb & Hde); try done.
  - intros r Hr. by left.
  - intros done r c g. by apply load_only_inv_step.
  - apply fresh_cache_wf.
  - split; [|done].
    intros i st j l [-> _]%lookup_replicate [-> _]%lookup_replicate. done.
  - by exists c', g'.
Qed.

Lemma load_only_run_is_clean_witness :
  ∃ c' g',
    trace_loop 1 1 0 false [L 0; L 1; L 2; L 0] (fresh_cache 1 1 0)
      globals_init
    = Some (EndOfTrace c' g') ∧
    dirty_bytes g' = 0 ∧ dirty_evictions g' = 0 ∧
    ∀ i st j l, sets c' !! i = Some st → lines st !! j = Some l →
                dirty_bit l = 0.
Proof.
  apply (load_only_run_is_clean (λ _, true) 1 1 0 false [L 0; L 1; L 2; L 0]
           (fresh_cache 1 1 0)).
  - lia.
  - lia.
  - reflexivity.
  - by repeat constructor.
Defined.

(** ** The block just accessed is resident *)




(** ** The verbose flag *)

Lemma cache_sim_spec_verbose a ls tg E b v1 v2 g1 g2 set1 set2 g1' g2' :
  cache_sim_spec a ls tg E b v1 g1 (Some (set1, g1')) →
  cache_sim_spec a ls tg E b v2 g2 (Some (set2, g2')) →
  counters g1 = counters g2 →
  set1 = set2 ∧ counters g1' = counters g2'.
Proof.
  unfold counters. intros H1 H2 [= Hh Hm He Hdb Hde].
  inversion H1 as [h l Hhit|f l Hhit Hinv|v l Hhit Hinv Hv Hl];
    inversion H2 as [h' l' Hhit'|f' l' Hhit' Hinv'|v' l' Hhit' Hinv' Hv' Hl'];
    simplify_eq; split; try done;
    unfold hit_globals, fill_globals, evict_globals, hit_effect, fill_effect,
      eviction_effect, miss_effect;
    destruct v1, v2; repeat case_match; simpl; congruence.
Qed.

Lemma trace_loop_verbose s E b trace c g1 g2 :
  0 ≤ s ≤ 30 → 0 < E → wf_cache s E c → counters g1 = counters g2 →
  ∃ r1 r2,
    trace_loop s E b true trace c g1 = Some r1 ∧
    trace_loop s E b false trace c g2 = Some r2 ∧
    result_state r1 = result_state r2.
Proof.
  intros Hs HE. revert c g1 g2.
  induction trace as [|r trace IH]; intros c g1 g2 Hwf Hg.
  - eexists _, _. split_and!; [done..|]. simpl. by rewrite Hg.
  - destruct (decide (is_LS r)) as [Hr|Hr].
    + destruct (access_step_wf s E b true r c g1 Hs HE Hwf)
        as (c1 & g1' & Hstep1 & Hwf1).
      destruct (access_step_cases s E b true r c g1 Hs HE Hwf)
        as (ls & set1 & ? & Hset & _ & Hspec1 & Hstep1').
      destruct (access_step_cases s E b false r c g2 Hs HE Hwf)
        as (ls' & set2 & g2' & Hset' & _ & Hspec2 & Hstep2).
      rewrite Hstep1 in Hstep1'. injection Hstep1' as -> <-.
      rewrite Hset in Hset'. injection Hset' as <-.
      destruct (cache_sim_spec_verbose _ _ _ _ _ _ _ _ _ _ _ _ _ Hspec1 Hspec2)
        as [<- Hg']; [done|].
      destruct (IH _ g1' g2' Hwf1 Hg') as (r1 & r2 & Hr1 & Hr2 & Heq).
      exists r1, r2. rewrite !trace_loop_cons_LS, Hstep1, Hstep2 by done.
      done.
    + rewrite !trace_loop_cons_bad by done.
      eexists _, _. split_and!; [done..|]. simpl. f_equal.
      unfold counters in *. simpl. done.
Qed.

(** X14.  The flag [verbose] changes the output only: on a well-formed
    cache the trace loop ends with and without the flag, in the same way
    (end of the trace or error), with the same cache and the same five
    counters. *)
Theorem verbose_changes_only_output s E b trace c g :
  0 ≤ s ≤ 30 → 0 < E → wf_cache s E c →
  ∃ r1 r2,
    trace_loop s E b true trace c g = Some r1 ∧
    trace_loop s E b false trace c g = Some r2 ∧
    result_state r1 = result_state r2.
Proof. intros Hs HE Hwf. by apply trace_loop_verbose. Qed.

Lemma verbose_changes_only_output_witness :
  ∃ r1 r2,
    trace_loop 1 2 0 true [L 0; St 2; mk_access "I" 4 1; L 1]
      (fresh_cache 1 2 0) globals_init = Some r1 ∧
    trace_loop 1 2 0 false [L 0; St 2; mk_access "I" 4 1; L 1]
      (fresh_cache 1 2 0) globals_init = Some r2 ∧
    result_state r1 = result_state r2.
Proof.
  apply (verbose_changes_only_output 1 2 0); [lia|lia|apply fresh_cache_wf].
Defined.

(** ** The victim in sets of one or two lines *)

(** X9.  In a set of one or two lines the third loop of [cache_sim] does
    choose a line with the greatest recency counter, and the one of lowest
    index among the lines that have it: comparing with line 0 only differs
    from keeping the running maximum from three lines on. *)
Theorem select_victim_small_sets E ls :
  length ls = Z.to_nat E → 1 ≤ E ≤ 2 →
  ∃ v lv,
    select_victim E ls = Some v ∧ ls !! v = Some lv ∧
    ∀ j l, ls !! j = Some l →
      LRU_counter l ≤ LRU_counter lv ∧
      (LRU_counter l = LRU_counter lv → (v ≤ j)%nat).
Proof.
  intros Hlen HE.
  assert (E = 1 ∨ E = 2) as [-> | ->] by lia.
  - destruct ls as [|l0 [|]]; try discriminate Hlen.
    exists 0%nat, l0. split; [reflexivity|split; [reflexivity|]].
    intros [|j] l Hl; simplify_eq/=. split; lia.
  - destruct ls as [|l0 [|l1 [|]]]; try discriminate Hlen.
    unfold select_victim.
    change (Z.to_nat 2 - 1)%nat with 1%nat. cbn.
    destruct (Z.gtb_spec (LRU_counter l1) (LRU_counter l0)).
    + exists 1%nat, l1. split; [reflexivity|split; [reflexivity|]].
      intros [|[|j]] l Hl; simplify_eq/=; split; lia.
    + exists 0%nat, l0. split; [reflexivity|split; [reflexivity|]].
      intros [|[|j]] l Hl; simplify_eq/=; split; lia.
Qed.

Lemma select_victim_small_sets_witness :
  ∃ v lv,
    select_victim 2 [mk_line 1 0 5 4; mk_line 1 0 6 4] = Some v ∧
    [mk_line 1 0 5 4; mk_line 1 0 6 4] !! v = Some lv ∧
    ∀ j l, [mk_line 1 0 5 4; mk_line 1 0 6 4] !! j = Some l →
      LRU_counter l ≤ LRU_counter lv ∧
      (LRU_counter l = LRU_counter lv → (v ≤ j)%nat).
Proof.
  apply (select_victim_small_sets 2 [mk_line 1 0 5 4; mk_line 1 0 6 4]).
  - reflexivity.
  - lia.
Defined.

(** ** [cache_init] *)

Lemma cache_init_sets_spec malloc_ok n i E :
  cache_init_sets malloc_ok n i E =
  if forallb malloc_ok (seq (2 + i) n)
  then Some (replicate n (mk_set (replicate (Z.to_nat E) line_init)))
  else None.
Proof.
  revert i. induction n as [|n IH]; intros i; [done|].
  cbn [cache_init_sets seq forallb].
  destruct (malloc_ok (2 + i)%nat); [|done]. simpl.
  rewrite IH. replace (S (S (S i))) with (2 + S i)%nat by lia.
  by destruct (forallb _ _).
Qed.

(** X3.  The result of [cache_init] in closed form: the first allocation
    that fails decides the message (the cache, then the array of sets, then
    the lines of the sets in order), and when the [2 + 2^s] allocations
    succeed the cache has [2^s] sets of [E] lines, each invalid and clean
    with tag 0 and recency counter 0. *)
Theorem cache_init_result malloc_ok s E b :
  0 ≤ s ≤ 30 →
  cache_init malloc_ok s E b =
    if negb (malloc_ok 0%nat) then inr "Malloc for cache failed\n"%string
    else if negb (malloc_ok 1%nat) then inr "Malloc for set failed\n"%string
    else if forallb malloc_ok (seq 2 (Z.to_nat (2 ^ s)))
    then inl (mk_cache s E b
               (replicate (Z.to_nat (2 ^ s))
                  (mk_set (replicate (Z.to_nat E) (mk_line 0 0 0 0)))))
    else inr "Malloc for line failed\n"%string.
Proof.
  intros Hs. unfold cache_init.
  destruct (malloc_ok 0%nat); [|done]. destruct (malloc_ok 1%nat); [|done].
  simpl. rewrite cache_init_sets_spec, shl1_int_pow by done.
  by destruct (forallb _ _).
Qed.

Lemma cache_init_result_witness :
  cache_init (λ k, bool_decide (k ≠ 3%nat)) 1 2 0 =
    if negb (bool_decide (0%nat ≠ 3%nat))
    then inr "Malloc for cache failed\n"%string
    else if negb (bool_decide (1%nat ≠ 3%nat))
    then inr "Malloc for set failed\n"%string
    else if forallb (λ k, bool_decide (k ≠ 3%nat)) (seq 2 (Z.to_nat (2 ^ 1)))
    then inl (mk_cache 1 2 0
               (replicate (Z.to_nat (2 ^ 1))
                  (mk_set (replicate (Z.to_nat 2) (mk_line 0 0 0 0)))))
    else inr "Malloc for line failed\n"%string.
Proof. apply (cache_init_result (λ k, bool_decide (k ≠ 3%nat)) 1 2 0). lia. Defined.

(** ** Dirty bytes and the Stores of the trace *)

Lemma stores_snoc t r :
  stores (t ++ [r]) = stores t + (if is_char (access_type r) "S" then 1 else 0).
Proof.
  unfold stores, is_char. rewrite filter_app, length_app, Nat2Z.inj_add.
  f_equal. rewrite filter_cons, filter_nil.
  case_decide as HS.
  - by rewrite bool_decide_eq_true_2.
  - by rewrite bool_decide_eq_false_2.
Qed.

(** What one access adds to [dirty_evictions], against what it adds to the
    dirty bytes of the accessed set: together at most one block, and
    nothing unless the access is a Store. *)
Lemma cache_sim_spec_traffic a ls tg E b verbose g set' g' :
  0 ≤ b ≤ 30 → a = "L"%char ∨ a = "S"%char →
  0 ≤ dirty_evictions g < 2 ^ 64 →
  (∀ j l, ls !! j = Some l → line_bits_ok l) →
  cache_sim_spec a ls tg E b verbose g (Some (set', g')) →
  ∃ dE,
    dirty_evictions g' = wrap_ulong (dirty_evictions g + dE) ∧ 0 ≤ dE ∧
    set_dirty_bytes b (lines set') - set_dirty_bytes b ls + dE
    ≤ (if is_char a "S" then 2 ^ b else 0).
Proof.
  intros Hb Ha Hg Hbits.
  pose proof (wrap_ulong_small _ Hg) as Hsame.
  pose proof (pow2_le_30 b Hb) as Hpow.
  inversion 1 as [h l Hhit|f l Hhit Hinv|v l Hhit Hinv Hv Hl]; subst; simpl.
  - apply list_find_Some in Hhit as (Hl & [_ Hvalid] & _).
    destruct (Hbits _ _ Hl) as [_ Hd].
    rewrite (set_dirty_bytes_touch b h _ _ ls l) by done.
    exists 0. rewrite Z.add_0_r, Hsame.
    unfold hit_globals, hit_line, line_dirty_bytes, hit_effect. simpl.
    rewrite Hvalid. simpl.
    destruct Ha as [-> | ->], Hd as [Hd|[Hd _]]; rewrite Hd; simpl;
      destruct verbose; simpl; split_and!; try done; lia.
  - apply list_find_Some in Hinv as (Hl & Hinvalid & _).
    red in Hinvalid. destruct (Hbits _ _ Hl) as [_ Hd].
    assert (dirty_bit l = 0) as Hd0 by (destruct Hd as [|[_ ?]]; [done|lia]).
    rewrite (set_dirty_bytes_touch b f _ _ ls l) by done.
    exists 0. rewrite Z.add_0_r, Hsame.
    unfold fill_globals, fill_line, line_dirty_bytes, fill_effect,
      miss_effect. simpl.
    rewrite Hinvalid, Hd0. simpl.
    destruct Ha as [-> | ->]; simpl;
      destruct verbose; simpl; split_and!; try done; lia.
  - destruct (Hbits _ _ Hl) as [Hvl Hd].
    assert (valid l = 1) as Hvalid.
    { destruct Hvl as [Hv0|]; [|done].
      apply list_find_None in Hinv.
      by eapply Forall_lookup_1 in Hinv. }
    rewrite (set_dirty_bytes_touch b v _ _ ls l) by done.
    unfold evict_globals, evict_line, evict_dirty, line_dirty_bytes,
      eviction_effect, miss_effect. simpl.
    rewrite block_size_pow, Hvalid by done. simpl.
    destruct Ha as [-> | ->], Hd as [Hd|[Hd _]]; rewrite Hd; simpl.
    + exists 0. rewrite Z.add_0_r, Hsame.
      destruct verbose; simpl; split_and!; try done; lia.
    + exists (2 ^ b). destruct verbose; simpl; split_and!; try done; lia.
    + exists 0. rewrite Z.add_0_r, Hsame.
      destruct verbose; simpl; split_and!; try done; lia.
    + exists (2 ^ b). destruct verbose; simpl; split_and!; try done; lia.
Qed.

Lemma stores_nonneg t : 0 ≤ stores t.
Proof. unfold stores. lia. Qed.

Lemma traffic_inv_step s E b verbose done r c g :
  0 ≤ s ≤ 30 → 0 < E → 0 ≤ b ≤ 30 → 2 ^ s * E * 2 ^ b < 2 ^ 64 →
  is_LS r → wf_cache s E c → traffic_inv b done c g →
  ∃ c' g', access_step s E b verbose r c g = Some (c', g') ∧
           wf_cache s E c' ∧ traffic_inv b (done ++ [r]) c' g'.
Proof.
  intros Hs HE Hb Hcap Hr Hwf [Hdirty Htraffic].
  destruct (dirty_inv_step s E b verbose 0 r c g Hs HE Hb Hcap Hr Hwf Hdirty)
    as (c' & g' & Hstep & Hwf' & Hdirty').
  exists c', g'. split_and!; try done.
  split; [exact Hdirty'|].
  destruct (access_step_cases s E b verbose r c g Hs HE Hwf)
    as (ls & [ls'] & g'' & Hset & _ & Hspec & Hstep').
  rewrite Hstep in Hstep'. injection Hstep' as -> <-.
  destruct Hdirty as [Hbits Hdb]. destruct Hdirty' as [_ Hdb'].
  rewrite (cache_dirty_bytes_insert b c _ ls ls' Hset) in Hdb'.
  pose proof (cache_dirty_bytes_range s E b c ltac:(lia) HE ltac:(lia) Hwf)
    as Hrange.
  pose proof (pow2_le_30 b Hb) as Hpow.
  pose proof (stores_nonneg done) as Hst.
  rewrite stores_snoc.
  assert (∃ k, 0 ≤ k ≤ 1 ∧
               (if is_char (access_type r) "S" then 1 else 0) = k ∧
               (if is_char (access_type r) "S" then 2 ^ b else 0) = 2 ^ b * k)
    as (k & Hk & -> & Hkb).
  { destruct (is_char _ _); [exists 1|exists 0]; lia. }
  intros Hn.
  assert (0 ≤ dirty_bytes g) as Hdb0 by lia.
  destruct Htraffic as [Hde Hsum]; [nia|].
  apply cache_sim_spec_traffic in Hspec as (dE & Hde' & HdE & Hdelta);
    try done; cycle 1.
  { replace (dirty_evictions (if verbose
                              then put g (PrintfAccess (access_type r)
                                            (address r) (size r))
                              else g))
      with (dirty_evictions g) by (by destruct verbose).
    nia. }
  { intros j l Hl.
    apply (Hbits (Z.to_nat (set_index_of s b (address r))) j).
    unfold line_at. by rewrite Hset. }
  replace (dirty_evictions (if verbose
                            then put g (PrintfAccess (access_type r)
                                          (address r) (size r))
                            else g))
    with (dirty_evictions g) in Hde' by (by destruct verbose).
  rewrite Hkb in Hdelta. simpl in Hdelta.
  assert (0 ≤ dirty_bytes g') as Hdb'0.
  { pose proof (cache_dirty_bytes_range s E b _ ltac:(lia) HE ltac:(lia) Hwf')
      as Hrange'.
    rewrite (cache_dirty_bytes_insert b c _ ls ls' Hset) in Hrange'. lia. }
  rewrite wrap_ulong_small in Hde' by nia.
  nia.
Qed.

(** X10.  The bytes that are dirty in the cache and the dirty bytes evicted
    are paid for by Stores: after any run of Loads and Stores from a fresh
    cache, [dirty_bytes + dirty_evictions] is at most [2^b] times the
    number of Stores of the trace, and neither counter has wrapped below
    zero.  For a capacity and a number of stored bytes that fit
    [unsigned long]. *)
Theorem run_dirty_traffic_bound malloc_ok s E b verbose trace cache :
  0 ≤ s ≤ 30 → 0 < E → 0 ≤ b ≤ 30 →
  2 ^ s * E * 2 ^ b < 2 ^ 64 →
  cache_init malloc_ok s E b = inl cache →
  Forall is_LS trace →
  2 ^ b * stores trace < 2 ^ 64 →
  ∃ c' g',
    trace_loop s E b verbose trace cache globals_init
    = Some (EndOfTrace c' g') ∧
    0 ≤ dirty_bytes g' ∧ 0 ≤ dirty_evictions g' ∧
    dirty_bytes g' + dirty_evictions g' ≤ 2 ^ b * stores trace.
Proof.
  intros Hs HE Hb Hcap Hinit HLS Hn.
  apply cache_init_inl in Hinit as ->; [|done].
  destruct (trace_loop_invariant_prefix is_LS (traffic_inv b) s E b verbose)
    with (trace := trace) (done := @nil access) (c := fresh_cache s E b)
         (g := globals_init)
    as (c' & g' & Hrun & Hwf & [_ Hdb] & Htraffic); try done.
  - intros done r c g. by apply traffic_inv_step.
  - apply fresh_cache_wf.
  - split.
    + split.
      * intros i j l Hl. unfold line_at in Hl. simpl in Hl.
        destruct (replicate _ _ !! i) as [st|] eqn:Hst; simpl in Hl; [|done].
        apply lookup_replicate in Hst as [-> _]. simpl in Hl.
        apply lookup_replicate in Hl as [-> _]. apply line_bits_ok_init.
      * by rewrite cache_dirty_bytes_fresh.
    + intros _. simpl. unfold stores. simpl. lia.
  - exists c', g'. split; [done|]. simpl in Htraffic.
    destruct (Htraffic Hn) as [Hde Hsum].
    pose proof (cache_dirty_bytes_range s E b c' ltac:(lia) HE ltac:(lia) Hwf).
    split_and!; [lia|done..].
Qed.

Lemma run_dirty_traffic_bound_witness :
  ∃ c' g',
    trace_loop 0 1 2 false [St 0; St 1; L 4; St 8] (fresh_cache 0 1 2)
      globals_init
    = Some (EndOfTrace c' g') ∧
    0 ≤ dirty_bytes g' ∧ 0 ≤ dirty_evictions g' ∧
    dirty_bytes g' + dirty_evictions g' ≤ 2 ^ 2 * stores [St 0; St 1; L 4; St 8].
Proof.
  apply (run_dirty_traffic_bound (λ _, true) 0 1 2 false
           [St 0; St 1; L 4; St 8] (fresh_cache 0 1 2)).
  - lia.
  - lia.
  - lia.
  - reflexivity.
  - reflexivity.
  - repeat constructor; (by left) || (by right).
  - reflexivity.
Defined.

(** ** The exit status of [main] *)

(** On a well-formed cache the loop ends in one of its two ways: at the end
    of a trace of Loads and Stores, or on the first other record, with the
    error message printed last. *)
Lemma trace_loop_total s E b verbose trace c g :
  0 ≤ s ≤ 30 → 0 < E → wf_cache s E c → no_summary (stdout g) →
  (Forall is_LS trace ∧
   ∃ c' g', trace_loop s E b verbose trace c g = Some (EndOfTrace c' g') ∧
            no_summary (stdout g')) ∨
  (¬ Forall is_LS trace ∧
   ∃ g', trace_loop s E b verbose trace c g = Some (TraceError g') ∧
         no_summary (stdout g') ∧
         ∃ pre, stdout g' = pre ++ [Printf "Tracefile error\n"]).
Proof.
  intros Hs HE. revert c g.
  induction trace as [|r trace IH]; intros c g Hwf Hout.
  - left. split; [constructor|]. by exists c, g.
  - destruct (decide (is_LS r)) as [Hr|Hr].
    + destruct (stdout_inv_step s E b verbose 0 r c g Hs HE Hr Hwf Hout)
        as (c1 & g1 & Hstep & Hwf1 & Hout1).
      rewrite trace_loop_cons_LS, Hstep by done. simpl.
      destruct (IH c1 g1 Hwf1 Hout1) as [[HLS Hend]|[HLS Herr]].
      * left. split; [by constructor|done].
      * right. split; [|done]. by intros [_ ?]%Forall_cons.
    + right. split; [by intros [? _]%Forall_cons|].
      rewrite trace_loop_cons_bad by done. eexists. split; [done|].
      split; [|by eexists].
      simpl. apply no_summary_snoc_printf.
      destruct verbose; [by apply no_summary_snoc_access|done].
Qed.

Lemma no_summary_nil : no_summary [].
Proof. intros stats Hin. by apply elem_of_nil in Hin. Qed.

(** X11.  When the allocations succeed and [s <= 30], [main] returns, with
    exit status 0 or -1.  It returns 0 exactly when the arguments are
    valid, the trace file opens and every record is a Load or a Store; the
    summary is then the last thing printed and is printed once.  Otherwise
    it returns -1, prints no summary, and the last thing printed is a
    message. *)
Theorem main_exit_status malloc_ok fopen s E b verbose tracefile :
  s ≤ 30 → (∀ k, malloc_ok k = true) →
  ∃ rc out,
    main malloc_ok fopen s E b verbose tracefile = Some (rc, out) ∧
    ((rc = 0 ∧ runs_to_the_end fopen s E b tracefile ∧
      ∃ pre stats, out = pre ++ [PrintSummary stats] ∧ no_summary pre) ∨
     (rc = -1 ∧ ¬ runs_to_the_end fopen s E b tracefile ∧
      no_summary out ∧ ∃ pre text, out = pre ++ [Printf text])).
Proof.
  intros Hs Hok. unfold main, runs_to_the_end.
  destruct tracefile as [name|]; cycle 1.
  { eexists _, _. split; [done|]. right. split_and!; [done| | |].
    - by intros (_ & _ & _ & ? & ? & ? & _).
    - apply (no_summary_snoc_printf []), no_summary_nil.
    - by exists [], "Invalid input!\n"%string. }
  destruct ((s <? 0) || (E <=? 0) || (b <? 0)) eqn:Hargs.
  { eexists _, _. split; [done|]. right. split_and!; [done| | |].
    - intros (? & ? & ? & _). lia.
    - apply (no_summary_snoc_printf []), no_summary_nil.
    - by exists [], "Invalid input!\n"%string. }
  rewrite cache_init_ok by (done || lia).
  destruct (fopen name) as [trace|] eqn:Hopen; cycle 1.
  { eexists _, _. split; [done|]. right. split_and!; [done| | |].
    - intros (_ & _ & _ & ? & ? & [= <-] & ? & _). congruence.
    - apply (no_summary_snoc_printf []), no_summary_nil.
    - by exists [], "Open file error\n"%string. }
  destruct (trace_loop_total s E b verbose trace (fresh_cache s E b)
              globals_init ltac:(lia) ltac:(lia) (fresh_cache_wf s E b)
              no_summary_nil)
    as [[HLS (c' & g' & -> & Hout)]|[HLS (g' & -> & Hout & pre & Hpre)]].
  - eexists _, _. split; [done|]. left. split_and!; [done|lia..| |].
    + by exists name, trace.
    + simpl. by eexists _, _.
  - eexists _, _. split; [done|]. right. split_and!; [done| |done|].
    + intros (_ & _ & _ & ? & ? & [= <-] & ? & ?). simplify_eq. done.
    + by exists pre, "Tracefile error\n"%string.
Qed.

Lemma main_exit_status_witness :
  ∃ rc out,
    main (λ _, true) (λ _, Some [L 0; mk_access "M" 1 1; St 2]) 1 1 0 true
      (Some "trace"%string)
    = Some (rc, out) ∧
    ((rc = 0 ∧
      runs_to_the_end (λ _, Some [L 0; mk_access "M" 1 1; St 2]) 1 1 0
        (Some "trace"%string) ∧
      ∃ pre stats, out = pre ++ [PrintSummary stats] ∧ no_summary pre) ∨
     (rc = -1 ∧
      ¬ runs_to_the_end (λ _, Some [L 0; mk_access "M" 1 1; St 2]) 1 1 0
          (Some "trace"%string) ∧
      no_summary out ∧ ∃ pre text, out = pre ++ [Printf text])).
Proof.
  apply (main_exit_status (λ _, true)
           (λ _, Some [L 0; mk_access "M" 1 1; St 2]) 1 1 0 true
           (Some "trace"%string)).
  - lia.
  - reflexivity.
Defined.

(** X12.  [main] does not test the result of [cache_init].  When one of the
    [2 + 2^s] allocations fails and the trace file cannot be opened, [main]
    prints the message of [cache_init], then the message of [fopen], and
    returns -1; when the file opens, [main] goes on with the NULL cache
    and dereferences it, whatever the trace is. *)
Theorem main_ignores_allocation_failure malloc_ok fopen s E b verbose name :
  0 ≤ s ≤ 30 → 0 < E → 0 ≤ b →
  (∃ k, (k < 2 + Z.to_nat (2 ^ s))%nat ∧ malloc_ok k = false) →
  match fopen name with
  | None =>
      ∃ text,
        cache_init malloc_ok s E b = inr text ∧
        main malloc_ok fopen s E b verbose (Some name)
        = Some (-1, [Printf text; Printf "Open file error\n"])
  | Some trace => main malloc_ok fopen s E b verbose (Some name) = None
  end.
Proof.
  intros Hs HE Hb (k & Hk & Hfail).
  assert (∃ text, cache_init malloc_ok s E b = inr text) as [text Hinit].
  { unfold cache_init.
    destruct (malloc_ok 0%nat) eqn:H0; simpl; [|by eexists].
    destruct (malloc_ok 1%nat) eqn:H1; simpl; [|by eexists].
    rewrite cache_init_sets_spec, shl1_int_pow by done.
    change (2 + 0)%nat with 2%nat.
    destruct (forallb _ _) eqn:Hall; [|by eexists].
    rewrite forallb_forall in Hall.
    destruct k as [|[|k]]; try congruence.
    rewrite Hall in Hfail; [done|]. apply in_seq. lia. }
  unfold main.
  replace ((s <? 0) || (E <=? 0) || (b <? 0)) with false by lia.
  rewrite Hinit. destruct (fopen name); [done|]. by exists text.
Qed.

Lemma main_ignores_allocation_failure_witness :
  match (λ _ : string, Some [L 0]) "trace"%string with
  | None =>
      ∃ text,
        cache_init (λ k, bool_decide (k ≠ 3%nat)) 1 1 0 = inr text ∧
        main (λ k, bool_decide (k ≠ 3%nat)) (λ _, Some [L 0]) 1 1 0 false
          (Some "trace"%string)
        = Some (-1, [Printf text; Printf "Open file error\n"])
  | Some trace =>
      main (λ k, bool_decide (k ≠ 3%nat)) (λ _, Some [L 0]) 1 1 0 false
        (Some "trace"%string) = None
  end.
Proof.
  apply (main_ignores_allocation_failure (λ k, bool_decide (k ≠ 3%nat))
           (λ _, Some [L 0]) 1 1 0 false "trace"%string).
  - lia.
  - lia.
  - lia.
  - exists 3%nat. split; [simpl; lia|reflexivity].
Defined.

(** ** The heap: [cache_init] and [cache_free] *)

Lemma heap_run_app e1 e2 live :
  heap_run (e1 ++ e2) live = heap_run e1 live ≫= heap_run e2.
Proof.
  revert live. induction e1 as [|[k|k] e1 IH]; intros live; simpl; [done|..].
  - apply IH.
  - case_decide; [apply IH|done].
Qed.

Lemma heap_run_mallocs a n live :
  heap_run (Malloc <$> seq a n) live
  = Some (list_to_set (seq a n) ∪ live).
Proof.
  revert a live. induction n as [|n IH]; intros a live.
  - simpl. by rewrite (left_id_L ∅ (∪)).
  - change (Malloc <$> seq a (S n)) with (Malloc a :: (Malloc <$> seq (S a) n)).
    cbn [heap_run]. rewrite IH. f_equal. apply set_eq. intros k.
    rewrite !elem_of_union, !elem_of_list_to_set, !elem_of_seq,
      elem_of_singleton. intuition lia.
Qed.

Lemma heap_run_frees a n live :
  (∀ k, (a ≤ k < a + n)%nat → k ∈ live) →
  heap_run (Free <$> seq a n) live
  = Some (live ∖ list_to_set (seq a n)).
Proof.
  revert a live. induction n as [|n IH]; intros a live Hlive.
  - simpl. by rewrite difference_empty_L.
  - change (Free <$> seq a (S n)) with (Free a :: (Free <$> seq (S a) n)).
    cbn [heap_run]. rewrite decide_True by (apply Hlive; lia).
    rewrite IH.
    + f_equal. apply set_eq. intros k.
      rewrite !elem_of_difference, !elem_of_list_to_set, !elem_of_seq,
        elem_of_singleton. intuition lia.
    + intros k Hk. apply elem_of_difference. split; [apply Hlive; lia|].
      apply not_elem_of_singleton. lia.
Qed.

Lemma cache_init_sets_heap_ok malloc_ok n i :
  (∀ k, (2 + i ≤ k < 2 + i + n)%nat → malloc_ok k = true) →
  cache_init_sets_heap malloc_ok n i = (Malloc <$> seq (2 + i) n, true).
Proof.
  revert i. induction n as [|n IH]; intros i Hok; [done|].
  cbn [cache_init_sets_heap seq fmap list_fmap].
  rewrite Hok by lia. rewrite IH by (intros k Hk; apply Hok; lia). done.
Qed.

Lemma cache_init_sets_heap_fail malloc_ok n i j :
  (j < n)%nat →
  (∀ k, (2 + i ≤ k < 2 + i + j)%nat → malloc_ok k = true) →
  malloc_ok (2 + i + j)%nat = false →
  cache_init_sets_heap malloc_ok n i
  = ((Malloc <$> seq (2 + i) j) ++ [Free 1; Free 0], false).
Proof.
  revert i j. induction n as [|n IH]; intros i j Hj Hok Hfail; [lia|].
  cbn [cache_init_sets_heap].
  destruct j as [|j].
  - rewrite Nat.add_0_r in Hfail. by rewrite Hfail.
  - rewrite Hok by lia.
    rewrite (IH (S i) j); [done|lia| |].
    + intros k Hk. apply Hok. lia.
    + rewrite <- Hfail. f_equal. lia.
Qed.

Lemma cache_free_loop_fresh n i sets :
  (i + n ≤ length sets)%nat →
  cache_free_loop n i sets = Some (Free <$> seq (2 + i) n).
Proof.
  revert i. induction n as [|n IH]; intros i Hlen; [done|].
  cbn [cache_free_loop].
  destruct (lookup_lt_is_Some_2 sets i) as [st ->]; [lia|]. simpl.
  rewrite IH by lia. done.
Qed.

Lemma heap_run_alloc_release n :
  heap_run ((Malloc <$> seq 0 (2 + n))
            ++ (Free <$> seq 2 n) ++ [Free 1%nat; Free 0%nat]) ∅
  = Some ∅.
Proof.
  rewrite heap_run_app, heap_run_mallocs. cbn [mbind option_bind].
  rewrite heap_run_app, heap_run_frees; cycle 1.
  { intros k Hk. apply elem_of_union. left.
    apply elem_of_list_to_set, elem_of_seq. lia. }
  cbn [mbind option_bind].
  assert ((list_to_set (seq 0 (2 + n)) ∪ ∅) ∖ list_to_set (seq 2 n)
          = ({[0%nat; 1%nat]} : gset nat)) as ->.
  { apply set_eq. intros k.
    rewrite elem_of_difference, elem_of_union, !elem_of_list_to_set,
      !elem_of_seq, elem_of_empty.
    rewrite elem_of_union, !elem_of_singleton. lia. }
  reflexivity.
Qed.

(** X13.  [cache_free] releases what [cache_init] allocated.  When the
    [2 + 2^s] allocations succeed, the blocks live after [cache_init] are
    the cache, the array of sets and the lines of each set; [cache_free]
    frees the lines of the sets in order, then the array of sets, then the
    cache; every block is live when it is freed and no block is live in the
    end. *)
Theorem cache_init_then_free malloc_ok s E b :
  0 ≤ s ≤ 30 →
  (∀ k, (k < 2 + Z.to_nat (2 ^ s))%nat → malloc_ok k = true) →
  ∃ cache frees,
    cache_init malloc_ok s E b = inl cache ∧
    cache_free cache = Some frees ∧
    frees = (Free <$> seq 2 (Z.to_nat (2 ^ s))) ++ [Free 1; Free 0] ∧
    heap_run (cache_init_heap malloc_ok s) ∅
    = Some (list_to_set (seq 0 (2 + Z.to_nat (2 ^ s)))) ∧
    heap_run (cache_init_heap malloc_ok s ++ frees) ∅ = Some ∅.
Proof.
  intros Hs Hok.
  assert (cache_init malloc_ok s E b = inl (fresh_cache s E b)) as Hinit.
  { unfold cache_init. rewrite !Hok by lia. simpl.
    rewrite cache_init_sets_spec, shl1_int_pow by done.
    change (2 + 0)%nat with 2%nat.
    assert (forallb malloc_ok (seq 2 (Z.to_nat (2 ^ s))) = true) as ->; [|done].
    apply forallb_forall. intros k Hk%in_seq. apply Hok. lia. }
  assert (cache_init_heap malloc_ok s
          = Malloc <$> seq 0 (2 + Z.to_nat (2 ^ s))) as Hheap.
  { unfold cache_init_heap. rewrite !Hok by lia. simpl.
    rewrite shl1_int_pow by done.
    rewrite cache_init_sets_heap_ok by (intros k Hk; apply Hok; lia). done. }
  exists (fresh_cache s E b). eexists. split; [done|].
  split.
  { unfold cache_free. simpl. rewrite shl1_int_pow by done.
    rewrite cache_free_loop_fresh by (by rewrite length_replicate). done. }
  split; [done|]. rewrite Hheap. split.
  - rewrite heap_run_mallocs. by rewrite (right_id_L ∅ (∪)).
  - apply heap_run_alloc_release.
Qed.

Lemma cache_init_then_free_witness :
  ∃ cache frees,
    cache_init (λ _, true) 1 2 0 = inl cache ∧
    cache_free cache = Some frees ∧
    frees = (Free <$> seq 2 (Z.to_nat (2 ^ 1))) ++ [Free 1%nat; Free 0%nat] ∧
    heap_run (cache_init_heap (λ _, true) 1) ∅
    = Some (list_to_set (seq 0 (2 + Z.to_nat (2 ^ 1)))) ∧
    heap_run (cache_init_heap (λ _, true) 1 ++ frees) ∅ = Some ∅.
Proof. apply (cache_init_then_free (λ _, true) 1 2 0); [lia|done]. Defined.

Lemma heap_run_alloc_rollback j :
  heap_run ((Malloc <$> seq 0 (2 + j)) ++ [Free 1%nat; Free 0%nat]) ∅
  = Some (list_to_set (seq 2 j)).
Proof.
  rewrite heap_run_app, heap_run_mallocs. cbn [mbind option_bind heap_run].
  rewrite decide_True; cycle 1.
  { apply elem_of_union. left. apply elem_of_list_to_set, elem_of_seq. lia. }
  rewrite decide_True; cycle 1.
  { apply elem_of_difference. split; [|by apply not_elem_of_singleton].
    apply elem_of_union. left. apply elem_of_list_to_set, elem_of_seq. lia. }
  f_equal. apply set_eq. intros k.
  rewrite !elem_of_difference, elem_of_union, !elem_of_list_to_set,
    !elem_of_seq, elem_of_empty, !elem_of_singleton. lia.
Qed.

(** X15.  [cache_init] leaks on its third error path.  When the cache, the
    array of sets and the lines of the first [j] sets are allocated and the
    allocation of the lines of set [j] fails, [cache_init] reports the
    failure for a line and frees the array of sets and the cache, but not
    the lines of the [j] sets allocated before: these blocks stay live. *)
Theorem cache_init_failure_leaks malloc_ok s E b j :
  0 ≤ s ≤ 30 →
  (j < Z.to_nat (2 ^ s))%nat →
  (∀ k, (k < 2 + j)%nat → malloc_ok k = true) →
  malloc_ok (2 + j)%nat = false →
  cache_init malloc_ok s E b = inr "Malloc for line failed\n"%string ∧
  heap_run (cache_init_heap malloc_ok s) ∅ = Some (list_to_set (seq 2 j)).
Proof.
  intros Hs Hj Hok Hfail. split.
  - unfold cache_init. rewrite !Hok by lia. simpl.
    rewrite cache_init_sets_spec, shl1_int_pow by done.
    destruct (forallb _ _) eqn:Hall; [|done].
    rewrite forallb_forall in Hall.
    rewrite Hall in Hfail; [done|]. apply in_seq. lia.
  - unfold cache_init_heap. rewrite !Hok by lia. simpl.
    rewrite shl1_int_pow by done.
    rewrite (cache_init_sets_heap_fail _ _ _ j) by
      (done || (intros k Hk; apply Hok; lia)).
    apply (heap_run_alloc_rollback j).
Qed.

Lemma cache_init_failure_leaks_witness :
  cache_init (λ k, bool_decide (k ≠ 3%nat)) 1 2 0
  = inr "Malloc for line failed\n"%string ∧
  heap_run (cache_init_heap (λ k, bool_decide (k ≠ 3%nat)) 1) ∅
  = Some (list_to_set (seq 2 1)).
Proof.
  apply (cache_init_failure_leaks (λ k, bool_decide (k ≠ 3%nat)) 1 2 0 1%nat).
  - lia.
  - vm_compute. lia.
  - intros [|[|[|k]]] Hk; (reflexivity || lia).
  - reflexivity.
Defined.

(** ** The log of a verbose run *)

Lemma cache_sim_spec_log a ls tg E b g set' g' :
  cache_sim_spec a ls tg E b true g (Some (set', g')) →
  stdout g' = stdout g ++ log_of (outcome_of tg ls).
Proof.
  intros Hspec. unfold outcome_of.
  inversion Hspec as [h l Hhit|f l Hmiss Hfill|v l Hmiss Hfull Hv Hl];
    subst; rewrite ?Hhit, ?Hmiss, ?Hfill, ?Hfull.
  - unfold hit_globals. by case_match.
  - unfold fill_globals. case_match; simpl; by rewrite <- app_assoc.
  - unfold evict_globals. repeat case_match; simpl; by rewrite <- app_assoc.
Qed.

Lemma count_if_snoc P os o :
  count_if P (os ++ [o]) = count_if P os + (if P o then 1 else 0).
Proof.
  unfold count_if, sumZ.
  induction os as [|o' os IH]; cbn [app fmap list_fmap foldr] in *; lia.
Qed.

Lemma count_if_range P os : 0 ≤ count_if P os ≤ Z.of_nat (length os).
Proof.
  unfold count_if, sumZ.
  induction os as [|o os IH]; cbn [length fmap list_fmap foldr] in *; [lia|].
  destruct (P o); lia.
Qed.

Lemma log_inv_step s E b done r c g :
  0 ≤ s ≤ 30 → 0 < E →
  is_LS r → wf_cache s E c → log_inv done c g →
  ∃ c' g', access_step s E b true r c g = Some (c', g') ∧
           wf_cache s E c' ∧ log_inv (done ++ [r]) c' g'.
Proof.
  intros Hs HE _ Hwf (os & Hlen & Hout & Hcnt).
  destruct (access_step_wf s E b true r c g Hs HE Hwf)
    as (c' & g' & Hstep & Hwf').
  exists c', g'. split_and!; try done.
  destruct (access_step_cases s E b true r c g Hs HE Hwf)
    as (ls & set' & g'' & Hset & _ & Hspec & Hstep').
  rewrite Hstep in Hstep'. injection Hstep' as -> <-.
  set (o := outcome_of (tag_of s b (address r)) ls).
  exists (os ++ [o]). split_and!.
  - rewrite !length_app. simpl. lia.
  - rewrite (cache_sim_spec_log _ _ _ _ _ _ _ _ Hspec). simpl.
    rewrite zip_with_app, concat_app by done. simpl.
    rewrite Hout, app_nil_r, <- app_assoc. done.
  - rewrite length_app, Nat2Z.inj_add. simpl. intros Hn.
    destruct Hcnt as (Hh & Hm & He); [lia|].
    apply cache_sim_spec_outcome in Hspec. fold o in Hspec.
    rewrite !count_if_snoc.
    pose proof (count_if_range is_Hit os).
    pose proof (count_if_range is_Miss os).
    pose proof (count_if_range is_MissEvict os).
    assert (∀ x, 0 ≤ x ≤ Z.of_nat (length os) → wrap_ulong (x + 1) = x + 1)
      as Hw.
    { intros x Hx. apply wrap_ulong_small. lia. }
    simpl in Hspec. rewrite <- Hh, <- Hm, <- He.
    destruct o; simpl; destruct Hspec as (-> & -> & ->);
      rewrite ?Hw by lia; lia.
Qed.

(** X17.  The log of a verbose run agrees with its counters.  A run with
    [verbose] of fewer than [2^64] Loads and Stores from a fresh cache
    prints, for each record in order, the record followed by [hit], by
    [miss] or by [miss eviction]; [hit], [miss] and [eviction] are the
    numbers of records logged as a hit, as a miss (with or without
    eviction) and as an eviction. *)
Theorem verbose_log_agrees_with_counters malloc_ok s E b trace cache :
  0 ≤ s ≤ 30 → 0 < E →
  cache_init malloc_ok s E b = inl cache →
  Forall is_LS trace →
  Z.of_nat (length trace) < 2 ^ 64 →
  ∃ c' g' os,
    trace_loop s E b true trace cache globals_init
    = Some (EndOfTrace c' g') ∧
    length os = length trace ∧
    stdout g' = concat (zip_with log_line trace os) ∧
    hit g' = count_if is_Hit os ∧ miss g' = count_if is_Miss os ∧
    eviction g' = count_if is_MissEvict os.
Proof.
  intros Hs HE Hinit HLS Hlen.
  apply cache_init_inl in Hinit as ->; [|done].
  destruct (trace_loop_invariant_prefix is_LS log_inv s E b true
              (λ r H, H)
              (λ done r c g, log_inv_step s E b done r c g Hs HE)
              trace [] (fresh_cache s E b) globals_init HLS
              (fresh_cache_wf s E b))
    as (c' & g' & Hrun & Hwf & os & Hl & Hout & Hcnt).
  - exists []. by split_and!.
  - exists c', g', os. simpl in *. by destruct Hcnt as (? & ? & ?).
Qed.

Lemma verbose_log_agrees_with_counters_witness :
  ∃ c' g' os,
    trace_loop 0 1 0 true [L 0; St 0; L 1] (fresh_cache 0 1 0) globals_init
    = Some (EndOfTrace c' g') ∧
    length os = length [L 0; St 0; L 1] ∧
    stdout g' = concat (zip_with log_line [L 0; St 0; L 1] os) ∧
    hit g' = count_if is_Hit os ∧ miss g' = count_if is_Miss os ∧
    eviction g' = count_if is_MissEvict os.
Proof.
  apply (verbose_log_agrees_with_counters (λ _, true) 0 1 0 [L 0; St 0; L 1]
           (fresh_cache 0 1 0)).
  - lia.
  - lia.
  - reflexivity.
  - repeat constructor; (by left) || (by right).
  - simpl. lia.
Defined.

(** ** Loops *)

Lemma for_loop_invariant {St} (I : nat → St → Prop) fuel a bound step
    (body : nat → St → result St) st :
  (0 < step)%nat → (bound - a ≤ fuel)%nat →
  I a st →
  (∀ i st, (a ≤ i < bound)%nat → I i st →
     ∃ st', body i st = Ok st' ∧ I (i + step)%nat st') →
  ∃ e st',
    for_loop fuel a bound step body st = Ok st' ∧ I e st' ∧
    (bound ≤ e)%nat ∧ (e = a ∨ a < e < bound + step)%nat.
Proof.
  intros Hstep. revert a st.
  induction fuel as [|fuel IH]; intros a st Hfuel HI Hbody; simpl.
  - rewrite (proj2 (Nat.ltb_ge a bound)) by lia.
    exists a, st. split_and!; [done|done|lia|lia].
  - destruct (a <? bound)%nat eqn:Hlt.
    + apply Nat.ltb_lt in Hlt.
      destruct (Hbody a st ltac:(lia) HI) as (st1 & -> & HI1). simpl.
      destruct (IH (a + step)%nat st1 ltac:(lia) HI1)
        as (e & st' & ? & ? & ? & ?).
      { intros i st2 Hi. apply Hbody. lia. }
      exists e, st'. split_and!; [done|done|lia|lia].
    + apply Nat.ltb_ge in Hlt. exists a, st. split_and!; [done|done|lia|lia].
Qed.

(** The loop with step 1. *)
Lemma for_unit_invariant {St} (I : nat → St → Prop) a bound
    (body : nat → St → result St) st :
  (a ≤ bound)%nat → I a st →
  (∀ i st, (a ≤ i < bound)%nat → I i st →
     ∃ st', body i st = Ok st' ∧ I (S i) st') →
  ∃ st', for_ a bound 1 body st = Ok st' ∧ I bound st'.
Proof.
  intros Hle HI Hbody.
  destruct (for_loop_invariant I (bound - a) a bound 1 body st)
    as (e & st' & Hrun & HI' & He1 & He2); [lia|lia|done| |].
  - intros i st1 Hi HI1. rewrite Nat.add_1_r. by apply Hbody.
  - exists st'. split; [done|]. by replace bound with e by lia.
Qed.

(** The loop with step 8 over a multiple of 8. *)
Lemma for_eight_invariant {St} (I : nat → St → Prop) bound
    (body : nat → St → result St) st :
  (bound mod 8 = 0)%nat → I 0%nat st →
  (∀ i st, (i < bound)%nat → (i mod 8 = 0)%nat → I i st →
     ∃ st', body i st = Ok st' ∧ I (i + 8)%nat st') →
  ∃ st', for_ 0 bound 8 body st = Ok st' ∧ I bound st'.
Proof.
  intros Hdiv HI Hbody.
  destruct (for_loop_invariant (λ i st, (i mod 8 = 0)%nat ∧ I i st)
              (bound - 0) 0 bound 8 body st)
    as (e & st' & Hrun & [Hdiv' HI'] & He1 & He2); [lia|lia|done| |].
  - intros i st1 Hi [Hd HI1].
    destruct (Hbody i st1 ltac:(lia) Hd HI1) as (st2 & ? & ?).
    exists st2. split_and!; [done| |done].
    rewrite <- Nat.Div0.add_mod_idemp_l, Hd. done.
  - exists st'. split; [done|].
    replace bound with e; [done|].
    apply Nat.Div0.div_exact in Hdiv, Hdiv'. lia.
Qed.

(** A loop that comes to its end has run its body at every index. *)
Lemma for_loop_Ok_body {St} fuel a bound step
    (body : nat → St → result St) st st' q :
  for_loop fuel a bound step body st = Ok st' →
  (a + q * step < bound)%nat →
  ∃ st1 st2, body (a + q * step)%nat st1 = Ok st2.
Proof.
  revert fuel a st.
  induction q as [|q IH]; intros fuel a st Hrun Hq.
  - destruct fuel as [|fuel]; simpl in Hrun;
      rewrite (proj2 (Nat.ltb_lt a bound)) in Hrun by lia; [done|].
    rewrite Nat.add_0_r. destruct (body a st) as [st1|] eqn:Hb; [|done].
    by exists st, st1.
  - destruct fuel as [|fuel]; simpl in Hrun;
      rewrite (proj2 (Nat.ltb_lt a bound)) in Hrun by lia; [done|].
    destruct (body a st) as [st1|] eqn:Hb; [|done]. simpl in Hrun.
    replace (a + S q * step)%nat with (a + step + q * step)%nat by lia.
    eapply IH; [done|lia].
Qed.

Lemma for_loop_Ok_or_OutOfBounds {St} fuel a bound step
    (body : nat → St → result St) st :
  (0 < step)%nat → (bound - a ≤ fuel)%nat →
  (∀ i st, Ok_or_OutOfBounds (body i st)) →
  Ok_or_OutOfBounds (for_loop fuel a bound step body st).
Proof.
  intros Hstep. revert a st.
  induction fuel as [|fuel IH]; intros a st Hfuel Hbody; simpl.
  - by rewrite (proj2 (Nat.ltb_ge a bound)) by lia.
  - destruct (a <? bound)%nat eqn:Hlt; [|done].
    apply Nat.ltb_lt in Hlt.
    specialize (Hbody a st) as Hb. destruct (body a st) as [st1|f]; [|done].
    simpl. apply IH; [lia|done].
Qed.

Lemma for_Ok_or_OutOfBounds {St} a bound step
    (body : nat → St → result St) st :
  (0 < step)%nat →
  (∀ i st, Ok_or_OutOfBounds (body i st)) →
  Ok_or_OutOfBounds (for_ a bound step body st).
Proof. intros. by apply for_loop_Ok_or_OutOfBounds. Qed.

(** ** Matrices *)

Lemma at2_Some R C X i j x :
  shape R C X → at2 X i j = Some x → (i < R ∧ j < C)%nat.
Proof.
  intros [Hlen Hrows]. unfold at2.
  destruct (X !! i) as [row|] eqn:Hrow; simpl; [|done]. intros Hx.
  apply lookup_lt_Some in Hx. rewrite (Hrows _ _ Hrow) in Hx.
  apply lookup_lt_Some in Hrow. lia.
Qed.

Lemma at2_is_Some R C X i j :
  shape R C X → (i < R)%nat → (j < C)%nat → ∃ x, at2 X i j = Some x.
Proof.
  intros [Hlen Hrows] Hi Hj. unfold at2.
  destruct (lookup_lt_is_Some_2 X i) as [row Hrow]; [lia|].
  rewrite Hrow. simpl. apply lookup_lt_is_Some_2.
  by rewrite (Hrows _ _ Hrow).
Qed.

Lemma at2_None_row R C X j : shape R C X → at2 X R j = None.
Proof.
  intros HX. destruct (at2 X R j) as [x|] eqn:Hx; [|done].
  apply (at2_Some _ _ _ _ _ _ HX) in Hx. lia.
Qed.

Lemma at2_None_col R C X i : shape R C X → at2 X i C = None.
Proof.
  intros HX. destruct (at2 X i C) as [x|] eqn:Hx; [|done].
  apply (at2_Some _ _ _ _ _ _ HX) in Hx. lia.
Qed.

Lemma write2_spec R C X i j x :
  shape R C X → (i < R)%nat → (j < C)%nat →
  ∃ X', write2 X i j x = Ok X' ∧ shape R C X' ∧
        at2 X' i j = Some x ∧
        ∀ i' j', i' ≠ i ∨ j' ≠ j → at2 X' i' j' = at2 X i' j'.
Proof.
  intros [Hlen Hrows] Hi Hj. unfold write2.
  destruct (lookup_lt_is_Some_2 X i) as [row Hrow]; [lia|].
  rewrite Hrow. pose proof (Hrows _ _ Hrow) as Hlr.
  rewrite (proj2 (Nat.ltb_lt j (length row))) by lia.
  eexists. split; [done|]. split_and!.
  - split; [by rewrite length_insert|].
    intros i' row'. rewrite list_lookup_insert. case_decide.
    + intros [= <-]. by rewrite length_insert.
    + apply Hrows.
  - unfold at2. rewrite list_lookup_insert_eq by lia. simpl.
    apply list_lookup_insert_eq. lia.
  - intros i' j' Hne. unfold at2. rewrite list_lookup_insert.
    case_decide as Hd; [|done]. destruct Hd as [<- _].
    rewrite Hrow. simpl. apply list_lookup_insert_ne. lia.
Qed.

Lemma read2_Ok_or_OutOfBounds X i j : Ok_or_OutOfBounds (read2 X i j).
Proof. unfold read2. by destruct (at2 X i j). Qed.

Lemma write2_Ok_or_OutOfBounds X i j x : Ok_or_OutOfBounds (write2 X i j x).
Proof. unfold write2. destruct (X !! i); [|done]. by case_match. Qed.

(** ** [is_transpose] *)

Section transposes.
Variables (M N : nat) (A : list (list double)).
Hypothesis HA : shape N M A.

Lemma is_transpose_cols_spec B i n j :
  shape M N B → (i < N)%nat → (j + n = M)%nat →
  ∃ v, is_transpose_cols n j i A B = Ok v ∧
       match v with
       | Transposed => ∀ j', (j ≤ j' < M)%nat → agree A B i j'
       | Mismatch j' i' b a =>
           i' = i ∧ (j ≤ j' < M)%nat ∧
           at2 A i j' = Some a ∧ at2 B j' i = Some b ∧
           double_ne a b = true ∧
           ∀ j'', (j ≤ j'' < j')%nat → agree A B i j''
       end.
Proof.
  intros HB Hi. revert j.
  induction n as [|n IH]; intros j Hj; simpl.
  - exists Transposed. split; [done|]. intros j' Hj'. lia.
  - destruct (at2_is_Some _ _ _ i j HA) as [a Ha]; [lia..|].
    destruct (at2_is_Some _ _ _ j i HB) as [b Hb]; [lia..|].
    unfold read2. rewrite Ha, Hb. simpl.
    destruct (double_ne a b) eqn:Hne.
    + eexists. split; [done|]. split_and!; try done; lia.
    + destruct (IH (S j) ltac:(lia)) as (v & -> & Hv).
      exists v. split; [done|].
      assert (∀ j', (j ≤ j' < S j)%nat → agree A B i j') as Hj0.
      { intros j' ?. replace j' with j by lia. by exists a, b. }
      destruct v as [|j' i' b' a'].
      * intros j' Hj'. destruct (decide (j' = j)) as [->|]; [apply Hj0; lia|].
        apply Hv. lia.
      * destruct Hv as (-> & ? & ? & ? & ? & Hfirst).
        split_and!; try done; try lia.
        intros j'' Hj''. destruct (decide (j'' = j)) as [->|];
          [apply Hj0; lia|]. apply Hfirst. lia.
Qed.

Lemma is_transpose_rows_spec B n i :
  shape M N B → (i + n = N)%nat →
  ∃ v, is_transpose_rows n i M A B = Ok v ∧
       match v with
       | Transposed =>
           ∀ i' j, (i ≤ i' < N)%nat → (j < M)%nat → agree A B i' j
       | Mismatch j i0 b a =>
           (i ≤ i0 < N)%nat ∧ (j < M)%nat ∧
           at2 A i0 j = Some a ∧ at2 B j i0 = Some b ∧
           double_ne a b = true ∧
           ∀ i' j', (j' < M)%nat → (i ≤ i' < i0 ∨ i' = i0 ∧ j' < j)%nat →
                    agree A B i' j'
       end.
Proof.
  intros HB. revert i.
  induction n as [|n IH]; intros i Hi; simpl.
  - exists Transposed. split; [done|]. intros i' j Hi'. lia.
  - destruct (is_transpose_cols_spec B i M 0%nat HB) as (v & -> & Hv);
      [lia..|]. simpl.
    destruct v as [|j i0 b a].
    + destruct (IH (S i) ltac:(lia)) as (v & -> & Hv').
      exists v. split; [done|].
      destruct v as [|j i0 b a].
      * intros i' j Hi' Hj. destruct (decide (i' = i)) as [->|].
        -- apply Hv. lia.
        -- apply Hv'; lia.
      * destruct Hv' as (? & ? & ? & ? & ? & Hfirst).
        split_and!; try done; try lia.
        intros i' j' Hj' Hi'. destruct (decide (i' = i)) as [->|].
        -- apply Hv. lia.
        -- apply Hfirst; lia.
    + destruct Hv as (-> & ? & ? & ? & ? & Hfirst).
      eexists. split; [done|]. split_and!; try done; try lia.
      intros i' j' Hj' Hi'. replace i' with i by lia. apply Hfirst. lia.
Qed.

Lemma is_transpose_verdict B :
  shape M N B →
  ∃ v, is_transpose M N A B = Ok v ∧ verdict_spec M N A B v.
Proof.
  intros HB. unfold is_transpose.
  destruct (is_transpose_rows_spec B N 0%nat HB) as (v & -> & Hv); [lia|].
  exists v. split; [done|]. destruct v as [|j i b a]; simpl.
  - intros i j Hi Hj. apply Hv; lia.
  - destruct Hv as (? & ? & ? & ? & ? & Hfirst).
    split_and!; try done; try lia.
    intros i' j' Hj' Hi'. apply Hfirst; lia.
Qed.

End transposes.

(** ** The loops of the transposes *)

Section copies.
Variables (M N : nat) (A : list (list double)).
Hypothesis HA : shape N M A.

Lemma copied_mono (P Q : nat → nat → Prop) B :
  copied P M N A B →
  (∀ i j, (i < N)%nat → (j < M)%nat → Q i j → P i j) →
  copied Q M N A B.
Proof.
  intros [HB Hcp] HQ. split; [done|]. intros i j Hi Hj Hq.
  apply Hcp; auto.
Qed.

Lemma copy_cell P B i j x :
  copied P M N A B → at2 A i j = Some x →
  ∃ B', write2 B j i x = Ok B' ∧
        copied (λ i' j', P i' j' ∨ i' = i ∧ j' = j) M N A B'.
Proof.
  intros [HB Hcp] Hx.
  destruct (at2_Some _ _ _ _ _ _ HA Hx) as [Hi Hj].
  destruct (write2_spec M N B j i x HB Hj Hi) as (B' & -> & HB' & Hnew & Hold).
  exists B'. split; [done|]. split; [done|].
  intros i' j' Hi' Hj' HP.
  destruct (decide (i' = i ∧ j' = j)) as [[-> ->]|Hne].
  - by rewrite Hnew, Hx.
  - rewrite Hold by lia. apply Hcp; [done..|]. tauto.
Qed.

(** The cell of [trans_basic] and of the blocks. *)
Lemma basic_cell T :
  cell_spec M N A T (λ i j '(B, tmp),
    x ← read2 A i j;
    B ← write2 B j i x;
    Ok (B, tmp)).
Proof.
  intros P i j B tmp Hi Hj Hcp HT.
  destruct (at2_is_Some _ _ _ i j HA Hi Hj) as [x Hx].
  destruct (copy_cell P B i j x Hcp Hx) as (B' & Hw & Hcp').
  exists B', tmp. unfold read2. rewrite Hx. simpl. rewrite Hw. done.
Qed.

(** The cell of [trans_tmp]. *)
Lemma tmp_cell L :
  (4 ≤ L)%nat →
  cell_spec M N A (λ tmp, length tmp = L) (λ i j '(B, tmp),
    let di := (i mod 2)%nat in
    let dj := (j mod 2)%nat in
    x ← read2 A i j;
    tmp ← write1 tmp (2 * di + dj) x;
    x ← read1 tmp (2 * di + dj);
    B ← write2 B j i x;
    Ok (B, tmp)).
Proof.
  intros HL P i j B tmp Hi Hj Hcp HT.
  destruct (at2_is_Some _ _ _ i j HA Hi Hj) as [x Hx].
  destruct (copy_cell P B i j x Hcp Hx) as (B' & Hw & Hcp').
  pose proof (Nat.mod_upper_bound i 2 ltac:(lia)).
  pose proof (Nat.mod_upper_bound j 2 ltac:(lia)).
  set (k := (2 * (i mod 2) + j mod 2)%nat). assert (k < length tmp)%nat by lia.
  exists B', (<[k := x]> tmp). cbn zeta. fold k.
  unfold read2. rewrite Hx. simpl. unfold write1.
  rewrite (proj2 (Nat.ltb_lt k (length tmp))) by done. simpl.
  unfold read1. rewrite list_lookup_insert_eq by done. simpl.
  rewrite Hw. simpl. by rewrite length_insert.
Qed.

(** The loop over the columns from [j0] to [j1] of a row. *)
Lemma cells_row T cell j0 j1 :
  cell_spec M N A T cell → (j0 ≤ j1 ≤ M)%nat →
  row_spec M N A T j0 j1 (λ i, for_ j0 j1 1 (cell i)).
Proof.
  intros Hcell Hj P i B tmp Hi Hcp HT.
  destruct (for_unit_invariant
              (λ j st, copied (λ i' j', P i' j' ∨ i' = i ∧ (j0 ≤ j' < j)%nat)
                         M N A st.1 ∧ T st.2)
              j0 j1 (cell i) (B, tmp)) as ([B' tmp'] & Hrun & Hcp' & HT').
  - lia.
  - split; [|done]. simpl. eapply copied_mono; [done|].
    intros i' j' _ _ [?|[_ ?]]; [done|lia].
  - intros j [B1 t1] Hj1 [Hcp1 HT1]. simpl in *.
    destruct (Hcell _ i j B1 t1 Hi ltac:(lia) Hcp1 HT1)
      as (B2 & t2 & -> & Hcp2 & HT2).
    exists (B2, t2). split_and!; [done| |done]. simpl.
    eapply copied_mono; [done|].
    intros i' j' _ _ [?|[-> ?]]; [tauto|].
    destruct (decide (j' = j)) as [->|]; [tauto|].
    left. right. split; [done|lia].
  - by exists B', tmp'.
Qed.

(** The loop over the rows from [i0] to [i1]. *)
Lemma rows_band T row j0 j1 i0 i1 P B tmp :
  row_spec M N A T j0 j1 row → (i0 ≤ i1 ≤ N)%nat →
  copied P M N A B → T tmp →
  ∃ B' tmp',
    for_ i0 i1 1 row (B, tmp) = Ok (B', tmp') ∧
    copied (λ i' j', P i' j' ∨ (i0 ≤ i' < i1)%nat ∧ (j0 ≤ j' < j1)%nat)
      M N A B' ∧
    T tmp'.
Proof.
  intros Hrow Hi Hcp HT.
  destruct (for_unit_invariant
              (λ i st,
                 copied (λ i' j', P i' j' ∨
                                  (i0 ≤ i' < i)%nat ∧ (j0 ≤ j' < j1)%nat)
                   M N A st.1 ∧ T st.2)
              i0 i1 row (B, tmp)) as ([B' tmp'] & Hrun & Hcp' & HT').
  - lia.
  - split; [|done]. simpl. eapply copied_mono; [done|].
    intros i' j' _ _ [?|[? _]]; [done|lia].
  - intros i [B1 t1] Hi1 [Hcp1 HT1]. simpl in *.
    destruct (Hrow _ i B1 t1 ltac:(lia) Hcp1 HT1)
      as (B2 & t2 & -> & Hcp2 & HT2).
    exists (B2, t2). split_and!; [done| |done]. simpl.
    eapply copied_mono; [done|].
    intros i' j' _ _ [?|[? ?]]; [tauto|].
    destruct (decide (i' = i)) as [->|]; [tauto|].
    left. right. split; [lia|done].
  - by exists B', tmp'.
Qed.

(** The two loops of [trans_basic] and of [trans_tmp]. *)
Lemma cells_all T cell B tmp :
  cell_spec M N A T cell → shape M N B → T tmp →
  ∃ B' tmp',
    for_ 0 N 1 (λ i, for_ 0 M 1 (cell i)) (B, tmp) = Ok (B', tmp') ∧
    transposed M N A B' ∧ T tmp'.
Proof.
  intros Hcell HB HT.
  destruct (rows_band T (λ i, for_ 0 M 1 (cell i)) 0 M 0 N
              (λ _ _, False) B tmp) as (B' & tmp' & Hrun & Hcp & HT').
  - apply cells_row; [done|lia].
  - lia.
  - by split.
  - done.
  - exists B', tmp'. split_and!; [done| |done].
    eapply copied_mono; [done|]. intros i j ? ? _. right. lia.
Qed.

Lemma eight_next i n :
  (i < n)%nat → (i mod 8 = 0)%nat → (n mod 8 = 0)%nat → (i + 8 ≤ n)%nat.
Proof.
  intros Hi Hdi Hdn. apply Nat.Div0.div_exact in Hdi, Hdn. lia.
Qed.

(** The two outer loops of [trans_blocking] and of
    [trans_blocking_diagonal]. *)
Lemma blocks_all T blk B tmp :
  block_spec M N A T blk →
  (M mod 8 = 0)%nat → (N mod 8 = 0)%nat → shape M N B → T tmp →
  ∃ B' tmp',
    for_ 0 N 8 (λ i, for_ 0 M 8 (blk i)) (B, tmp) = Ok (B', tmp') ∧
    transposed M N A B' ∧ T tmp'.
Proof.
  intros Hblk HM HN HB HT.
  destruct (for_eight_invariant
              (λ i st, copied (λ i' _, (i' < i)%nat) M N A st.1 ∧ T st.2)
              N (λ i, for_ 0 M 8 (blk i)) (B, tmp))
    as ([B' tmp'] & Hrun & Hcp' & HT').
  - done.
  - split; [|done]. split; [done|]. intros i j _ _ ?. lia.
  - intros i [B1 t1] Hi Hdi [Hcp1 HT1]. simpl in *.
    pose proof (eight_next i N Hi Hdi HN) as Hi8.
    destruct (for_eight_invariant
                (λ j st,
                   copied (λ i' j', (i' < i)%nat ∨
                                    (i ≤ i' < i + 8)%nat ∧ (j' < j)%nat)
                     M N A st.1 ∧ T st.2)
                M (blk i) (B1, t1))
      as ([B2 t2] & Hrun2 & Hcp2 & HT2).
    + done.
    + split; [|done]. simpl. eapply copied_mono; [done|].
      intros i' j' _ _ [?|[_ ?]]; [done|lia].
    + intros j [B3 t3] Hj Hdj [Hcp3 HT3]. simpl in *.
      pose proof (eight_next j M Hj Hdj HM) as Hj8.
      destruct (Hblk _ i j B3 t3 Hi8 Hj8 Hcp3 HT3)
        as (B4 & t4 & -> & Hcp4 & HT4).
      exists (B4, t4). split_and!; [done| |done]. simpl.
      eapply copied_mono; [done|].
      intros i' j' _ _ [?|[? ?]]; [tauto|].
      destruct (decide (j' < j)%nat); [tauto|].
      right. split; [done|lia].
    + exists (B2, t2). split_and!; [done| |done]. simpl in *.
      eapply copied_mono; [done|].
      intros i' j' _ Hj' ?.
      destruct (decide (i' < i)%nat); [tauto|]. right. lia.
  - exists B', tmp'. split_and!; [done| |done]. simpl in *.
    eapply copied_mono; [done|]. intros i j ? ? _. done.
Qed.

(** The block of [trans_blocking]. *)
Lemma blocking_block T :
  block_spec M N A T (λ i j,
    for_ i (i + 8) 1 (λ m,
      for_ j (j + 8) 1 (λ n '(B, tmp),
        x ← read2 A m n;
        B ← write2 B n m x;
        Ok (B, tmp)))).
Proof.
  intros P i j B tmp Hi Hj Hcp HT.
  apply (rows_band T _ j (j + 8) i (i + 8) P B tmp); [|lia|done|done].
  apply (cells_row T _ j (j + 8) (basic_cell T)). lia.
Qed.

End copies.

(** [x != x] holds of the NaNs only. *)
Lemma double_ne_refl x : double_ne x x = PrimFloat.is_nan x.
Proof. done. Qed.

Section checks.
Variables (M N : nat) (A : list (list double)).
Hypothesis HA : shape N M A.

(** The block row of [trans_blocking_diagonal]. *)
Lemma diagonal_row L i j :
  (8 ≤ L)%nat → (j + 8 ≤ M)%nat →
  row_spec M N A (λ tmp, length tmp = L) j (j + 8) (λ m '(B, tmp),
    if (i =? j)%nat then
      x ← read2 A m j; tmp ← write1 tmp 0 x;
      x ← read2 A m (j + 1); tmp ← write1 tmp 1 x;
      x ← read2 A m (j + 2); tmp ← write1 tmp 2 x;
      x ← read2 A m (j + 3); tmp ← write1 tmp 3 x;
      x ← read2 A m (j + 4); tmp ← write1 tmp 4 x;
      x ← read2 A m (j + 5); tmp ← write1 tmp 5 x;
      x ← read2 A m (j + 6); tmp ← write1 tmp 6 x;
      x ← read2 A m (j + 7); tmp ← write1 tmp 7 x;
      x ← read1 tmp 0; B ← write2 B j m x;
      x ← read1 tmp 1; B ← write2 B (j + 1) m x;
      x ← read1 tmp 2; B ← write2 B (j + 2) m x;
      x ← read1 tmp 3; B ← write2 B (j + 3) m x;
      x ← read1 tmp 4; B ← write2 B (j + 4) m x;
      x ← read1 tmp 5; B ← write2 B (j + 5) m x;
      x ← read1 tmp 6; B ← write2 B (j + 6) m x;
      x ← read1 tmp 7; B ← write2 B (j + 7) m x;
      Ok (B, tmp)
    else
      for_ j (j + 8) 1 (λ n '(B, tmp),
        x ← read2 A m n;
        B ← write2 B n m x;
        Ok (B, tmp)) (B, tmp)).
Proof.
  intros HL Hj P m B tmp Hm Hcp HT.
  destruct (i =? j)%nat.
  - destruct (at2_is_Some _ _ _ m j HA Hm) as [a0 Ha0]; [lia|].
    destruct (at2_is_Some _ _ _ m (j + 1) HA Hm) as [a1 Ha1]; [lia|].
    destruct (at2_is_Some _ _ _ m (j + 2) HA Hm) as [a2 Ha2]; [lia|].
    destruct (at2_is_Some _ _ _ m (j + 3) HA Hm) as [a3 Ha3]; [lia|].
    destruct (at2_is_Some _ _ _ m (j + 4) HA Hm) as [a4 Ha4]; [lia|].
    destruct (at2_is_Some _ _ _ m (j + 5) HA Hm) as [a5 Ha5]; [lia|].
    destruct (at2_is_Some _ _ _ m (j + 6) HA Hm) as [a6 Ha6]; [lia|].
    destruct (at2_is_Some _ _ _ m (j + 7) HA Hm) as [a7 Ha7]; [lia|].
    destruct (copy_cell M N A HA _ B m j a0 Hcp Ha0) as (B0 & Hw0 & Hcp0).
    destruct (copy_cell M N A HA _ B0 m _ a1 Hcp0 Ha1) as (B1 & Hw1 & Hcp1).
    destruct (copy_cell M N A HA _ B1 m _ a2 Hcp1 Ha2) as (B2 & Hw2 & Hcp2).
    destruct (copy_cell M N A HA _ B2 m _ a3 Hcp2 Ha3) as (B3 & Hw3 & Hcp3).
    destruct (copy_cell M N A HA _ B3 m _ a4 Hcp3 Ha4) as (B4 & Hw4 & Hcp4).
    destruct (copy_cell M N A HA _ B4 m _ a5 Hcp4 Ha5) as (B5 & Hw5 & Hcp5).
    destruct (copy_cell M N A HA _ B5 m _ a6 Hcp5 Ha6) as (B6 & Hw6 & Hcp6).
    destruct (copy_cell M N A HA _ B6 m _ a7 Hcp6 Ha7) as (B7 & Hw7 & Hcp7).
    destruct tmp as [|t0 [|t1 [|t2 [|t3 [|t4 [|t5 [|t6 [|t7 rest]]]]]]]];
      simpl in HT; try lia.
    exists B7, (a0 :: a1 :: a2 :: a3 :: a4 :: a5 :: a6 :: a7 :: rest).
    split_and!.
    + unfold read2. rewrite Ha0, Ha1, Ha2, Ha3, Ha4, Ha5, Ha6, Ha7.
      cbn -[write2]. rewrite Hw0. cbn -[write2]. rewrite Hw1.
      cbn -[write2]. rewrite Hw2. cbn -[write2]. rewrite Hw3.
      cbn -[write2]. rewrite Hw4. cbn -[write2]. rewrite Hw5.
      cbn -[write2]. rewrite Hw6. cbn -[write2]. rewrite Hw7. done.
    + eapply copied_mono; [done|].
      intros i' j' _ _ [?|[-> ?]]; [tauto|].
      assert (j' = j ∨ j' = j + 1 ∨ j' = j + 2 ∨ j' = j + 3 ∨ j' = j + 4 ∨
              j' = j + 5 ∨ j' = j + 6 ∨ j' = j + 7)%nat by lia.
      tauto.
    + simpl. simpl in HT. lia.
  - apply (cells_row M N A _ _ j (j + 8) (basic_cell M N A HA _));
      [lia|done..].
Qed.

(** The block of [trans_blocking_diagonal]. *)
Lemma diagonal_block L :
  (8 ≤ L)%nat →
  block_spec M N A (λ tmp, length tmp = L) (λ i j,
    for_ i (i + 8) 1 (λ m '(B, tmp),
      if (i =? j)%nat then
        x ← read2 A m j; tmp ← write1 tmp 0 x;
        x ← read2 A m (j + 1); tmp ← write1 tmp 1 x;
        x ← read2 A m (j + 2); tmp ← write1 tmp 2 x;
        x ← read2 A m (j + 3); tmp ← write1 tmp 3 x;
        x ← read2 A m (j + 4); tmp ← write1 tmp 4 x;
        x ← read2 A m (j + 5); tmp ← write1 tmp 5 x;
        x ← read2 A m (j + 6); tmp ← write1 tmp 6 x;
        x ← read2 A m (j + 7); tmp ← write1 tmp 7 x;
        x ← read1 tmp 0; B ← write2 B j m x;
        x ← read1 tmp 1; B ← write2 B (j + 1) m x;
        x ← read1 tmp 2; B ← write2 B (j + 2) m x;
        x ← read1 tmp 3; B ← write2 B (j + 3) m x;
        x ← read1 tmp 4; B ← write2 B (j + 4) m x;
        x ← read1 tmp 5; B ← write2 B (j + 5) m x;
        x ← read1 tmp 6; B ← write2 B (j + 6) m x;
        x ← read1 tmp 7; B ← write2 B (j + 7) m x;
        Ok (B, tmp)
      else
        for_ j (j + 8) 1 (λ n '(B, tmp),
          x ← read2 A m n;
          B ← write2 B n m x;
          Ok (B, tmp)) (B, tmp))).
Proof.
  intros HL P i j B tmp Hi Hj Hcp HT.
  apply (rows_band M N A _ _ j (j + 8) i (i + 8) P B tmp);
    [|lia|done|done].
  by apply diagonal_row.
Qed.

(** The assertions pass when they are to and the loops gave the
    transpose. *)
Lemma checked_Ok NDEBUG (T : list double → Prop) loops :
  asserts_pass NDEBUG M N A →
  (∃ B' tmp', loops = Ok (B', tmp') ∧ transposed M N A B' ∧ T tmp') →
  ∃ B' tmp',
    checked NDEBUG M N A loops = Ok (B', tmp') ∧
    transposed M N A B' ∧ T tmp'.
Proof.
  intros Hpass (B' & tmp' & -> & Htr & HT).
  exists B', tmp'. split_and!; [|done..].
  unfold checked. destruct NDEBUG; [done|].
  destruct Hpass as (HM & HN & Hnan); [done|].
  rewrite (proj2 (Nat.ltb_lt 0 M)), (proj2 (Nat.ltb_lt 0 N)) by done.
  cbn -[is_transpose].
  destruct (is_transpose_verdict M N A HA B' (proj1 Htr)) as (v & -> & Hv).
  destruct v as [|j i b a]; [done|]. exfalso.
  destruct Hv as (Hi & Hj & Ha & Hb & Hne & _).
  rewrite (proj2 Htr i j Hi Hj I), Ha in Hb. injection Hb as <-.
  rewrite double_ne_refl, (Hnan _ _ _ Ha) in Hne. done.
Qed.

(** An assertion fails on an empty matrix, and on a NaN once the loops
    gave the transpose. *)
Lemma checked_Stop loops :
  (M = 0%nat ∨ N = 0%nat ∨
   has_nan A ∧ ∃ B' tmp', loops = Ok (B', tmp') ∧ transposed M N A B') →
  checked false M N A loops = Stop AssertionFailed.
Proof.
  unfold checked. cbn -[is_transpose].
  destruct M as [|M']; [done|]. destruct N as [|N']; [done|].
  intros [?|[?|[Hnan (B' & tmp' & -> & Htr)]]]; [done..|].
  cbn -[is_transpose].
  destruct (is_transpose_verdict _ _ A HA B' (proj1 Htr)) as (v & -> & Hv).
  destruct v as [|j i b a]; [|done]. exfalso.
  destruct Hnan as (i & j & x & Hx & Hxx).
  destruct (at2_Some _ _ _ _ _ _ HA Hx) as [Hi Hj].
  destruct (Hv i j Hi Hj) as (a & b & Ha & Hb & Hne).
  rewrite (proj2 Htr i j Hi Hj I), Ha in Hb. injection Hb as <-.
  rewrite Hx in Ha. injection Ha as <-.
  rewrite double_ne_refl, Hxx in Hne. done.
Qed.

End checks.

(** ** The transposes *)

Lemma shape_Forall R C (X : list (list double)) :
  length X = R → Forall (λ row, length row = C) X → shape R C X.
Proof.
  intros Hlen Hrows. split; [done|]. intros i row Hrow.
  by apply (Forall_lookup_1 _ _ _ _ Hrows Hrow).
Qed.

Lemma no_nan_Forall (A : list (list double)) :
  Forall (Forall (λ x : double, PrimFloat.is_nan x = false)) A → no_nan A.
Proof.
  intros Hall i j x. unfold at2.
  destruct (A !! i) as [row|] eqn:Hrow; simpl; [|done]. intros Hx.
  apply (Forall_lookup_1 _ _ _ _ (Forall_lookup_1 _ _ _ _ Hall Hrow) Hx).
Qed.

Lemma trans_blocking_checked NDEBUG M N A B tmp :
  trans_blocking NDEBUG M N A B tmp
  = checked NDEBUG M N A
      (for_ 0 N 8 (λ i,
         for_ 0 M 8 (λ j,
           for_ i (i + 8) 1 (λ m,
             for_ j (j + 8) 1 (λ n '(B, tmp),
               x ← read2 A m n;
               B ← write2 B n m x;
               Ok (B, tmp))))) (B, tmp)).
Proof. done. Qed.

Lemma trans_basic_checked NDEBUG M N A B tmp :
  trans_basic NDEBUG M N A B tmp
  = checked NDEBUG M N A
      (for_ 0 N 1 (λ i,
         for_ 0 M 1 (λ j '(B, tmp),
           x ← read2 A i j;
           B ← write2 B j i x;
           Ok (B, tmp))) (B, tmp)).
Proof. done. Qed.

Lemma trans_tmp_checked NDEBUG M N A B tmp :
  trans_tmp NDEBUG M N A B tmp
  = checked NDEBUG M N A
      (for_ 0 N 1 (λ i,
         for_ 0 M 1 (λ j '(B, tmp),
           let di := (i mod 2)%nat in
           let dj := (j mod 2)%nat in
           x ← read2 A i j;
           tmp ← write1 tmp (2 * di + dj) x;
           x ← read1 tmp (2 * di + dj);
           B ← write2 B j i x;
           Ok (B, tmp))) (B, tmp)).
Proof. done. Qed.

Lemma trans_blocking_diagonal_checked NDEBUG M N A B tmp :
  trans_blocking_diagonal NDEBUG M N A B tmp
  = checked NDEBUG M N A
      (for_ 0 N 8 (λ i,
         for_ 0 M 8 (λ j,
           for_ i (i + 8) 1 (λ m '(B, tmp),
             if (i =? j)%nat then
               x ← read2 A m j; tmp ← write1 tmp 0 x;
               x ← read2 A m (j + 1); tmp ← write1 tmp 1 x;
               x ← read2 A m (j + 2); tmp ← write1 tmp 2 x;
               x ← read2 A m (j + 3); tmp ← write1 tmp 3 x;
               x ← read2 A m (j + 4); tmp ← write1 tmp 4 x;
               x ← read2 A m (j + 5); tmp ← write1 tmp 5 x;
               x ← read2 A m (j + 6); tmp ← write1 tmp 6 x;
               x ← read2 A m (j + 7); tmp ← write1 tmp 7 x;
               x ← read1 tmp 0; B ← write2 B j m x;
               x ← read1 tmp 1; B ← write2 B (j + 1) m x;
               x ← read1 tmp 2; B ← write2 B (j + 2) m x;
               x ← read1 tmp 3; B ← write2 B (j + 3) m x;
               x ← read1 tmp 4; B ← write2 B (j + 4) m x;
               x ← read1 tmp 5; B ← write2 B (j + 5) m x;
               x ← read1 tmp 6; B ← write2 B (j + 6) m x;
               x ← read1 tmp 7; B ← write2 B (j + 7) m x;
               Ok (B, tmp)
             else
               for_ j (j + 8) 1 (λ n '(B, tmp),
                 x ← read2 A m n;
                 B ← write2 B n m x;
                 Ok (B, tmp)) (B, tmp)))) (B, tmp)).
Proof. done. Qed.

(** X18.  [is_transpose] on matrices of the declared sizes makes no
    reference outside them and returns true exactly when [A[i][j] != B[j][i]]
    holds nowhere; when it returns false, the message it prints names the
    first mismatch in the order of its loops (rows of [A], then columns),
    with the two elements that differ. *)
Theorem is_transpose_correct M N A B :
  shape N M A → shape M N B →
  ∃ v,
    is_transpose M N A B = Ok v ∧
    (holds v = true ↔ ∀ i j, (i < N)%nat → (j < M)%nat → agree A B i j) ∧
    verdict_spec M N A B v.
Proof.
  intros HA HB.
  destruct (is_transpose_verdict M N A HA B HB) as (v & Hrun & Hv).
  exists v. split_and!; [done| |done].
  destruct v as [|j i b a]; simpl in *; [done|].
  split; [done|]. intros Hall.
  destruct Hv as (Hi & Hj & Ha & Hb & Hne & _).
  destruct (Hall i j Hi Hj) as (a' & b' & Ha' & Hb' & Hne').
  congruence.
Qed.

Lemma is_transpose_correct_witness :
  ∃ v,
    is_transpose 2 1 A_1x2 B_2x1 = Ok v ∧
    (holds v = true ↔
     ∀ i j, (i < 1)%nat → (j < 2)%nat → agree A_1x2 B_2x1 i j) ∧
    verdict_spec 2 1 A_1x2 B_2x1 v.
Proof.
  apply (is_transpose_correct 2 1 A_1x2 B_2x1).
  - apply shape_Forall; [reflexivity|]. repeat constructor.
  - apply shape_Forall; [reflexivity|]. repeat constructor.
Defined.

(** X19.  [trans_basic] computes the transpose: for [A] of [N] rows and
    [M] columns and [B] of [M] rows and [N] columns it ends with
    [B[j][i] = A[i][j]] everywhere and leaves [tmp] as it is.  Where the
    assertions are compiled in, this is for [M > 0], [N > 0] and [A]
    without NaN. *)
Theorem trans_basic_correct NDEBUG M N A B tmp :
  shape N M A → shape M N B → asserts_pass NDEBUG M N A →
  ∃ B' tmp',
    trans_basic NDEBUG M N A B tmp = Ok (B', tmp') ∧
    transposed M N A B' ∧ tmp' = tmp.
Proof.
  intros HA HB Hpass. rewrite trans_basic_checked.
  apply (checked_Ok M N A HA NDEBUG (λ t, t = tmp)); [done|].
  apply (cells_all M N A (λ t, t = tmp) _ B tmp (basic_cell M N A HA _));
    done.
Qed.

Lemma trans_basic_correct_witness :
  ∃ B' tmp',
    trans_basic false 2 1 A_1x2 B_2x1 [] = Ok (B', tmp') ∧
    transposed 2 1 A_1x2 B' ∧ tmp' = [].
Proof.
  apply (trans_basic_correct false 2 1 A_1x2 B_2x1 []).
  - apply shape_Forall; [reflexivity|]. repeat constructor.
  - apply shape_Forall; [reflexivity|]. repeat constructor.
  - intros _. split_and!; [lia|lia|]. apply no_nan_Forall.
    repeat constructor.
Defined.

(** X20.  [trans_tmp] computes the transpose when [tmp] has at least four
    elements; it changes elements of [tmp] and keeps its length. *)
Theorem trans_tmp_correct NDEBUG M N A B tmp :
  shape N M A → shape M N B → (4 ≤ length tmp)%nat →
  asserts_pass NDEBUG M N A →
  ∃ B' tmp',
    trans_tmp NDEBUG M N A B tmp = Ok (B', tmp') ∧
    transposed M N A B' ∧ length tmp' = length tmp.
Proof.
  intros HA HB Htmp Hpass. rewrite trans_tmp_checked.
  apply (checked_Ok M N A HA NDEBUG (λ t, length t = length tmp)); [done|].
  apply (cells_all M N A (λ t, length t = length tmp) _ B tmp
           (tmp_cell M N A HA _ Htmp)); done.
Qed.

Lemma trans_tmp_correct_witness :
  ∃ B' tmp',
    trans_tmp false 2 1 A_1x2 B_2x1 (replicate 4 PrimFloat.zero)
    = Ok (B', tmp') ∧
    transposed 2 1 A_1x2 B' ∧
    length tmp' = length (replicate 4 PrimFloat.zero).
Proof.
  apply (trans_tmp_correct false 2 1 A_1x2 B_2x1).
  - apply shape_Forall; [reflexivity|]. repeat constructor.
  - apply shape_Forall; [reflexivity|]. repeat constructor.
  - simpl. lia.
  - intros _. split_and!; [lia|lia|]. apply no_nan_Forall.
    repeat constructor.
Defined.

(** X21.  [trans_blocking] computes the transpose when [M] and [N] are
    multiples of 8, and leaves [tmp] as it is. *)
Theorem trans_blocking_correct NDEBUG M N A B tmp :
  shape N M A → shape M N B → (M mod 8 = 0)%nat → (N mod 8 = 0)%nat →
  asserts_pass NDEBUG M N A →
  ∃ B' tmp',
    trans_blocking NDEBUG M N A B tmp = Ok (B', tmp') ∧
    transposed M N A B' ∧ tmp' = tmp.
Proof.
  intros HA HB HM HN Hpass. rewrite trans_blocking_checked.
  apply (checked_Ok M N A HA NDEBUG (λ t, t = tmp)); [done|].
  apply (blocks_all M N A (λ t, t = tmp) _ B tmp
           (blocking_block M N A HA _)); done.
Qed.

Lemma trans_blocking_correct_witness :
  ∃ B' tmp',
    trans_blocking false 8 8 A_8x8 B_8x8 [] = Ok (B', tmp') ∧
    transposed 8 8 A_8x8 B' ∧ tmp' = [].
Proof.
  apply (trans_blocking_correct false 8 8 A_8x8 B_8x8 []).
  - apply shape_Forall; [reflexivity|]. repeat constructor.
  - apply shape_Forall; [reflexivity|]. repeat constructor.
  - reflexivity.
  - reflexivity.
  - intros _. split_and!; [lia|lia|]. apply no_nan_Forall.
    repeat constructor.
Defined.

(** X23.  [trans_blocking_diagonal] computes the transpose when [M] and
    [N] are multiples of 8 and [tmp] has at least eight elements; it keeps
    the length of [tmp]. *)
Theorem trans_blocking_diagonal_correct NDEBUG M N A B tmp :
  shape N M A → shape M N B → (M mod 8 = 0)%nat → (N mod 8 = 0)%nat →
  (8 ≤ length tmp)%nat → asserts_pass NDEBUG M N A →
  ∃ B' tmp',
    trans_blocking_diagonal NDEBUG M N A B tmp = Ok (B', tmp') ∧
    transposed M N A B' ∧ length tmp' = length tmp.
Proof.
  intros HA HB HM HN Htmp Hpass. rewrite trans_blocking_diagonal_checked.
  apply (checked_Ok M N A HA NDEBUG (λ t, length t = length tmp)); [done|].
  apply (blocks_all M N A (λ t, length t = length tmp) _ B tmp
           (diagonal_block M N A HA _ Htmp)); done.
Qed.

Lemma trans_blocking_diagonal_correct_witness :
  ∃ B' tmp',
    trans_blocking_diagonal false 8 8 A_8x8 B_8x8
      (replicate 8 PrimFloat.zero) = Ok (B', tmp') ∧
    transposed 8 8 A_8x8 B' ∧
    length tmp' = length (replicate 8 PrimFloat.zero).
Proof.
  apply (trans_blocking_diagonal_correct false 8 8 A_8x8 B_8x8).
  - apply shape_Forall; [reflexivity|]. repeat constructor.
  - apply shape_Forall; [reflexivity|]. repeat constructor.
  - reflexivity.
  - reflexivity.
  - simpl. lia.
  - intros _. split_and!; [lia|lia|]. apply no_nan_Forall.
    repeat constructor.
Defined.

(** ** Sizes that are not multiples of 8 *)

Lemma for_Ok_body {St} a bound step (body : nat → St → result St) st st' q :
  for_ a bound step body st = Ok st' →
  (a + q * step < bound)%nat →
  ∃ st1 st2, body (a + q * step)%nat st1 = Ok st2.
Proof. apply for_loop_Ok_body. Qed.

Lemma at2_None_ge R C (X : list (list double)) i j :
  shape R C X → (R ≤ i ∨ C ≤ j)%nat → at2 X i j = None.
Proof.
  intros HX Hij. destruct (at2 X i j) as [x|] eqn:Hx; [|done].
  apply (at2_Some _ _ _ _ _ _ HX) in Hx. lia.
Qed.

Lemma not_multiple_of_8 n :
  (n mod 8 ≠ 0)%nat → (n `div` 8 * 8 < n < n `div` 8 * 8 + 8)%nat.
Proof.
  intros Hn. pose proof (Nat.div_mod_eq n 8).
  pose proof (Nat.mod_upper_bound n 8). lia.
Qed.

(** The loops of [trans_blocking] leave [A] when a size is not a multiple
    of 8. *)
Lemma blocking_loops_fault M N A (st : list (list double) * list double) :
  shape N M A → (0 < M)%nat → (0 < N)%nat →
  (M mod 8 ≠ 0 ∨ N mod 8 ≠ 0)%nat →
  for_ 0 N 8 (λ i,
    for_ 0 M 8 (λ j,
      for_ i (i + 8) 1 (λ m,
        for_ j (j + 8) 1 (λ n '(B, tmp),
          x ← read2 A m n;
          B ← write2 B n m x;
          Ok (B, tmp))))) st = Stop OutOfBounds.
Proof.
  intros HA HM HN Hbad.
  match goal with |- ?r = _ => set (run := r) end.
  assert (Ok_or_OutOfBounds run) as Hfault.
  { apply for_Ok_or_OutOfBounds; [lia|]. intros i st1.
    apply for_Ok_or_OutOfBounds; [lia|]. intros j st2.
    apply for_Ok_or_OutOfBounds; [lia|]. intros m st3.
    apply for_Ok_or_OutOfBounds; [lia|]. intros n [B tmp]. simpl.
    pose proof (read2_Ok_or_OutOfBounds A m n) as Hr.
    destruct (read2 A m n) as [x|]; [|done]. simpl.
    pose proof (write2_Ok_or_OutOfBounds B n m x) as Hw.
    by destruct (write2 B n m x). }
  assert (∀ st', run ≠ Ok st') as Hrun.
  { intros st' Hrun. subst run.
    destruct Hbad as [Hbad|Hbad]; apply not_multiple_of_8 in Hbad.
    - destruct (for_Ok_body _ _ _ _ _ _ 0%nat Hrun) as (s1 & s2 & H1);
        [lia|].
      destruct (for_Ok_body _ _ _ _ _ _ (M `div` 8) H1) as (s3 & s4 & H2);
        [lia|].
      destruct (for_Ok_body _ _ _ _ _ _ 0%nat H2) as (s5 & s6 & H3); [lia|].
      match type of H3 with
      | for_ ?j _ _ _ _ = _ =>
          destruct (for_Ok_body _ _ _ _ _ _ (M - j)%nat H3)
            as ([B tmp] & s8 & H4); [lia|]
      end.
      simpl in H4. unfold read2 in H4.
      rewrite (at2_None_ge _ _ _ _ _ HA) in H4 by lia. done.
    - destruct (for_Ok_body _ _ _ _ _ _ (N `div` 8) Hrun)
        as (s1 & s2 & H1); [lia|].
      destruct (for_Ok_body _ _ _ _ _ _ 0%nat H1) as (s3 & s4 & H2); [lia|].
      match type of H2 with
      | for_ ?i _ _ _ _ = _ =>
          destruct (for_Ok_body _ _ _ _ _ _ (N - i)%nat H2)
            as (s5 & s6 & H3); [lia|]
      end.
      destruct (for_Ok_body _ _ _ _ _ _ 0%nat H3) as ([B tmp] & s8 & H4);
        [lia|].
      simpl in H4. unfold read2 in H4.
      rewrite (at2_None_ge _ _ _ _ _ HA) in H4 by lia. done. }
  destruct run as [st'|[]]; [by destruct (Hrun st')|done..].
Qed.

(** X22.  [trans_blocking] is for multiples of 8 only: when [M] or [N] is
    not one (both positive), its loops go over the last block of 8 rows or
    columns and read outside [A], with or without assertions. *)
Theorem trans_blocking_out_of_bounds NDEBUG M N A B tmp :
  shape N M A → (0 < M)%nat → (0 < N)%nat →
  (M mod 8 ≠ 0 ∨ N mod 8 ≠ 0)%nat →
  trans_blocking NDEBUG M N A B tmp = Stop OutOfBounds.
Proof.
  intros HA HM HN Hbad. rewrite trans_blocking_checked. unfold checked.
  rewrite blocking_loops_fault by done.
  rewrite (proj2 (Nat.ltb_lt 0 M)), (proj2 (Nat.ltb_lt 0 N)) by done.
  by destruct NDEBUG.
Qed.

Lemma trans_blocking_out_of_bounds_witness :
  trans_blocking false 2 1 A_1x2 B_2x1 [] = Stop OutOfBounds.
Proof.
  apply (trans_blocking_out_of_bounds false 2 1 A_1x2 B_2x1 []).
  - apply shape_Forall; [reflexivity|]. repeat constructor.
  - lia.
  - lia.
  - left. simpl. lia.
Defined.

(** ** [transpose_submit] *)

(** X24.  [transpose_submit] computes the transpose for all sizes, given
    a [tmp] of at least eight elements: whichever of the four transposes
    it chooses by the sizes ends with [B[j][i] = A[i][j]] everywhere.
    Where the assertions are compiled in, this is for [M > 0], [N > 0] and
    [A] without NaN. *)
Theorem transpose_submit_correct NDEBUG M N A B tmp :
  shape N M A → shape M N B → (8 ≤ length tmp)%nat →
  asserts_pass NDEBUG M N A →
  ∃ B' tmp',
    transpose_submit NDEBUG M N A B tmp = Ok (B', tmp') ∧
    transposed M N A B' ∧ length tmp' = length tmp.
Proof.
  intros HA HB Htmp Hpass. unfold transpose_submit.
  destruct (M =? N)%nat eqn:HMN.
  - apply Nat.eqb_eq in HMN as <-.
    destruct (M =? 32)%nat eqn:H32; [|destruct (M =? 1024)%nat eqn:H1024].
    + apply Nat.eqb_eq in H32 as ->.
      rewrite trans_blocking_diagonal_checked.
      apply (checked_Ok _ _ A HA NDEBUG (λ t, length t = length tmp));
        [done|].
      apply (blocks_all _ _ A (λ t, length t = length tmp) _ B tmp
               (diagonal_block _ _ A HA _ Htmp)); done.
    + apply Nat.eqb_eq in H1024 as ->.
      rewrite trans_blocking_checked.
      apply (checked_Ok _ _ A HA NDEBUG (λ t, length t = length tmp));
        [done|].
      apply (blocks_all _ _ A (λ t, length t = length tmp) _ B tmp
               (blocking_block _ _ A HA _)); done.
    + rewrite trans_basic_checked.
      apply (checked_Ok _ _ A HA NDEBUG (λ t, length t = length tmp));
        [done|].
      apply (cells_all _ _ A (λ t, length t = length tmp) _ B tmp
               (basic_cell _ _ A HA _)); done.
  - rewrite trans_tmp_checked.
    apply (checked_Ok _ _ A HA NDEBUG (λ t, length t = length tmp)); [done|].
    apply (cells_all _ _ A (λ t, length t = length tmp) _ B tmp
             (tmp_cell _ _ A HA (length tmp) ltac:(lia))); done.
Qed.

Lemma transpose_submit_correct_witness :
  ∃ B' tmp',
    transpose_submit false 2 1 A_1x2 B_2x1 (replicate 8 PrimFloat.zero)
    = Ok (B', tmp') ∧
    transposed 2 1 A_1x2 B' ∧
    length tmp' = length (replicate 8 PrimFloat.zero).
Proof.
  apply (transpose_submit_correct false 2 1 A_1x2 B_2x1).
  - apply shape_Forall; [reflexivity|]. repeat constructor.
  - apply shape_Forall; [reflexivity|]. repeat constructor.
  - simpl. lia.
  - intros _. split_and!; [lia|lia|]. apply no_nan_Forall.
    repeat constructor.
Defined.

(** X25.  With the assertions compiled in, [transpose_submit] aborts on an
    empty matrix, and on a matrix with a NaN: the transpose is computed,
    but [is_transpose] compares the NaN with its copy by [!=] and reports a
    mismatch. *)
Theorem transpose_submit_assertion_fails M N A B tmp :
  shape N M A → shape M N B → (8 ≤ length tmp)%nat →
  M = 0%nat ∨ N = 0%nat ∨ has_nan A →
  transpose_submit false M N A B tmp = Stop AssertionFailed.
Proof.
  intros HA HB Htmp Hbad. unfold transpose_submit.
  assert (∀ loops,
            (∃ B' tmp', loops = Ok (B', tmp') ∧ transposed M N A B' ∧
                        length tmp' = length tmp) →
            checked false M N A loops = Stop AssertionFailed) as Hstop.
  { intros loops (B' & tmp' & Hloops & Htr & _).
    apply (checked_Stop M N A HA).
    destruct Hbad as [?|[?|?]]; [tauto|tauto|]. right. right. eauto. }
  destruct (M =? N)%nat eqn:HMN.
  - apply Nat.eqb_eq in HMN as <-.
    destruct (M =? 32)%nat eqn:H32; [|destruct (M =? 1024)%nat eqn:H1024].
    + apply Nat.eqb_eq in H32 as ->.
      rewrite trans_blocking_diagonal_checked. apply Hstop.
      apply (blocks_all _ _ A (λ t, length t = length tmp) _ B tmp
               (diagonal_block _ _ A HA _ Htmp)); done.
    + apply Nat.eqb_eq in H1024 as ->.
      rewrite trans_blocking_checked. apply Hstop.
      apply (blocks_all _ _ A (λ t, length t = length tmp) _ B tmp
               (blocking_block _ _ A HA _)); done.
    + rewrite trans_basic_checked. apply Hstop.
      apply (cells_all _ _ A (λ t, length t = length tmp) _ B tmp
               (basic_cell _ _ A HA _)); done.
  - rewrite trans_tmp_checked. apply Hstop.
    apply (cells_all _ _ A (λ t, length t = length tmp) _ B tmp
             (tmp_cell _ _ A HA (length tmp) ltac:(lia))); done.
Qed.

Lemma transpose_submit_assertion_fails_witness :
  transpose_submit false 2 1 A_nan B_2x1 (replicate 8 PrimFloat.zero)
  = Stop AssertionFailed.
Proof.
  apply (transpose_submit_assertion_fails 2 1 A_nan B_2x1).
  - apply shape_Forall; [reflexivity|]. repeat constructor.
  - apply shape_Forall; [reflexivity|]. repeat constructor.
  - simpl. lia.
  - right. right. exists 0%nat, 1%nat, PrimFloat.nan. split; reflexivity.
Defined.

Lemma read1_Ok_or_OutOfBounds tmp k : Ok_or_OutOfBounds (read1 tmp k).
Proof. unfold read1. by destruct (tmp !! k). Qed.

Lemma write1_Ok_or_OutOfBounds tmp k x : Ok_or_OutOfBounds (write1 tmp k x).
Proof. unfold write1. by case_match. Qed.

Lemma bind_Ok_or_OutOfBounds {T U} (m : result T) (k : T → result U) :
  Ok_or_OutOfBounds m → (∀ x, Ok_or_OutOfBounds (k x)) →
  Ok_or_OutOfBounds (m ≫= k).
Proof. intros Hm Hk. destruct m as [x|f]; [apply Hk|done]. Qed.

Lemma bind_Ok {T U} (m : result T) (k : T → result U) y :
  m ≫= k = Ok y → ∃ x, m = Ok x ∧ k x = Ok y.
Proof. destruct m as [x|f]; [|done]. intros Hk. by exists x. Qed.

(** The loops of [trans_blocking_diagonal] leave [A] when a size is not a
    multiple of 8. *)
Lemma diagonal_loops_fault M N A (st : list (list double) * list double) :
  shape N M A → (0 < M)%nat → (0 < N)%nat →
  (M mod 8 ≠ 0 ∨ N mod 8 ≠ 0)%nat →
  for_ 0 N 8 (λ i,
    for_ 0 M 8 (λ j,
      for_ i (i + 8) 1 (λ m '(B, tmp),
        if (i =? j)%nat then
          x ← read2 A m j; tmp ← write1 tmp 0 x;
          x ← read2 A m (j + 1); tmp ← write1 tmp 1 x;
          x ← read2 A m (j + 2); tmp ← write1 tmp 2 x;
          x ← read2 A m (j + 3); tmp ← write1 tmp 3 x;
          x ← read2 A m (j + 4); tmp ← write1 tmp 4 x;
          x ← read2 A m (j + 5); tmp ← write1 tmp 5 x;
          x ← read2 A m (j + 6); tmp ← write1 tmp 6 x;
          x ← read2 A m (j + 7); tmp ← write1 tmp 7 x;
          x ← read1 tmp 0; B ← write2 B j m x;
          x ← read1 tmp 1; B ← write2 B (j + 1) m x;
          x ← read1 tmp 2; B ← write2 B (j + 2) m x;
          x ← read1 tmp 3; B ← write2 B (j + 3) m x;
          x ← read1 tmp 4; B ← write2 B (j + 4) m x;
          x ← read1 tmp 5; B ← write2 B (j + 5) m x;
          x ← read1 tmp 6; B ← write2 B (j + 6) m x;
          x ← read1 tmp 7; B ← write2 B (j + 7) m x;
          Ok (B, tmp)
        else
          for_ j (j + 8) 1 (λ n '(B, tmp),
            x ← read2 A m n;
            B ← write2 B n m x;
            Ok (B, tmp)) (B, tmp)))) st = Stop OutOfBounds.
Proof.
  intros HA HM HN Hbad.
  match goal with |- ?r = _ => set (run := r) end.
  assert (Ok_or_OutOfBounds run) as Hfault.
  { apply for_Ok_or_OutOfBounds; [lia|]. intros i st1.
    apply for_Ok_or_OutOfBounds; [lia|]. intros j st2.
    apply for_Ok_or_OutOfBounds; [lia|]. intros m [B tmp].
    destruct (i =? j)%nat.
    - repeat (apply bind_Ok_or_OutOfBounds;
              [first [apply read2_Ok_or_OutOfBounds
                     |apply write1_Ok_or_OutOfBounds
                     |apply read1_Ok_or_OutOfBounds
                     |apply write2_Ok_or_OutOfBounds]|intros ?]).
      done.
    - apply for_Ok_or_OutOfBounds; [lia|]. intros n [B1 tmp1].
      repeat (apply bind_Ok_or_OutOfBounds;
              [first [apply read2_Ok_or_OutOfBounds
                     |apply write2_Ok_or_OutOfBounds]|intros ?]).
      done. }
  assert (∀ i j m B tmp st',
            (N ≤ m ∨ M < j + 8)%nat →
            (if (i =? j)%nat then
               x ← read2 A m j; tmp ← write1 tmp 0 x;
               x ← read2 A m (j + 1); tmp ← write1 tmp 1 x;
               x ← read2 A m (j + 2); tmp ← write1 tmp 2 x;
               x ← read2 A m (j + 3); tmp ← write1 tmp 3 x;
               x ← read2 A m (j + 4); tmp ← write1 tmp 4 x;
               x ← read2 A m (j + 5); tmp ← write1 tmp 5 x;
               x ← read2 A m (j + 6); tmp ← write1 tmp 6 x;
               x ← read2 A m (j + 7); tmp ← write1 tmp 7 x;
               x ← read1 tmp 0; B ← write2 B j m x;
               x ← read1 tmp 1; B ← write2 B (j + 1) m x;
               x ← read1 tmp 2; B ← write2 B (j + 2) m x;
               x ← read1 tmp 3; B ← write2 B (j + 3) m x;
               x ← read1 tmp 4; B ← write2 B (j + 4) m x;
               x ← read1 tmp 5; B ← write2 B (j + 5) m x;
               x ← read1 tmp 6; B ← write2 B (j + 6) m x;
               x ← read1 tmp 7; B ← write2 B (j + 7) m x;
               Ok (B, tmp)
             else
               for_ j (j + 8) 1 (λ n '(B, tmp),
                 x ← read2 A m n;
                 B ← write2 B n m x;
                 Ok (B, tmp)) (B, tmp)) ≠ Ok st') as Hrow.
  { intros i j m B tmp st' Hout Hrow. destruct (i =? j)%nat.
    - apply bind_Ok in Hrow as (x0 & Hr0 & Hrow).
      apply bind_Ok in Hrow as (t0 & _ & Hrow).
      apply bind_Ok in Hrow as (x1 & _ & Hrow).
      apply bind_Ok in Hrow as (t1 & _ & Hrow).
      apply bind_Ok in Hrow as (x2 & _ & Hrow).
      apply bind_Ok in Hrow as (t2 & _ & Hrow).
      apply bind_Ok in Hrow as (x3 & _ & Hrow).
      apply bind_Ok in Hrow as (t3 & _ & Hrow).
      apply bind_Ok in Hrow as (x4 & _ & Hrow).
      apply bind_Ok in Hrow as (t4 & _ & Hrow).
      apply bind_Ok in Hrow as (x5 & _ & Hrow).
      apply bind_Ok in Hrow as (t5 & _ & Hrow).
      apply bind_Ok in Hrow as (x6 & _ & Hrow).
      apply bind_Ok in Hrow as (t6 & _ & Hrow).
      apply bind_Ok in Hrow as (x7 & Hr7 & _).
      unfold read2 in Hr0, Hr7.
      destruct Hout.
      + rewrite (at2_None_ge _ _ _ _ _ HA) in Hr0 by lia. done.
      + rewrite (at2_None_ge _ _ _ _ _ HA) in Hr7 by lia. done.
    - destruct Hout.
      + destruct (for_Ok_body _ _ _ _ _ _ 0%nat Hrow)
          as ([B1 tmp1] & s2 & H1); [lia|].
        simpl in H1. unfold read2 in H1.
        rewrite (at2_None_ge _ _ _ _ _ HA) in H1 by lia. done.
      + destruct (for_Ok_body _ _ _ _ _ _ (M - j)%nat Hrow)
          as ([B1 tmp1] & s2 & H1); [lia|].
        simpl in H1. unfold read2 in H1.
        rewrite (at2_None_ge _ _ _ _ _ HA) in H1 by lia. done. }
  assert (∀ st', run ≠ Ok st') as Hrun.
  { intros st' Hrun. subst run.
    destruct Hbad as [Hbad|Hbad]; apply not_multiple_of_8 in Hbad.
    - destruct (for_Ok_body _ _ _ _ _ _ 0%nat Hrun) as (s1 & s2 & H1);
        [lia|].
      destruct (for_Ok_body _ _ _ _ _ _ (M `div` 8) H1) as (s3 & s4 & H2);
        [lia|].
      destruct (for_Ok_body _ _ _ _ _ _ 0%nat H2) as ([B tmp] & s6 & H3);
        [lia|].
      apply Hrow in H3; [done|]. lia.
    - destruct (for_Ok_body _ _ _ _ _ _ (N `div` 8) Hrun)
        as (s1 & s2 & H1); [lia|].
      destruct (for_Ok_body _ _ _ _ _ _ 0%nat H1) as (s3 & s4 & H2); [lia|].
      match type of H2 with
      | for_ ?i _ _ _ _ = _ =>
          destruct (for_Ok_body _ _ _ _ _ _ (N - i)%nat H2)
            as ([B tmp] & s6 & H3); [lia|]
      end.
      apply Hrow in H3; [done|]. lia. }
  destruct run as [st'|[]]; [by destruct (Hrun st')|done..].
Qed.

(** X26.  [trans_blocking_diagonal] is for multiples of 8 only: when [M]
    or [N] is not one (both positive), it reads outside [A], with or
    without assertions. *)
Theorem trans_blocking_diagonal_out_of_bounds NDEBUG M N A B tmp :
  shape N M A → (0 < M)%nat → (0 < N)%nat →
  (M mod 8 ≠ 0 ∨ N mod 8 ≠ 0)%nat →
  trans_blocking_diagonal NDEBUG M N A B tmp = Stop OutOfBounds.
Proof.
  intros HA HM HN Hbad. rewrite trans_blocking_diagonal_checked.
  unfold checked. rewrite diagonal_loops_fault by done.
  rewrite (proj2 (Nat.ltb_lt 0 M)), (proj2 (Nat.ltb_lt 0 N)) by done.
  by destruct NDEBUG.
Qed.

Lemma trans_blocking_diagonal_out_of_bounds_witness :
  trans_blocking_diagonal false 2 1 A_1x2 B_2x1 (replicate 8 PrimFloat.zero)
  = Stop OutOfBounds.
Proof.
  apply (trans_blocking_diagonal_out_of_bounds false 2 1 A_1x2 B_2x1).
  - apply shape_Forall; [reflexivity|]. repeat constructor.
  - lia.
  - lia.
  - left. simpl. lia.
Defined.
